(** * Pyramid focus stacking: a shallow embedding of [fs_pyramid.py]

    The development follows [src/python/fs_pyramid.py] and the entry point
    [stack_images] of [src/python/stacker.py].

    Conventions of the embedding.
    - A NumPy array is a nested list: an image of shape (H, W, C) is a list
      of H rows, each a list of W pixels, each a list of C samples; a stack
      of shape (N, H, W, C) is a list of N images.
    - An array that [cv2] takes or returns is an [ndarray], 2-D or 3-D: the
      Python binding of OpenCV returns a single-channel image without its
      channel axis.  A pyramid level is the list of its layers.
    - A float32 sample is an exact rational ([Qc], rationals in lowest terms,
      which have Leibniz equality).  Rounding is not modelled: every equation
      proved below is an equation of exact arithmetic.
    - The element type of an array is passed along where the code reads it
      ([images.dtype]): a cast to [float32] keeps the value, a cast to
      [uint8] drops the fraction.
    - [np.log] is a parameter [ln] of the definitions that use it.
    - A [uint8] gray level is a [nat]; quantisation is the predicate
      [quantized].
    - Python exceptions are the [Raise] results of the [result] type. *)

From Stdlib Require Import ZArith QArith Qcanon Qpower Lia List.
From stdpp Require Import base tactics option list numbers.

Set Default Proof Using "Type".

(** ** Exceptions *)

Inductive PyErr : Type :=
| IndexError
| ValueError
| ZeroDivisionError
| OverflowError
| Cv2Error.

Inductive result (A : Type) : Type :=
| Ok (a : A)
| Raise (e : PyErr).

Arguments Ok {A} a.
Arguments Raise {A} e.

Definition bind {A B : Type} (m : result A) (k : A -> result B) : result B :=
match m with
| Ok a => k a
| Raise e => Raise e
end.

Notation "'let*' x ':=' m 'in' k" := (bind m (fun x => k))
  (at level 10, x name, m at level 100, k at level 200).

(** A [for] loop whose body may raise: the state is threaded through the
    iterations and the first exception ends the loop. *)
Fixpoint for_each {A S : Type} (xs : list A) (s : S) (body : A -> S -> result S)
  : result S :=
match xs with
| [] => Ok s
| x :: rest => let* s' := body x s in for_each rest s' body
end.

(** ** Samples *)

Definition Qnat (n : nat) : Qc := Q2Qc (inject_Z (Z.of_nat n)).
Definition Qint (z : Z) : Qc := Q2Qc (inject_Z z).
Definition qfrac (n : Z) (d : positive) : Qc := Q2Qc (n # d).

(** [x.astype(np.uint8)] of a float: the fraction is dropped (rounding toward
    zero) and the integer is reduced modulo 256. *)
Definition to_uint8 (x : Qc) : nat :=
Z.to_nat ((Z.quot (Qnum (this x)) (Z.pos (Qden (this x)))) mod 256).

(** The element types of the program's arrays: images are read as [uint8],
    and [INTERNAL_DTYP] is [float32]. *)
Inductive dtype : Type :=
| uint8
| float32.

(** ** Shapes *)

Abbreviation Plane := (list (list Qc)).
Abbreviation Image := (list (list (list Qc))).
Abbreviation Stack := (list (list (list (list Qc)))).
Abbreviation GrayImage := (list (list nat)).

(** An array as [cv2] takes and returns it: of shape (h, w), or of shape
    (h, w, c). *)
Inductive ndarray : Type :=
| Arr2 (a : Plane)
| Arr3 (a : Image).

(** A pyramid level: the list of its layers, [level[0]], [level[1]], ... *)
Abbreviation Level := (list ndarray).

(** [rect2 h w a]: [a] is a regular array of shape (h, w). *)
Definition rect2 {A : Type} (h w : nat) (a : list (list A)) : Prop :=
length a = h /\ Forall (fun row => length row = w) a.

(** [rect3 h w c a]: [a] is a regular array of shape (h, w, c). *)
Definition rect3 {A : Type} (h w c : nat) (a : list (list (list A))) : Prop :=
length a = h /\ Forall (rect2 w c) a.

(** Every gray level fits a [uint8]. *)
Definition quantized (gray : GrayImage) : Prop :=
Forall (Forall (fun v => v < 256)) gray.

(** ** NumPy *)

Module Np.

Definition shape2 {A : Type} (a : list (list A)) : nat * nat :=
(length a, length (hd [] a)).

Definition shape3 {A : Type} (a : list (list (list A))) : nat * nat * nat :=
(length a, length (hd [] a), length (hd [] (hd [] a))).

Definition shape4 {A : Type} (a : list (list (list (list A))))
  : nat * nat * nat * nat :=
(length a, length (hd [] a), length (hd [] (hd [] a)),
 length (hd [] (hd [] (hd [] a)))).

(** [a[r, c]] as an option, and with the default the embedding reads where
    the index is known to be in range. *)
Definition get2 {A : Type} (a : list (list A)) (r c : nat) : option A :=
match a !! r with
| Some row => row !! c
| None => None
end.

Definition get3 {A : Type} (a : list (list (list A))) (r c k : nat) : option A :=
match get2 a r c with
| Some px => px !! k
| None => None
end.

Definition at2 {A : Type} (d : A) (a : list (list A)) (r c : nat) : A :=
default d (get2 a r c).

Definition at3 (a : Image) (r c k : nat) : Qc :=
default 0%Qc (get3 a r c k).

(** [a.shape] of an array of either rank. *)
Definition shape (a : ndarray) : list nat :=
match a with
| Arr2 p => let '(h, w) := shape2 p in [h; w]
| Arr3 img => let '(h, w, c) := shape3 img in [h; w; c]
end.

(** [x.astype(dt)] of one sample. *)
Definition astype (dt : dtype) (x : Qc) : Qc :=
match dt with
| uint8 => Qnat (to_uint8 x)
| float32 => x
end.

(** [images.astype(dt)] of a stack. *)
Definition astype4 (dt : dtype) (images : Stack) : Stack :=
map (map (map (map (astype dt)))) images.

(** [np.zeros((h, w))] and [np.zeros((h, w, c))]. *)
Definition zeros2 (h w : nat) : Plane := replicate h (replicate w 0%Qc).
Definition zeros3 (h w c : nat) : Image :=
replicate h (replicate w (replicate c 0%Qc)).

(** [a[:, :, channel]]. *)
Definition plane (a : Image) (channel : nat) : Plane :=
map (map (fun px => default 0%Qc (px !! channel))) a.

(** [a[:, :, channel] = p]. *)
Definition set_plane (a : Image) (channel : nat) (p : Plane) : Image :=
zip_with (zip_with (fun px v => <[channel := v]> px)) a p.

(** [fused += x] for [fused] and [x] of one shape, both built from the
    shape of the same stack. *)
Definition add2 (a b : Plane) : Plane := zip_with (zip_with Qcplus) a b.
Definition square (a : Plane) : Plane := map (map (fun x => (x * x)%Qc)) a.

(** Broadcasting, the rule of NumPy's binary operations: two lengths of an
    axis are compatible when they are equal or one of them is 1, and an
    axis of length 1 is read at index 0 throughout.  Incompatible shapes
    raise [ValueError]. *)
Definition broadcast_dim (m n : nat) : option nat :=
if m =? n then Some m
else if m =? 1 then Some n
else if n =? 1 then Some m
else None.

Definition broadcast_index (n i : nat) : nat := if n =? 1 then 0 else i.

Definition broadcast2 (f : Qc -> Qc -> Qc) (a b : Plane) : result Plane :=
let '(a0, a1) := shape2 a in
let '(b0, b1) := shape2 b in
match broadcast_dim a0 b0, broadcast_dim a1 b1 with
| Some d0, Some d1 =>
    Ok (map (fun i => map (fun j =>
              f (at2 0%Qc a (broadcast_index a0 i) (broadcast_index a1 j))
                (at2 0%Qc b (broadcast_index b0 i) (broadcast_index b1 j)))
            (seq 0 d1)) (seq 0 d0))
| _, _ => Raise ValueError
end.

Definition broadcast3 (f : Qc -> Qc -> Qc) (a b : Image) : result Image :=
let '(a0, a1, a2) := shape3 a in
let '(b0, b1, b2) := shape3 b in
match broadcast_dim a0 b0, broadcast_dim a1 b1, broadcast_dim a2 b2 with
| Some d0, Some d1, Some d2 =>
    Ok (map (fun i => map (fun j => map (fun k =>
              f (at3 a (broadcast_index a0 i) (broadcast_index a1 j)
                       (broadcast_index a2 k))
                (at3 b (broadcast_index b0 i) (broadcast_index b1 j)
                       (broadcast_index b2 k)))
            (seq 0 d2)) (seq 0 d1)) (seq 0 d0))
| _, _, _ => Raise ValueError
end.

(** A binary operation on arrays of either rank: the array of lower rank
    gets a leading axis of length 1, so (h, w) is read as (1, h, w). *)
Definition binary (f : Qc -> Qc -> Qc) (a b : ndarray) : result ndarray :=
match a, b with
| Arr2 p, Arr2 q => let* r := broadcast2 f p q in Ok (Arr2 r)
| Arr3 x, Arr3 y => let* r := broadcast3 f x y in Ok (Arr3 r)
| Arr3 x, Arr2 q => let* r := broadcast3 f x [q] in Ok (Arr3 r)
| Arr2 p, Arr3 y => let* r := broadcast3 f [p] y in Ok (Arr3 r)
end.

(** [a + b] and [a - b]. *)
Definition add (a b : ndarray) : result ndarray := binary Qcplus a b.
Definition sub (a b : ndarray) : result ndarray := binary Qcminus a b.

(** [a[:h, :w]]. *)
Definition crop {A : Type} (a : list (list A)) (h w : nat) : list (list A) :=
take h (map (take w) a).

Definition slice2 (a : ndarray) (h w : nat) : ndarray :=
match a with
| Arr2 p => Arr2 (crop p h w)
| Arr3 img => Arr3 (crop img h w)
end.

(** [a[::2, ::2]]. *)
Fixpoint every_second {A : Type} (l : list A) : list A :=
match l with
| [] => []
| [x] => [x]
| x :: _ :: rest => x :: every_second rest
end.

Definition decimate {A : Type} (a : list (list A)) : list (list A) :=
every_second (map every_second a).

(** [a.sum()] of a flat array. *)
Definition sum (l : list Qc) : Qc := foldr Qcplus 0%Qc l.

(** [np.outer(u, v)]. *)
Definition outer (u v : list Qc) : Plane :=
map (fun x => map (fun y => (x * y)%Qc) v) u.

(** [np.arange(lo, lo + n)]. *)
Definition arange (lo : Z) (n : nat) : list Z :=
map (fun i => (lo + Z.of_nat i)%Z) (seq 0 n).

(** [np.where(best == layer, x, 0)]. *)
Definition where_eq (best : list (list nat)) (layer : nat) (x : Plane) : Plane :=
zip_with (zip_with (fun b v => if Nat.eqb b layer then v else 0%Qc)) best x.

(** [np.argmax] of a flat array: a linear scan that replaces the running
    best only by a strictly larger value, so the first maximum wins. *)
Fixpoint argmax_from (best_i : nat) (best_v : Qc) (i : nat) (l : list Qc) : nat :=
match l with
| [] => best_i
| x :: rest =>
    if bool_decide (best_v < x)%Qc
    then argmax_from i x (S i) rest
    else argmax_from best_i best_v (S i) rest
end.

Definition first_max (l : list Qc) : nat :=
match l with
| [] => 0
| x :: rest => argmax_from 0 x 1 rest
end.

(** [np.argmax(maps, axis=0)] for [maps] of shape (n, h, w): at each pixel,
    the first layer holding the maximum.  An empty axis raises. *)
Definition argmax0 (h w : nat) (maps : list Plane) : result (list (list nat)) :=
match maps with
| [] => Raise ValueError
| _ :: _ =>
    Ok (map (fun r => map (fun c => first_max (map (fun m => at2 0%Qc m r c) maps))
                          (seq 0 w)) (seq 0 h))
end.

(** [np.unique(l, return_counts=True)]: the sorted distinct values, each
    with its number of occurrences. *)
Fixpoint insert_level (v : nat) (l : list (nat * nat)) : list (nat * nat) :=
match l with
| [] => [(v, 1)]
| (u, n) :: rest =>
    if v <? u then (v, 1) :: (u, n) :: rest
    else if v =? u then (u, S n) :: rest
    else (u, n) :: insert_level v rest
end.

Definition unique_counts (l : list nat) : list (nat * nat) :=
foldr insert_level [] l.

(** [np.asarray(images)] of a list of arrays: the arrays must agree in
    shape (NumPy raises [ValueError] on an inhomogeneous list). *)
Definition asarray (images : list Image) : result Stack :=
match images with
| [] => Ok []
| first :: rest =>
    if forallb (fun img => bool_decide (shape3 img = shape3 first)) rest
    then Ok images
    else Raise ValueError
end.

End Np.

(** ** OpenCV

    The image operations of [cv2] that the program calls, after the OpenCV
    documentation: border handling, 2-D correlation, and the two pyramid
    steps.  Single-channel operations act on planes; [pyrDown] and [pyrUp]
    treat the channels of an image independently.  OpenCV works on a [Mat]
    of rows, columns and channels; the Python binding turns an array into a
    [Mat] and the resulting [Mat] into an array, which has no channel axis
    when the [Mat] has one channel.  A [Mat] has at most 512 channels
    ([CV_CN_MAX]): the last axis of a 3-D array is its channel axis only
    up to that length, and the statements below about the pyramid steps
    keep to it. *)

Module Cv2.

(** [BORDER_REFLECT_101]: the index [p] mirrored into [0, len) without
    repeating the edge sample ([gfedcb|abcdefgh|gfedcba]). *)
Definition borderInterpolate (p : Z) (len : nat) : nat :=
if (len <=? 1)%nat then 0
else
  let m := (2 * (Z.of_nat len - 1))%Z in
  let q := (p mod m)%Z in
  Z.to_nat (if (q <? Z.of_nat len)%Z then q else (m - q)%Z).

(** The sample of [src] at the mirrored position of [(y, x)]. *)
Definition tap {A : Type} (d : A) (src : list (list A)) (y x : Z) : A :=
let '(h, w) := Np.shape2 src in
Np.at2 d src (borderInterpolate y h) (borderInterpolate x w).

(** [cv2.copyMakeBorder(src, pad, pad, pad, pad, cv2.BORDER_REFLECT101)]. *)
Definition copyMakeBorder {A : Type} (d : A) (src : list (list A)) (pad : nat)
  : list (list A) :=
let '(h, w) := Np.shape2 src in
map (fun i => map (fun j =>
       tap d src (Z.of_nat i - Z.of_nat pad) (Z.of_nat j - Z.of_nat pad))
     (seq 0 (w + 2 * pad))) (seq 0 (h + 2 * pad)).

(** [cv2.filter2D(src, -1, kernel, None, borderType=cv2.BORDER_REFLECT_101)]:
    correlation with the anchor at the kernel centre. *)
Definition filter2D (src kernel : Plane) : Plane :=
let '(h, w) := Np.shape2 src in
let '(kh, kw) := Np.shape2 kernel in
map (fun y => map (fun x =>
       Np.sum (flat_map (fun i => map (fun j =>
                 (Np.at2 0 kernel i j *
                  tap 0 src (Z.of_nat y + Z.of_nat i - Z.of_nat (kh / 2))
                            (Z.of_nat x + Z.of_nat j - Z.of_nat (kw / 2)))%Qc)
               (seq 0 kw)) (seq 0 kh)))
     (seq 0 w)) (seq 0 h).

(** The 1-D binomial filter of the pyramid steps, as (offset, weight);
    the 2-D kernel is its outer product divided by 256. *)
Definition pyr_taps : list (Z * Z) :=
[(-2, 1); (-1, 4); (0, 6); (1, 4); (2, 1)]%Z.

(** [cv2.pyrDown] on one channel: the 5x5 binomial blur evaluated at the
    even positions, output size ((h + 1) / 2, (w + 1) / 2). *)
Definition pyrDown2 (src : Plane) : Plane :=
let '(h, w) := Np.shape2 src in
map (fun y => map (fun x =>
       (Np.sum (flat_map (fun '(di, wi) => map (fun '(dj, wj) =>
                  (Qint (wi * wj) *
                   tap 0 src (2 * Z.of_nat y + di) (2 * Z.of_nat x + dj))%Qc)
                pyr_taps) pyr_taps) / Qint 256)%Qc)
     (seq 0 ((w + 1) / 2))) (seq 0 ((h + 1) / 2)).

(** Zero injection: the source at the even positions of a (2h, 2w) plane. *)
Definition inject_zeros (src : Plane) : Plane :=
let '(h, w) := Np.shape2 src in
map (fun y => map (fun x =>
       if Nat.even y && Nat.even x then Np.at2 0%Qc src (y / 2) (x / 2) else 0%Qc)
     (seq 0 (2 * w))) (seq 0 (2 * h)).

(** [cv2.pyrUp] on one channel: zero injection, then the same kernel
    multiplied by 4; output size (2h, 2w). *)
Definition pyrUp2 (src : Plane) : Plane :=
let up := inject_zeros src in
let '(h, w) := Np.shape2 up in
map (fun y => map (fun x =>
       (Np.sum (flat_map (fun '(di, wi) => map (fun '(dj, wj) =>
                  (Qint (wi * wj) *
                   tap 0 up (Z.of_nat y + di) (Z.of_nat x + dj))%Qc)
                pyr_taps) pyr_taps) / Qint 64)%Qc)
     (seq 0 w)) (seq 0 h).

(** Channels of an image as planes, and back. *)
Definition split (src : Image) : list Plane :=
let '(_, _, c) := Np.shape3 src in
map (Np.plane src) (seq 0 c).

Definition merge (h w : nat) (planes : list Plane) : Image :=
map (fun r => map (fun c => map (fun p => Np.at2 0%Qc p r c) planes)
                  (seq 0 w)) (seq 0 h).

(** [cv::pyrDown] and [cv::pyrUp] on a [Mat]: every channel on its own. *)
Definition pyrDown_mat (src : Image) : Image :=
let '(h, w, _) := Np.shape3 src in
merge ((h + 1) / 2) ((w + 1) / 2) (map pyrDown2 (split src)).

Definition pyrUp_mat (src : Image) : Image :=
let '(h, w, _) := Np.shape3 src in
merge (2 * h) (2 * w) (map pyrUp2 (split src)).

(** The binding: a 2-D array is a [Mat] of one channel, a 3-D array a [Mat]
    whose channels are its last axis; a [Mat] of one channel comes back as
    a 2-D array. *)
Definition to_mat (a : ndarray) : Image :=
match a with
| Arr2 p => map (map (fun x => [x])) p
| Arr3 img => img
end.

Definition from_mat (m : Image) : ndarray :=
let '(_, _, c) := Np.shape3 m in
if c =? 1 then Arr2 (Np.plane m 0) else Arr3 m.

(** [cv2.pyrDown(src)] and [cv2.pyrUp(src)] as Python calls them. *)
Definition pyrDown (src : ndarray) : ndarray := from_mat (pyrDown_mat (to_mat src)).
Definition pyrUp (src : ndarray) : ndarray := from_mat (pyrUp_mat (to_mat src)).

(** [cv2.cvtColor(src, cv2.COLOR_BGR2GRAY)] takes an image of 3 or 4
    channels and raises [cv2.error] on any other.  The gray image only
    enters the focus measure, which is not computed here: what is modelled
    is whether the call raises. *)
Definition cvtColor_BGR2GRAY (src : Image) : result unit :=
let '(_, _, c) := Np.shape3 src in
if (c =? 3) || (c =? 4) then Ok tt else Raise Cv2Error.

End Cv2.

(** ** [fs_pyramid.py] *)

(** [generating_kernel(a)]. *)
Definition generating_kernel (a : Qc) : Plane :=
let kernel :=
  [qfrac 1 4 - a / Qint 2; qfrac 1 4; a; qfrac 1 4; qfrac 1 4 - a / Qint 2]%Qc in
Np.outer kernel kernel.

(** [convolve(image, kernel=generating_kernel(0.4))]. *)
Definition convolve (image kernel : Plane) : Plane :=
Cv2.filter2D image kernel.

Definition default_kernel : Plane := generating_kernel (qfrac 2 5).

(** [gaussian_pyramid(images, levels)]: the first level is the stack cast
    to [float32]; the loop appends to [pyramid] the [pyrDown] of every
    layer of its last level; [range(levels)] is empty for a negative
    [levels]. *)
Fixpoint gaussian_loop (n : nat) (pyramid : list Level) : list Level :=
match n with
| 0 => pyramid
| S n' => gaussian_loop n' (pyramid ++ [map Cv2.pyrDown (List.last pyramid [])])
end.

Definition gaussian_pyramid (images : Stack) (levels : Z) : list Level :=
gaussian_loop (Z.to_nat levels) [map Arr3 (Np.astype4 float32 images)].

(** The size correction shared by [laplacian_pyramid] and [collapse]:
    [if expanded.shape != layer.shape:
         expanded = expanded[:layer.shape[0], :layer.shape[1]]]. *)
Definition fit_to (expanded layer : ndarray) : ndarray :=
if bool_decide (Np.shape expanded = Np.shape layer) then expanded
else
  match Np.shape layer with
  | h :: w :: _ => Np.slice2 expanded h w
  | _ => expanded
  end.

(** One iteration of the outer loop of [laplacian_pyramid]: for every
    layer, [level_array.append(gauss_layer - expanded)]; the subtraction
    raises when the shapes cannot be broadcast. *)
Definition laplacian_level (gauss coarser : Level) : result Level :=
for_each (zip gauss coarser) []
  (fun '(gauss_layer, coarse_layer) level_array =>
     let expanded := fit_to (Cv2.pyrUp coarse_layer) gauss_layer in
     let* detail := Np.sub gauss_layer expanded in
     Ok (level_array ++ [detail])).

(** [laplacian_pyramid(images, levels)]: [level] runs from
    [len(gaussian) - 1] down to 1 and the result is reversed. *)
Definition laplacian_pyramid (images : Stack) (levels : Z) : result (list Level) :=
let gaussian := gaussian_pyramid images levels in
let* pyramid :=
  for_each (rev (seq 1 (length gaussian - 1))) [List.last gaussian []]
    (fun level pyramid =>
       let* level_array :=
         laplacian_level (default [] (gaussian !! (level - 1)))
                         (default [] (gaussian !! level)) in
       Ok (pyramid ++ [level_array])) in
Ok (rev pyramid).

(** [collapse(pyramid)]: [pyramid[-1]] raises on an empty list;
    [pyramid[-2::-1]] walks the remaining levels from coarse to fine, and
    [expanded + layer] raises when the shapes cannot be broadcast. *)
Definition collapse (pyramid : list ndarray) : result ndarray :=
match pyramid with
| [] => Raise IndexError
| _ :: _ =>
    for_each (rev (removelast pyramid)) (List.last pyramid (Arr2 []))
      (fun layer image => Np.add (fit_to (Cv2.pyrUp image) layer) layer)
end.

(** [get_probabilities(gray_image)]: [probabilities[levels] = counts / total]
    written into a table of 256 zeros. *)
Definition get_probabilities (gray_image : GrayImage) : list Qc :=
let levels_counts := Np.unique_counts (concat gray_image) in
let total := sum_list (map snd levels_counts) in
foldl (fun probabilities '(level, count) =>
         <[level := (Qnat count / Qnat total)%Qc]> probabilities)
      (replicate 256 0%Qc) levels_counts.

(** The accumulation loop of [get_fused_base_channel]:
    [for layer in range(n): fused += np.where(best_e == layer, x, 0);
                            fused += np.where(best_d == layer, x, 0)]
    with [x = images[layer][:, :, channel]]. *)
Definition base_select_loop (best_e best_d : list (list nat)) (images : Stack)
    (channel n : nat) (fused : Plane) : Plane :=
foldl (fun fused layer =>
         let values := Np.plane (default [] (images !! layer)) channel in
         Np.add2 (Np.add2 fused (Np.where_eq best_e layer values))
                 (Np.where_eq best_d layer values))
      fused (seq 0 n).

(** The accumulation loop of [get_fused_laplacian_channel]:
    [for layer in range(layers): fused += np.where(best_re == layer, x, 0)]. *)
Definition detail_select_loop (best_re : list (list nat)) (laplacians : Stack)
    (channel layers : nat) (fused : Plane) : Plane :=
foldl (fun fused layer =>
         Np.add2 fused
           (Np.where_eq best_re layer
              (Np.plane (default [] (laplacians !! layer)) channel)))
      fused (seq 0 layers).

Section Statistics.

(** [np.log] on floats. *)
Variable ln : Qc -> Qc.

(** [_area_entropy(area, probabilities)]. *)
Definition _area_entropy (area : GrayImage) (probabilities : list Qc) : Qc :=
let levels := concat area in
(- (1) * Np.sum (map (fun level =>
                     Qnat level * ln (default 0 (probabilities !! level)))
                   levels))%Qc.

(** [_area_deviation(area)]. *)
Definition _area_deviation (area : GrayImage) : Qc :=
let samples := map Qnat (concat area) in
let average := (Np.sum samples / Qnat (length samples))%Qc in
(Np.sum (map (fun x => (x - average) * (x - average)) samples)
 / Qnat (length samples))%Qc.

(** The window [padded_image[row + pad + offset[:, None], column + pad + offset]]. *)
Definition window (padded_image : GrayImage) (pad_amount : nat) (row column : nat)
  : GrayImage :=
let offset := Np.arange (- Z.of_nat pad_amount) (2 * pad_amount + 1) in
map (fun oi => map (fun oj =>
       Np.at2 0 padded_image
         (Z.to_nat (Z.of_nat row + Z.of_nat pad_amount + oi))
         (Z.to_nat (Z.of_nat column + Z.of_nat pad_amount + oj)))
     offset) offset.

(** [entropy_deviation(image, kernel_size)]. *)
Definition entropy_deviation (image : GrayImage) (kernel_size : nat)
  : Plane * Plane :=
let probabilities := get_probabilities image in
let pad_amount := (kernel_size - 1) / 2 in
let padded_image := Cv2.copyMakeBorder 0 image pad_amount in
let '(h, w) := Np.shape2 image in
(map (fun row => map (fun column =>
        _area_entropy (window padded_image pad_amount row column) probabilities)
      (seq 0 w)) (seq 0 h),
 map (fun row => map (fun column =>
        _area_deviation (window padded_image pad_amount row column))
      (seq 0 w)) (seq 0 h)).

(** [images[layer][:, :, channel].astype(np.uint8)]. *)
Definition gray_channel (image : list (list (list Qc))) (channel : nat) : GrayImage :=
map (map to_uint8) (Np.plane image channel).

(** [get_fused_base_channel(images, kernel_size, channel)], for [images] of
    element type [dt].  The channel index is checked by the first slice of
    the statistics loop; [np.argmax] raises on an empty stack; the result
    is [(fused / 2).astype(images.dtype)]. *)
Definition get_fused_base_channel (dt : dtype) (images : Stack)
    (kernel_size channel : nat) : result Plane :=
let '(n, h, w, c) := Np.shape4 images in
if bool_decide (0 < n /\ c <= channel) then Raise IndexError
else
  let stats := map (fun image =>
                      entropy_deviation (gray_channel image channel) kernel_size)
                   images in
  let entropies := map fst stats in
  let deviations := map snd stats in
  let* best_e := Np.argmax0 h w entropies in
  let* best_d := Np.argmax0 h w deviations in
  let fused := base_select_loop best_e best_d images channel n (Np.zeros2 h w) in
  Ok (map (map (fun v => Np.astype dt (v / Qint 2)%Qc)) fused).

(** [get_fused_base(images, kernel_size)]. *)
Definition get_fused_base (dt : dtype) (images : Stack) (kernel_size : nat)
  : result Image :=
let '(_, h, w, c) := Np.shape4 images in
for_each (seq 0 c) (Np.zeros3 h w c)
  (fun channel fused =>
     let* p := get_fused_base_channel dt images kernel_size channel in
     Ok (Np.set_plane fused channel p)).

End Statistics.

(** [region_energy(laplacian)]. *)
Definition region_energy (laplacian : Plane) : Plane :=
convolve (Np.square laplacian) default_kernel.

(** [get_fused_laplacian_channel(laplacians, channel)], for the [float32]
    levels of a Laplacian pyramid, on which the program calls it. *)
Definition get_fused_laplacian_channel (laplacians : Stack) (channel : nat)
  : result Plane :=
let '(layers, h, w, c) := Np.shape4 laplacians in
if bool_decide (0 < layers /\ c <= channel) then Raise IndexError
else
  let region_energies :=
    map (fun lap => region_energy (Np.plane lap channel)) laplacians in
  let* best_re := Np.argmax0 h w region_energies in
  Ok (detail_select_loop best_re laplacians channel layers (Np.zeros2 h w)).

(** [get_fused_laplacian(laplacians)]. *)
Definition get_fused_laplacian (laplacians : Stack) : result Image :=
let '(_, h, w, c) := Np.shape4 laplacians in
for_each (seq 0 c) (Np.zeros3 h w c)
  (fun channel fused =>
     let* p := get_fused_laplacian_channel laplacians channel in
     Ok (Np.set_plane fused channel p)).

(** [int(np.log2(smallest_side / min_size))] for Python integers: a zero
    divisor raises, [log2(0) = -inf] overflows [int], the logarithm of a
    negative quotient is [nan], and [int] truncates toward zero. *)
Definition int_log2_ratio (smallest_side min_size : Z) : result Z :=
if (min_size =? 0)%Z then Raise ZeroDivisionError
else if (smallest_side =? 0)%Z then Raise OverflowError
else if (min_size <? 0)%Z then Raise ValueError
else if (min_size <=? smallest_side)%Z then Ok (Z.log2 (smallest_side / min_size))
else Ok (- Z.log2 (min_size / smallest_side))%Z.

(** [get_fused_base] and [get_fused_laplacian] applied to a pyramid level.
    A level of 3-D layers is the 4-D stack that the definitions above
    take.  A level whose layers have no channel axis is a 3-D array
    (n, h, w): the loop over [range(shape[-1])] runs over its columns, and
    the first slice [level[0][:, :, channel]] has one index too many. *)
Definition fuse_level (fuse : Stack -> result Image) (level : Level)
  : result ndarray :=
match level with
| Arr2 p :: _ =>
    let '(h, w) := Np.shape2 p in
    if w =? 0 then Ok (Arr2 (Np.zeros2 h 0)) else Raise IndexError
| _ => let* fused := fuse (map Cv2.to_mat level) in Ok (Arr3 fused)
end.

Section Fusion.

Variable ln : Qc -> Qc.

(** [fuse_pyramids(pyramids, kernel_size)], for levels of element type
    [dt]. *)
Definition fuse_pyramids (dt : dtype) (pyramids : list Level) (kernel_size : nat)
  : result (list ndarray) :=
match pyramids with
| [] => Raise IndexError
| _ :: _ =>
    let* base :=
      fuse_level (fun images => get_fused_base ln dt images kernel_size)
                 (List.last pyramids []) in
    let* fused :=
      for_each (rev (seq 0 (length pyramids - 1))) [base]
        (fun layer fused =>
           let* detail :=
             fuse_level get_fused_laplacian (default [] (pyramids !! layer)) in
           Ok (fused ++ [detail])) in
    Ok (rev fused)
end.

(** The first two lines of [get_pyramid_fusion]:
    [smallest_side = min(images[0].shape[:2])] and the depth. *)
Definition fusion_depth (images : Stack) (min_size : Z) : result Z :=
match images !! 0 with
| None => Raise IndexError
| Some first =>
    let '(h, w, _) := Np.shape3 first in
    int_log2_ratio (Z.of_nat (Nat.min h w)) min_size
end.

(** [get_pyramid_fusion(images, min_size=32)]; the levels of the pyramid
    are [float32] arrays. *)
Definition get_pyramid_fusion (images : Stack) (min_size : Z) : result ndarray :=
let* depth := fusion_depth images min_size in
let kernel_size := 5 in
let* pyramids := laplacian_pyramid images depth in
let* fusion := fuse_pyramids float32 pyramids kernel_size in
collapse fusion.

(** [stack_images(images)] of [stacker.py]. *)
Definition stack_images (images : list Image) : result ndarray :=
let* stack := Np.asarray images in
get_pyramid_fusion stack 32.

End Fusion.

(** ** Specification-side definitions *)

(** [floor_log2 x d]: [d] is the floor of the base-2 logarithm of [x]. *)
Definition floor_log2 (x : Q) (d : Z) : Prop :=
(2 ^ d <= x)%Q /\ (x < 2 ^ (d + 1))%Q.

(** [first_argmax l i]: [i] is the first index at which [l] attains its
    maximum. *)
Definition first_argmax (l : list Qc) (i : nat) : Prop :=
exists x, l !! i = Some x
  /\ (forall j y, l !! j = Some y -> (y <= x)%Qc)
  /\ (forall j y, j < i -> l !! j = Some y -> (y < x)%Qc).

(** Naive selection by index:
    [out[r, c] = images[best[r, c]][r, c, channel]]. *)
Definition select_by_index (best : list (list nat)) (images : Stack)
    (channel : nat) : Plane :=
imap (fun r row =>
        imap (fun c b =>
                default 0%Qc (Np.get3 (default [] (images !! b)) r c channel))
             row) best.

(** The samples of the (2 pad + 1)-square neighbourhood of a pixel, read
    from the image itself through mirror reflection of the indices. *)
Definition mirrored_window (image : GrayImage) (pad row column : nat) : list nat :=
let '(h, w) := Np.shape2 image in
let offset := Np.arange (- Z.of_nat pad) (2 * pad + 1) in
flat_map (fun oi => map (fun oj =>
            Np.at2 0 image (Cv2.borderInterpolate (Z.of_nat row + oi) h)
                           (Cv2.borderInterpolate (Z.of_nat column + oj) w))
          offset) offset.

(** The normalised histogram of an image at gray level [v]. *)
Definition histogram_probability (image : GrayImage) (v : nat) : Qc :=
(Qnat (count_occ Nat.eq_dec (concat image) v) / Qnat (length (concat image)))%Qc.

(** Small inputs for the worked instances. *)
Definition demo_a : Image :=
[[[Qint 1]; [Qint 2]]; [[Qint 3]; [Qint 4]]].

Definition demo_b : Image :=
[[[Qint 5]; [Qint 6]]; [[Qint 7]; [Qint 8]]].

Definition demo_gray : GrayImage := [[1; 2; 3]; [3; 3; 0]].


(** ** Definitions used by the proofs *)

(** The levels of a Gaussian pyramid below [level]: [n] successive
    [pyrDown] steps of every layer. *)
Fixpoint down_levels (n : nat) (level : Level) : list Level :=
match n with
| 0 => []
| S n' => let next := map Cv2.pyrDown level in next :: down_levels n' next
end.

(** The regular case, in which every array is 3-D and the two operands of
    an addition or subtraction have one shape: elementwise arithmetic, the
    size correction, and the pyramids on stacks of 3-D images.  The lemmas
    below relate the program to these on images of at least two
    channels. *)
Definition add_same3 (a b : Image) : Image := zip_with (zip_with (zip_with Qcplus)) a b.
Definition sub_same3 (a b : Image) : Image := zip_with (zip_with (zip_with Qcminus)) a b.

Definition fit_to3 (expanded layer : Image) : Image :=
if bool_decide (Np.shape3 expanded = Np.shape3 layer) then expanded
else
  let '(h, w, _) := Np.shape3 layer in
  Np.crop expanded h w.

Definition detail_stack (gauss coarser : Stack) : Stack :=
zip_with (fun gauss_layer coarse_layer =>
            sub_same3 gauss_layer (fit_to3 (Cv2.pyrUp_mat coarse_layer) gauss_layer))
         gauss coarser.

Fixpoint down_stacks (n : nat) (images : Stack) : list Stack :=
match n with
| 0 => []
| S n' => let next := map Cv2.pyrDown_mat images in next :: down_stacks n' next
end.

(** The Laplacian levels of a Gaussian pyramid, fine to coarse. *)
Fixpoint detail_levels (gaussian : list Stack) : list Stack :=
match gaussian with
| [] => []
| [coarsest] => [coarsest]
| gauss :: (coarser :: _) as rest => detail_stack gauss coarser :: detail_levels rest
end.

(** [collapse] as a recursion from the coarse end. *)
Fixpoint collapse_levels (pyramid : list Image) : Image :=
match pyramid with
| [] => []
| [base] => base
| layer :: rest =>
    add_same3 (fit_to3 (Cv2.pyrUp_mat (collapse_levels rest)) layer) layer
end.

(** The number of occurrences recorded for [v] in a table of
    (level, count) pairs, and the order of its levels. *)
Definition total_for (v : nat) (l : list (nat * nat)) : nat :=
sum_list (map snd (filter (fun p => p.1 = v) l)).

Fixpoint sorted_keys (l : list (nat * nat)) : Prop :=
match l with
| [] => True
| (u, _) :: rest => Forall (fun p => u < p.1) rest /\ sorted_keys rest
end.

(** A 5x5 single-channel image that is zero but for 256 at the centre. *)
Definition impulse : Image :=
map (fun r => map (fun c => [if (r =? 2) && (c =? 2) then Qint 256 else 0%Qc])
                  (seq 0 5)) (seq 0 5).

(** The (height, width) of the levels of a pyramid of depth [n] over an
    (h, w) image, fine to coarse. *)
Fixpoint level_dims (n : nat) (h w : nat) : list (nat * nat) :=
match n with
| 0 => [(h, w)]
| S n' => (h, w) :: level_dims n' ((h + 1) / 2) ((w + 1) / 2)
end.

(** A pyramid level of the given size: a non-empty stack of images of one
    shape with [c] channels. *)
Definition level_ok (c : nat) (d : nat * nat) (level : Stack) : Prop :=
level <> [] /\ Forall (rect3 d.1 d.2 c) level /\ 0 < d.1 /\ 0 < d.2.

(** A 1x2 single-channel image, narrower than the demo images. *)
Definition demo_narrow : Image := [[[Qint 1]; [Qint 2]]].

(** ** [stacker.py]: the pre-filter *)

Module Py.

(** [max(l)] of a list of floats; an empty list raises [ValueError]. *)
Definition max (l : list Qc) : result Qc :=
match l with
| [] => Raise ValueError
| x :: rest => Ok (foldl (fun m y => if bool_decide (m < y)%Qc then y else m) x rest)
end.

End Py.

Section StackFilter.

Context {A : Type}.

(** [compute_fv(image)]: the focus measure of an image, the squared
    standard deviation of its blurred Laplacian divided by 25. *)
Variable compute_fv : A -> Qc.

(** [[image for image, fv in zip(images, focus) if fv >= bound]]. *)
Definition keep_sharp (images : list A) (focus : list Qc) (bound : Qc) : list A :=
map fst (filter (fun p => (bound <= p.2)%Qc) (zip images focus)).

(** [stack_filter(images, threshold)]; [max(focus)] raises on an empty
    list, and the printed messages are left out. *)
Definition stack_filter (images : list A) (threshold : Qc) : result (list A) :=
let focus := map compute_fv images in
let* max_focus := Py.max focus in
let imageset := keep_sharp images focus threshold in
if length imageset <? 5
then Ok (keep_sharp images focus (max_focus * qfrac 33 50)%Qc)
else Ok imageset.

End StackFilter.

(** The computation of [stack_dir] between reading and writing the files:
    [stack_images(stack_filter(images, 1.0))] on decoded images.
    [stack_filter] first evaluates [compute_fv] on every image, whose
    [cv2.cvtColor] raises on the first image that does not have 3 or 4
    channels; when none raises, the focus measures are the values of
    [focus], which stands for the rest of [compute_fv]. *)
Definition stack_dir_images (focus : Image -> Qc) (ln : Qc -> Qc)
    (images : list Image) : result ndarray :=
let* _ := for_each images tt (fun image _ => Cv2.cvtColor_BGR2GRAY image) in
let* kept := stack_filter focus images 1%Qc in
stack_images ln kept.

(** ** Further specification-side definitions *)

(** The population variance of a list of samples. *)
Definition population_variance (samples : list Qc) : Qc :=
let n := Qnat (length samples) in
let mean := (Np.sum samples / n)%Qc in
(Np.sum (map (fun x => (x - mean) * (x - mean)) samples) / n)%Qc.

(** A stack whose layers are all the image [img]. *)
Definition copies_of (img : Image) (images : Stack) : Prop :=
images <> [] /\ Forall (fun layer => layer = img) images.

(** [has_shape s a]: the array [a] is regular of shape [s]. *)
Definition has_shape (s : list nat) (a : ndarray) : Prop :=
match a, s with
| Arr2 p, [h; w] => rect2 h w p
| Arr3 img, [h; w; c] => rect3 h w c img
| _, _ => False
end.

(** The shape of the layers of level [j] of a Gaussian pyramid over images
    of [c] channels, for a level of size [d]: below the first level a
    single-channel pyramid has 2-D layers. *)
Definition layer_shape (c j : nat) (d : nat * nat) : list nat :=
if (c =? 1) && (0 <? j) then [d.1; d.2] else [d.1; d.2; c].








(** Two 2x2 images of three channels. *)
Definition demo_bgr_a : Image :=
[[[Qint 1; Qint 2; Qint 3]; [Qint 4; Qint 5; Qint 6]];
 [[Qint 7; Qint 8; Qint 9]; [Qint 10; Qint 11; Qint 12]]].

Definition demo_bgr_b : Image :=
[[[Qint 12; Qint 11; Qint 10]; [Qint 9; Qint 8; Qint 7]];
 [[Qint 6; Qint 5; Qint 4]; [Qint 3; Qint 2; Qint 1]]].

(** Two 1x1 images of three channels. *)
Definition demo_px_a : Image := [[[Qint 1; Qint 2; Qint 3]]].
Definition demo_px_b : Image := [[[Qint 3; Qint 2; Qint 1]]].

(** * Proofs *)

(** ** Arrays: lookups and shapes *)

Lemma get2_Some {A} (a : list (list A)) r c x :
  Np.get2 a r c = Some x <-> exists row, a !! r = Some row /\ row !! c = Some x.
Proof.
  unfold Np.get2. destruct (a !! r) as [row|].
  - split; [by exists row|]. by intros (row' & [= <-] & Hx).
  - split; [done|]. by intros (row' & [=] & _).
Qed.

Lemma get2_tabulate {A} (f : nat -> nat -> A) h w r c :
  r < h -> c < w ->
  Np.get2 (map (fun r => map (fun c => f r c) (seq 0 w)) (seq 0 h)) r c
  = Some (f r c).
Proof.
  intros Hr Hc. unfold Np.get2.
  rewrite list_lookup_fmap, lookup_seq_lt by done. simpl.
  by rewrite list_lookup_fmap, lookup_seq_lt.
Qed.

Lemma rect2_tabulate {A} (f : nat -> nat -> A) h w :
  rect2 h w (map (fun r => map (fun c => f r c) (seq 0 w)) (seq 0 h)).
Proof.
  split.
  - by rewrite length_map, length_seq.
  - apply Forall_map, Forall_forall. intros r _. simpl.
    by rewrite length_map, length_seq.
Qed.

Lemma rect2_lookup {A} h w (a : list (list A)) r row :
  rect2 h w a -> a !! r = Some row -> length row = w.
Proof.
  intros [_ Hrows] Hr. by eapply (Forall_lookup_1 _ _ _ _ Hrows Hr).
Qed.

Lemma rect2_get2 {A} h w (a : list (list A)) r c :
  rect2 h w a -> r < h -> c < w -> is_Some (Np.get2 a r c).
Proof.
  intros Ha Hr Hc. destruct Ha as [Hlen Hrows].
  destruct (lookup_lt_is_Some_2 a r) as [row Hrow]; [lia|].
  pose proof (Forall_lookup_1 _ _ _ _ Hrows Hrow) as Hw. simpl in Hw.
  destruct (lookup_lt_is_Some_2 row c) as [x Hx]; [lia|].
  exists x. apply get2_Some. eauto.
Qed.

Lemma get2_lt {A} h w (a : list (list A)) r c x :
  rect2 h w a -> Np.get2 a r c = Some x -> r < h /\ c < w.
Proof.
  intros [Hlen Hrows] (row & Hrow & Hx)%get2_Some.
  pose proof (Forall_lookup_1 _ _ _ _ Hrows Hrow) as Hw. simpl in Hw.
  apply lookup_lt_Some in Hrow, Hx. lia.
Qed.

Lemma rect2_ext {A} h w (a b : list (list A)) :
  rect2 h w a -> rect2 h w b ->
  (forall r c, r < h -> c < w -> Np.get2 a r c = Np.get2 b r c) -> a = b.
Proof.
  intros Ha Hb Heq. apply list_eq. intros r.
  destruct (decide (r < h)) as [Hr|Hr].
  - destruct (lookup_lt_is_Some_2 a r) as [ra Hra]; [destruct Ha; lia|].
    destruct (lookup_lt_is_Some_2 b r) as [rb Hrb]; [destruct Hb; lia|].
    rewrite Hra, Hrb. f_equal. apply list_eq. intros c.
    destruct (decide (c < w)) as [Hc|Hc].
    + specialize (Heq r c Hr Hc). unfold Np.get2 in Heq.
      by rewrite Hra, Hrb in Heq.
    + rewrite !lookup_ge_None_2; [done| |].
      * rewrite (rect2_lookup h w b r rb) by done. lia.
      * rewrite (rect2_lookup h w a r ra) by done. lia.
  - destruct Ha as [Ha _], Hb as [Hb _].
    rewrite !lookup_ge_None_2; [done|lia|lia].
Qed.

Lemma get2_zip_with {A B C} (f : A -> B -> C) a b r c x y :
  Np.get2 a r c = Some x -> Np.get2 b r c = Some y ->
  Np.get2 (zip_with (zip_with f) a b) r c = Some (f x y).
Proof.
  intros (ra & Hra & Hx)%get2_Some (rb & Hrb & Hy)%get2_Some.
  apply get2_Some. exists (zip_with f ra rb). split.
  - rewrite lookup_zip_with, Hra. simpl. by rewrite Hrb.
  - rewrite lookup_zip_with, Hx. simpl. by rewrite Hy.
Qed.

Lemma rect2_zip_with {A B C} (f : A -> B -> C) h w a b :
  rect2 h w a -> rect2 h w b -> rect2 h w (zip_with (zip_with f) a b).
Proof.
  intros [Hla Hra] [Hlb Hrb]. split.
  - rewrite length_zip_with. lia.
  - apply Forall_lookup. intros r row Hrow.
    apply lookup_zip_with_Some in Hrow as (ra & rb & -> & Ha & Hb).
    rewrite length_zip_with.
    pose proof (Forall_lookup_1 _ _ _ _ Hra Ha).
    pose proof (Forall_lookup_1 _ _ _ _ Hrb Hb). simpl in *. lia.
Qed.

Lemma get2_map {A B} (f : A -> B) a r c :
  Np.get2 (map (map f) a) r c = f <$> Np.get2 a r c.
Proof.
  unfold Np.get2. rewrite list_lookup_fmap.
  destruct (a !! r) as [row|]; simpl; [|done]. by rewrite list_lookup_fmap.
Qed.

Lemma rect2_map {A B} (f : A -> B) h w a :
  rect2 h w a -> rect2 h w (map (map f) a).
Proof.
  intros [Hl Hr]. split; [by rewrite length_map|].
  apply Forall_map. eapply Forall_impl; [|exact Hr]. intros row Hrow. simpl.
  by rewrite length_map.
Qed.

Lemma rect2_zeros2 h w : rect2 h w (Np.zeros2 h w).
Proof.
  split; [apply length_replicate|].
  apply Forall_replicate. apply length_replicate.
Qed.

Lemma get2_zeros2 h w r c :
  r < h -> c < w -> Np.get2 (Np.zeros2 h w) r c = Some 0%Qc.
Proof.
  intros Hr Hc. apply get2_Some. exists (replicate w 0%Qc).
  split; by apply lookup_replicate_2.
Qed.

Lemma rect3_rect2 {A} h w c (a : list (list (list A))) :
  rect3 h w c a -> rect2 h w a.
Proof.
  intros [Hl Hr]. split; [done|].
  eapply Forall_impl; [|exact Hr]. by intros row [? _].
Qed.

Lemma rect3_get3 {A} h w c (a : list (list (list A))) r x k :
  rect3 h w c a -> r < h -> x < w -> k < c -> is_Some (Np.get3 a r x k).
Proof.
  intros Ha Hr Hx Hk.
  destruct (rect2_get2 h w a r x (rect3_rect2 _ _ _ _ Ha) Hr Hx) as [px Hpx].
  unfold Np.get3. rewrite Hpx.
  apply get2_Some in Hpx as (row & Hrow & Hpx).
  destruct Ha as [_ Hrows].
  pose proof (Forall_lookup_1 _ _ _ _ Hrows Hrow) as [_ Hpxs].
  pose proof (Forall_lookup_1 _ _ _ _ Hpxs Hpx) as Hc. simpl in Hc.
  apply lookup_lt_is_Some_2. lia.
Qed.

Lemma rect2_plane h w c (a : Image) k : rect3 h w c a -> rect2 h w (Np.plane a k).
Proof.
  intros Ha. apply rect2_map. by eapply rect3_rect2.
Qed.

Lemma get2_plane (a : Image) k r c :
  Np.get2 (Np.plane a k) r c
  = (fun px => default 0%Qc (px !! k)) <$> Np.get2 a r c.
Proof. apply get2_map. Qed.

Lemma get2_plane_get3 h w c (a : Image) k r x :
  rect3 h w c a -> r < h -> x < w -> k < c ->
  Np.get2 (Np.plane a k) r x = Np.get3 a r x k.
Proof.
  intros Ha Hr Hx Hk. rewrite get2_plane.
  destruct (rect3_get3 h w c a r x k Ha Hr Hx Hk) as [v Hv].
  unfold Np.get3 in *. destruct (Np.get2 a r x) as [px|]; [|done].
  simpl. by rewrite Hv.
Qed.

Lemma rect3_shape3 {A} h w c (a : list (list (list A))) :
  rect3 h w c a -> 0 < h -> 0 < w -> Np.shape3 a = (h, w, c).
Proof.
  intros [Hlen Hrows] Hh Hw. unfold Np.shape3.
  destruct a as [|row a]; simpl in *; [lia|].
  apply Forall_cons_1 in Hrows as [[Hrow Hpx] _].
  destruct row as [|px row]; simpl in *; [lia|].
  apply Forall_cons_1 in Hpx as [Hpx _]. by rewrite Hlen, Hrow, Hpx.
Qed.

Lemma rect2_shape2 {A} h w (a : list (list A)) :
  rect2 h w a -> 0 < h -> Np.shape2 a = (h, w).
Proof.
  intros [Hlen Hrows] Hh. unfold Np.shape2.
  destruct a as [|row a]; simpl in *; [lia|].
  apply Forall_cons_1 in Hrows as [Hrow _]. by rewrite Hlen, Hrow.
Qed.

Lemma stack_shape4 h w c (images : Stack) :
  Forall (rect3 h w c) images -> images <> [] -> 0 < h -> 0 < w ->
  Np.shape4 images = (length images, h, w, c).
Proof.
  intros Himgs Hne Hh Hw. destruct images as [|first rest]; [done|].
  apply Forall_cons_1 in Himgs as [Hfirst _].
  pose proof (rect3_shape3 h w c first Hfirst Hh Hw) as Hs.
  unfold Np.shape3 in Hs. unfold Np.shape4. simpl. congruence.
Qed.

(** ** The depth of the pyramid *)

Lemma Qpower2_inject (d : Z) : (0 <= d)%Z -> (2 ^ d == inject_Z (2 ^ d))%Q.
Proof.
  intros Hd. symmetry. apply (Zpower_Qpower 2 d Hd).
Qed.

Lemma floor_log2_of_quotient (s m : Z) :
  (0 < m)%Z -> (m <= s)%Z ->
  floor_log2 (inject_Z s / inject_Z m) (Z.log2 (s / m)).
Proof.
  intros Hm Hs.
  assert (Hn : (0 < s / m)%Z) by (apply Z.div_str_pos; lia).
  destruct (Z.log2_spec _ Hn) as [Hlo Hhi].
  pose proof (Z.log2_nonneg (s / m)) as Hd.
  pose proof (Z.mul_div_le s m Hm) as Hdiv1.
  pose proof (Z.mul_succ_div_gt s m Hm) as Hdiv2.
  assert (HmQ : (0 < inject_Z m)%Q) by (change 0%Q with (inject_Z 0); rewrite <- Zlt_Qlt; lia).
  split.
  - apply Qle_shift_div_l; [done|].
    rewrite Qpower2_inject by done. rewrite <- inject_Z_mult, <- Zle_Qle. nia.
  - apply Qlt_shift_div_r; [done|].
    rewrite Qpower2_inject by lia. rewrite <- inject_Z_mult, <- Zlt_Qlt.
    replace (Z.log2 (s / m) + 1)%Z with (Z.succ (Z.log2 (s / m))) by lia. nia.
Qed.

(** C6 (amended).  For a first image whose smaller side is at least
    [min_size], the depth of [get_pyramid_fusion] is the floor of
    [log2(min(height, width) / min_size)]: 4 for a 512x512 image and 0 for
    a 40x40 image with [min_size = 32].  For a smaller image [int]
    truncates toward zero: the depth is the non-positive number
    [- floor(log2(min_size / min(height, width)))]. *)
Theorem fusion_depth_floor_log2 (images : Stack) (first : Image)
    (h w c : nat) (min_size : Z) :
  images !! 0 = Some first -> rect3 h w c first -> 0 < h -> 0 < w ->
  (0 < min_size)%Z ->
  let side := Z.of_nat (Nat.min h w) in
  (min_size <= side -> exists d,
      fusion_depth images min_size = Ok d /\ 0 <= d /\
      floor_log2 (inject_Z side / inject_Z min_size) d)%Z
  /\ (side < min_size -> exists d,
      fusion_depth images min_size = Ok d /\ d <= 0 /\
      floor_log2 (inject_Z min_size / inject_Z side) (- d))%Z
  /\ (h = 512 -> w = 512 -> min_size = 32%Z -> fusion_depth images min_size = Ok 4%Z)
  /\ (h = 40 -> w = 40 -> min_size = 32%Z -> fusion_depth images min_size = Ok 0%Z).
Proof.
  intros Hfirst Hrect Hh Hw Hm side.
  assert (Hdepth : fusion_depth images min_size = int_log2_ratio side min_size).
  { unfold fusion_depth. rewrite Hfirst, (rect3_shape3 h w c) by done. done. }
  assert (Hside : (0 < side)%Z) by (unfold side; lia).
  rewrite Hdepth. unfold int_log2_ratio.
  destruct (Z.eqb_spec min_size 0) as [|_]; [lia|].
  destruct (Z.eqb_spec side 0) as [|_]; [lia|].
  destruct (Z.ltb_spec min_size 0) as [|_]; [lia|].
  repeat split.
  - intros Hle. destruct (Z.leb_spec min_size side) as [_|]; [|lia].
    eexists; split; [done|]. split; [apply Z.log2_nonneg|].
    by apply floor_log2_of_quotient.
  - intros Hlt. destruct (Z.leb_spec min_size side) as [|_]; [lia|].
    eexists; split; [done|].
    split; [pose proof (Z.log2_nonneg (min_size / side)); lia|].
    rewrite Z.opp_involutive. apply floor_log2_of_quotient; lia.
  - intros -> -> ->. done.
  - intros -> -> ->. done.
Qed.

Lemma fusion_depth_floor_log2_witness :
  exists d, fusion_depth [Np.zeros3 4 6 1] 2 = Ok d /\ (0 <= d)%Z
            /\ floor_log2 (inject_Z 4 / inject_Z 2) d.
Proof.
  assert (Hr : rect3 4 6 1 (Np.zeros3 4 6 1)).
  { split; [reflexivity|]. repeat constructor. }
  destruct (fusion_depth_floor_log2 [Np.zeros3 4 6 1] (Np.zeros3 4 6 1)
              4 6 1 2 eq_refl Hr ltac:(lia) ltac:(lia) ltac:(lia))
    as [H _].
  exact (H ltac:(simpl; lia)).
Defined.

(** C6 as stated fails: for a 10x10 image and [min_size = 32] the depth is
    [int(log2(0.3125)) = -1], while the floor of the logarithm is -2. *)
Lemma fusion_depth_truncates :
  fusion_depth [Np.zeros3 10 10 1] 32 = Ok (-1)%Z
  /\ ~ floor_log2 (inject_Z 10 / inject_Z 32) (-1)
  /\ floor_log2 (inject_Z 10 / inject_Z 32) (-2).
Proof.
  split; [reflexivity|]. split.
  - intros [H _]. vm_compute in H. by apply H.
  - split; vm_compute; [discriminate | reflexivity].
Qed.

(** ** Selection by masked accumulation *)

Section MaskedLoops.

Variables (V : nat -> Plane) (r c : nat) (v : nat -> Qc).

Lemma masked_loop_get2 (best : list (list nat)) b n : forall s acc a,
  Np.get2 acc r c = Some a ->
  Np.get2 best r c = Some b ->
  (forall layer, s <= layer < s + n -> Np.get2 (V layer) r c = Some (v layer)) ->
  Np.get2 (foldl (fun fused layer =>
                    Np.add2 fused (Np.where_eq best layer (V layer)))
                 acc (seq s n)) r c
  = Some (a + (if bool_decide (s <= b < s + n) then v b else 0))%Qc.
Proof.
  induction n as [|n IH]; intros s acc a Hacc Hbest HV; simpl.
  - rewrite Hacc. f_equal. rewrite bool_decide_eq_false_2 by lia. ring.
  - erewrite IH; [| |done|intros; apply HV; lia]; cycle 1.
    { unfold Np.add2, Np.where_eq. apply get2_zip_with; [done|].
      apply get2_zip_with; [done|]. apply HV. lia. }
    f_equal. destruct (Nat.eqb_spec b s) as [->|Hne].
    + rewrite bool_decide_eq_false_2, bool_decide_eq_true_2 by lia. ring.
    + destruct (decide (S s <= b < S s + n)).
      * rewrite !bool_decide_eq_true_2 by lia. ring.
      * rewrite !bool_decide_eq_false_2 by lia. ring.
Qed.

Lemma masked_loop2_get2 (best_e best_d : list (list nat)) be bd n : forall s acc a,
  Np.get2 acc r c = Some a ->
  Np.get2 best_e r c = Some be ->
  Np.get2 best_d r c = Some bd ->
  (forall layer, s <= layer < s + n -> Np.get2 (V layer) r c = Some (v layer)) ->
  Np.get2 (foldl (fun fused layer =>
                    let values := V layer in
                    Np.add2 (Np.add2 fused (Np.where_eq best_e layer values))
                            (Np.where_eq best_d layer values))
                 acc (seq s n)) r c
  = Some (a + (if bool_decide (s <= be < s + n) then v be else 0)
            + (if bool_decide (s <= bd < s + n) then v bd else 0))%Qc.
Proof.
  induction n as [|n IH]; intros s acc a Hacc Hbe Hbd HV; simpl.
  - rewrite Hacc. f_equal. rewrite !bool_decide_eq_false_2 by lia. ring.
  - erewrite IH; [| |done|done|intros; apply HV; lia]; cycle 1.
    { unfold Np.add2, Np.where_eq. apply get2_zip_with.
      - apply get2_zip_with; [done|]. apply get2_zip_with; [done|]. apply HV. lia.
      - apply get2_zip_with; [done|]. apply HV. lia. }
    f_equal.
    assert (Hcase : forall b,
      ((if b =? s then v s else 0)
       + (if bool_decide (S s <= b < S s + n) then v b else 0)
       = (if bool_decide (s <= b < s + S n) then v b else 0))%Qc).
    { intros b. destruct (Nat.eqb_spec b s) as [->|Hne].
      - rewrite bool_decide_eq_false_2, bool_decide_eq_true_2 by lia. ring.
      - destruct (decide (S s <= b < S s + n)).
        + rewrite !bool_decide_eq_true_2 by lia. ring.
        + rewrite !bool_decide_eq_false_2 by lia. ring. }
    rewrite <- (Hcase be), <- (Hcase bd). ring.
Qed.

End MaskedLoops.

Lemma masked_loop_rect2 (V : nat -> Plane) (best : list (list nat)) h w l :
  forall acc,
  rect2 h w acc -> rect2 h w best -> (forall layer, layer ∈ l -> rect2 h w (V layer)) ->
  rect2 h w (foldl (fun fused layer =>
                      Np.add2 fused (Np.where_eq best layer (V layer))) acc l).
Proof.
  induction l as [|x l IH]; intros acc Hacc Hbest HV; simpl; [done|].
  apply IH; [|done|intros; apply HV; by right].
  apply rect2_zip_with; [done|]. apply rect2_zip_with; [done|].
  apply HV. by left.
Qed.

Lemma masked_loop2_rect2 (V : nat -> Plane) (best_e best_d : list (list nat)) h w l :
  forall acc,
  rect2 h w acc -> rect2 h w best_e -> rect2 h w best_d ->
  (forall layer, layer ∈ l -> rect2 h w (V layer)) ->
  rect2 h w (foldl (fun fused layer =>
                      let values := V layer in
                      Np.add2 (Np.add2 fused (Np.where_eq best_e layer values))
                              (Np.where_eq best_d layer values)) acc l).
Proof.
  induction l as [|x l IH]; intros acc Hacc Hbe Hbd HV; simpl; [done|].
  apply IH; [|done|done|intros; apply HV; by right].
  assert (rect2 h w (V x)) by (apply HV; by left).
  apply rect2_zip_with; apply rect2_zip_with; try done.
  by apply rect2_zip_with.
Qed.

Lemma get2_imap {A B} (f : nat -> nat -> A -> B) (a : list (list A)) r c :
  Np.get2 (imap (fun r row => imap (fun c x => f r c x) row) a) r c
  = f r c <$> Np.get2 a r c.
Proof.
  unfold Np.get2. rewrite list_lookup_imap.
  destruct (a !! r) as [row|]; simpl; [|done]. by rewrite list_lookup_imap.
Qed.

Lemma rect2_imap {A B} (f : nat -> nat -> A -> B) h w (a : list (list A)) :
  rect2 h w a -> rect2 h w (imap (fun r row => imap (fun c x => f r c x) row) a).
Proof.
  intros [Hl Hr]. split; [by rewrite length_imap|].
  apply Forall_lookup. intros r row Hrow.
  rewrite list_lookup_imap in Hrow.
  destruct (a !! r) as [row'|] eqn:Hr'; simplify_eq/=.
  rewrite length_imap. by apply (Forall_lookup_1 _ _ _ _ Hr Hr').
Qed.

Lemma get2_select_by_index best images channel r c b :
  Np.get2 best r c = Some b ->
  Np.get2 (select_by_index best images channel) r c
  = Some (default 0%Qc (Np.get3 (default [] (images !! b)) r c channel)).
Proof.
  intros Hb. unfold select_by_index.
  rewrite (get2_imap (fun r c b =>
    default 0%Qc (Np.get3 (default [] (images !! b)) r c channel))).
  by rewrite Hb.
Qed.

Lemma get2_index_bound {A} (P : A -> Prop) (a : list (list A)) r c x :
  Forall (Forall P) a -> Np.get2 a r c = Some x -> P x.
Proof.
  intros Ha (row & Hrow & Hx)%get2_Some.
  pose proof (Forall_lookup_1 _ _ _ _ Ha Hrow) as Hrow'.
  by apply (Forall_lookup_1 _ _ _ _ Hrow' Hx).
Qed.

Lemma layer_plane_get2 h w c (images : Stack) channel layer r x :
  Forall (rect3 h w c) images -> channel < c -> layer < length images ->
  r < h -> x < w ->
  Np.get2 (Np.plane (default [] (images !! layer)) channel) r x
  = Some (default 0%Qc (Np.get3 (default [] (images !! layer)) r x channel)).
Proof.
  intros Himgs Hch Hlayer Hr Hx.
  destruct (lookup_lt_is_Some_2 images layer Hlayer) as [img Himg].
  rewrite Himg. simpl.
  pose proof (Forall_lookup_1 _ _ _ _ Himgs Himg) as Hrect.
  rewrite (get2_plane_get3 h w c) by done.
  by destruct (rect3_get3 h w c img r x channel Hrect Hr Hx Hch) as [v ->].
Qed.

Lemma layer_plane_rect2 h w c (images : Stack) channel layer :
  Forall (rect3 h w c) images -> layer < length images ->
  rect2 h w (Np.plane (default [] (images !! layer)) channel).
Proof.
  intros Himgs Hlayer.
  destruct (lookup_lt_is_Some_2 images layer Hlayer) as [img Himg].
  rewrite Himg. simpl. eapply rect2_plane.
  by apply (Forall_lookup_1 _ _ _ _ Himgs Himg).
Qed.

(** C10.  The masked accumulation used by both fusion loops,
    [fused += np.where(best == layer, images[layer][:, :, channel], 0)] for
    every layer, starting from zeros, is the naive per-pixel selection
    [images[best[r, c]][r, c, channel]]: in the detail-band loop it is the
    selected plane itself, in the base-band loop the sum of the two selected
    planes.  [best] ranges over index maps of the stack, as [np.argmax]
    produces them. *)
Theorem masked_accumulation_is_selection (images : Stack) (h w c channel : nat)
    (best best_e best_d : list (list nat)) :
  Forall (rect3 h w c) images -> channel < c ->
  rect2 h w best -> rect2 h w best_e -> rect2 h w best_d ->
  Forall (Forall (fun b => b < length images)) best ->
  Forall (Forall (fun b => b < length images)) best_e ->
  Forall (Forall (fun b => b < length images)) best_d ->
  detail_select_loop best images channel (length images) (Np.zeros2 h w)
  = select_by_index best images channel
  /\ base_select_loop best_e best_d images channel (length images) (Np.zeros2 h w)
     = Np.add2 (select_by_index best_e images channel)
               (select_by_index best_d images channel).
Proof.
  intros Himgs Hch Hbest Hbe Hbd Hin Hine Hind.
  assert (HVr : forall layer, layer ∈ seq 0 (length images) ->
    rect2 h w (Np.plane (default [] (images !! layer)) channel)).
  { intros layer Hl%elem_of_seq. apply (layer_plane_rect2 h w c); [done|lia]. }
  split.
  - apply (rect2_ext h w).
    + apply masked_loop_rect2; [apply rect2_zeros2|done|done].
    + by apply rect2_imap.
    + intros r x Hr Hx.
      destruct (rect2_get2 h w best r x Hbest Hr Hx) as [b Hb].
      pose proof (get2_index_bound _ _ _ _ _ Hin Hb) as Hlt. simpl in Hlt.
      unfold detail_select_loop.
      rewrite (masked_loop_get2 _ r x
                 (fun layer => default 0%Qc
                    (Np.get3 (default [] (images !! layer)) r x channel))
                 best b (length images) 0 _ 0%Qc (get2_zeros2 h w r x Hr Hx) Hb).
      * rewrite (get2_select_by_index _ _ _ _ _ b Hb).
        rewrite bool_decide_eq_true_2 by lia. f_equal. ring.
      * intros layer Hl. apply (layer_plane_get2 h w c); [done|done|lia|done|done].
  - apply (rect2_ext h w).
    + apply masked_loop2_rect2; [apply rect2_zeros2|done|done|done].
    + apply rect2_zip_with; by apply rect2_imap.
    + intros r x Hr Hx.
      destruct (rect2_get2 h w best_e r x Hbe Hr Hx) as [be Hbe'].
      destruct (rect2_get2 h w best_d r x Hbd Hr Hx) as [bd Hbd'].
      pose proof (get2_index_bound _ _ _ _ _ Hine Hbe') as Hlte.
      pose proof (get2_index_bound _ _ _ _ _ Hind Hbd') as Hltd. simpl in *.
      unfold base_select_loop.
      rewrite (masked_loop2_get2 _ r x
                 (fun layer => default 0%Qc
                    (Np.get3 (default [] (images !! layer)) r x channel))
                 best_e best_d be bd (length images) 0 _ 0%Qc
                 (get2_zeros2 h w r x Hr Hx) Hbe' Hbd').
      * unfold Np.add2.
        rewrite (get2_zip_with _ _ _ _ _ _ _
                   (get2_select_by_index _ _ _ _ _ be Hbe')
                   (get2_select_by_index _ _ _ _ _ bd Hbd')).
        rewrite !bool_decide_eq_true_2 by lia. f_equal. ring.
      * intros layer Hl. apply (layer_plane_get2 h w c); [done|done|lia|done|done].
Qed.

Lemma masked_accumulation_is_selection_witness :
  detail_select_loop [[0; 1]; [1; 0]] [demo_a; demo_b] 0 2 (Np.zeros2 2 2)
  = select_by_index [[0; 1]; [1; 0]] [demo_a; demo_b] 0
  /\ base_select_loop [[0; 1]; [1; 0]] [[1; 1]; [0; 0]] [demo_a; demo_b] 0 2
       (Np.zeros2 2 2)
     = Np.add2 (select_by_index [[0; 1]; [1; 0]] [demo_a; demo_b] 0)
               (select_by_index [[1; 1]; [0; 0]] [demo_a; demo_b] 0).
Proof.
  apply (masked_accumulation_is_selection [demo_a; demo_b] 2 2 1 0
           [[0; 1]; [1; 0]] [[0; 1]; [1; 0]] [[1; 1]; [0; 0]]).
  - repeat constructor.
  - lia.
  - repeat constructor.
  - repeat constructor.
  - repeat constructor.
  - repeat constructor; simpl; lia.
  - repeat constructor; simpl; lia.
  - repeat constructor; simpl; lia.
Defined.

(** ** [np.argmax] *)

Lemma argmax_from_spec (rest : list Qc) : forall (pre : list Qc) bi bv,
  pre !! bi = Some bv ->
  (forall j y, pre !! j = Some y -> (y <= bv)%Qc) ->
  (forall j y, j < bi -> pre !! j = Some y -> (y < bv)%Qc) ->
  first_argmax (pre ++ rest) (Np.argmax_from bi bv (length pre) rest).
Proof.
  induction rest as [|x rest IH]; intros pre bi bv Hbi Hmax Hfirst; simpl.
  - rewrite app_nil_r. by exists bv.
  - replace (pre ++ x :: rest) with ((pre ++ [x]) ++ rest)
      by (by rewrite <- app_assoc).
    replace (S (length pre)) with (length (pre ++ [x]))
      by (rewrite length_app; simpl; lia).
    case_bool_decide as Hlt.
    + apply IH.
      * by rewrite lookup_app_r, Nat.sub_diag.
      * intros j y Hj. apply lookup_app_Some in Hj as [Hj|[_ Hj]].
        -- apply Qclt_le_weak. eapply Qcle_lt_trans; [by eapply Hmax|done].
        -- apply list_lookup_singleton_Some in Hj as [_ <-]. apply Qcle_refl.
      * intros j y Hjlt Hj. rewrite lookup_app_l in Hj by done.
        eapply Qcle_lt_trans; [by eapply Hmax|done].
    + apply Qcnot_lt_le in Hlt. apply IH.
      * rewrite lookup_app_l; [done|]. by eapply lookup_lt_Some.
      * intros j y Hj. apply lookup_app_Some in Hj as [Hj|[_ Hj]].
        -- by eapply Hmax.
        -- by apply list_lookup_singleton_Some in Hj as [_ <-].
      * intros j y Hjlt Hj. apply lookup_app_Some in Hj as [Hj|[Hge _]].
        -- by eapply Hfirst.
        -- apply lookup_lt_Some in Hbi. lia.
Qed.

Lemma first_max_spec (l : list Qc) : l <> [] -> first_argmax l (Np.first_max l).
Proof.
  destruct l as [|x rest]; [done|]. intros _. simpl.
  apply (argmax_from_spec rest [x] 0 x).
  - done.
  - intros j y Hj. apply list_lookup_singleton_Some in Hj as [_ <-]. apply Qcle_refl.
  - intros j y Hj. lia.
Qed.

Lemma first_argmax_lt l i : first_argmax l i -> i < length l.
Proof. intros (x & Hx & _). by eapply lookup_lt_Some. Qed.

Lemma argmax0_ok h w (maps : list Plane) :
  maps <> [] ->
  exists best, Np.argmax0 h w maps = Ok best /\ rect2 h w best
    /\ forall r x, r < h -> x < w ->
         Np.get2 best r x
         = Some (Np.first_max (map (fun m => Np.at2 0%Qc m r x) maps)).
Proof.
  intros Hne. destruct maps as [|m0 rest]; [done|].
  eexists. split; [reflexivity|]. split.
  - apply rect2_tabulate.
  - intros r x Hr Hx.
    by rewrite (get2_tabulate (fun r x =>
      Np.first_max (map (fun m => Np.at2 0%Qc m r x) (m0 :: rest)))).
Qed.

(** ** [np.unique] and the probability table *)

Lemma total_for_cons v u n l :
  total_for v ((u, n) :: l) = (if decide (u = v) then n else 0) + total_for v l.
Proof.
  unfold total_for. rewrite filter_cons. simpl.
  destruct (decide (u = v)); done.
Qed.

Lemma total_for_insert_level v u l :
  total_for u (Np.insert_level v l)
  = (if decide (v = u) then 1 else 0) + total_for u l.
Proof.
  induction l as [|[k n] l IH]; simpl.
  - rewrite total_for_cons. unfold total_for. simpl. lia.
  - destruct (Nat.ltb_spec v k).
    + by rewrite total_for_cons.
    + destruct (Nat.eqb_spec v k) as [->|Hne].
      * rewrite !total_for_cons. destruct (decide (k = u)); lia.
      * rewrite !total_for_cons, IH. lia.
Qed.

Lemma total_for_unique_counts u l :
  total_for u (Np.unique_counts l) = count_occ Nat.eq_dec l u.
Proof.
  induction l as [|v l IH]; simpl; [done|].
  rewrite total_for_insert_level, IH.
  destruct (decide (v = u)), (Nat.eq_dec v u); lia.
Qed.

Lemma sum_counts_insert_level v l :
  sum_list (map snd (Np.insert_level v l)) = S (sum_list (map snd l)).
Proof.
  induction l as [|[k n] l IH]; simpl; [done|].
  destruct (Nat.ltb_spec v k); [done|].
  destruct (Nat.eqb_spec v k); simpl; [done|]. rewrite IH. lia.
Qed.

Lemma sum_counts_unique_counts l :
  sum_list (map snd (Np.unique_counts l)) = length l.
Proof.
  induction l as [|v l IH]; simpl; [done|].
  by rewrite sum_counts_insert_level, IH.
Qed.

Lemma keys_insert_level (P : nat * nat -> Prop) v l :
  (forall n, P (v, n)) -> (forall k n m, P (k, n) -> P (k, m)) ->
  Forall P l -> Forall P (Np.insert_level v l).
Proof.
  intros Hv Hcount. induction 1 as [|[k n] l Hk Hl IH]; simpl.
  - by repeat constructor.
  - destruct (Nat.ltb_spec v k); [by repeat constructor|].
    destruct (Nat.eqb_spec v k); constructor; eauto.
Qed.

Lemma sorted_keys_insert_level v l :
  sorted_keys l -> sorted_keys (Np.insert_level v l).
Proof.
  induction l as [|[k n] l IH]; simpl; [done|].
  intros [Hk Hl].
  destruct (Nat.ltb_spec v k) as [Hlt|Hge].
  - simpl. repeat split; [|done|done].
    constructor; [done|]. eapply Forall_impl; [|exact Hk].
    intros p Hp. simpl in *. lia.
  - destruct (Nat.eqb_spec v k) as [->|Hne]; simpl; [done|].
    split; [|by apply IH].
    apply keys_insert_level; [simpl; lia|done|done].
Qed.

Lemma sorted_keys_unique_counts l : sorted_keys (Np.unique_counts l).
Proof.
  induction l as [|v l IH]; simpl; [done|]. by apply sorted_keys_insert_level.
Qed.

Lemma total_for_above u l :
  Forall (fun p => u < p.1) l -> total_for u l = 0.
Proof.
  induction 1 as [|[k n] l Hk Hl IH]; [done|].
  rewrite total_for_cons, IH. simpl in Hk. destruct (decide (k = u)); lia.
Qed.

Lemma table_fold_lookup (f : nat -> Qc) (l : list (nat * nat)) :
  forall (table : list Qc) v,
  sorted_keys l -> v < length table ->
  foldl (fun probabilities '(level, count) =>
           <[level := f count]> probabilities) table l !! v
  = if bool_decide (v ∈ map fst l) then Some (f (total_for v l)) else table !! v.
Proof.
  induction l as [|[k n] l IH]; intros table v Hsorted Hv; cbn [foldl map fst].
  - rewrite bool_decide_eq_false_2; [done|]. apply not_elem_of_nil.
  - destruct Hsorted as [Hk Hl].
    rewrite IH by (done || by rewrite length_insert).
    rewrite total_for_cons.
    destruct (decide (k = v)) as [->|Hne].
    + rewrite (bool_decide_eq_true_2 (v ∈ v :: _)) by left.
      rewrite bool_decide_eq_false_2.
      * rewrite list_lookup_insert_eq by done.
        by rewrite (total_for_above v l), Nat.add_0_r.
      * intros (p & -> & Hp)%list_elem_of_fmap.
        pose proof (proj1 (list.Forall_forall _ _) Hk p Hp). simpl in *. lia.
    + rewrite list_lookup_insert_ne by done.
      destruct (decide (v ∈ map fst l)) as [Hin|Hnin].
      * rewrite !bool_decide_eq_true_2; [done| by right | done].
      * rewrite !bool_decide_eq_false_2; [done| |done].
        intros [?|?]%elem_of_cons; done.
Qed.

Lemma total_for_not_key v l : v ∉ map fst l -> total_for v l = 0.
Proof.
  induction l as [|[k n] l IH]; intros Hnin; [done|].
  rewrite total_for_cons. simpl in Hnin.
  apply not_elem_of_cons in Hnin as [Hne Hnin].
  rewrite IH by done. destruct (decide (k = v)); [done|lia].
Qed.

Lemma Qnat_0_div x : (Qnat 0 / x)%Qc = 0%Qc.
Proof. unfold Qcdiv. replace (Qnat 0) with 0%Qc; [ring|]. by apply Qc_is_canon. Qed.

Lemma length_get_probabilities image : length (get_probabilities image) = 256.
Proof.
  unfold get_probabilities.
  generalize (Np.unique_counts (concat image)) at 2. intros l.
  generalize (sum_list (map snd (Np.unique_counts (concat image)))). intros total.
  assert (Hgen : forall table, length (foldl
            (fun probabilities '(level, count) =>
               <[level:=(Qnat count / Qnat total)%Qc]> probabilities) table l)
          = length table).
  { induction l as [|[k n] l IH]; intros table; simpl; [done|].
    by rewrite IH, length_insert. }
  by rewrite Hgen, length_replicate.
Qed.

Lemma get_probabilities_lookup image v :
  v < 256 ->
  get_probabilities image !! v = Some (histogram_probability image v).
Proof.
  intros Hv. unfold get_probabilities, histogram_probability.
  rewrite sum_counts_unique_counts.
  rewrite (table_fold_lookup (fun count => (Qnat count / Qnat (length (concat image)))%Qc))
    by (apply sorted_keys_unique_counts || by rewrite length_replicate).
  case_bool_decide as Hin.
  - by rewrite total_for_unique_counts.
  - rewrite lookup_replicate_2 by done.
    rewrite <- total_for_unique_counts, (total_for_not_key _ _ Hin).
    by rewrite Qnat_0_div.
Qed.

(** ** Mirror reflection and windows *)

Lemma borderInterpolate_lt p len : 0 < len -> Cv2.borderInterpolate p len < len.
Proof.
  intros Hlen. unfold Cv2.borderInterpolate.
  destruct (Nat.leb_spec len 1); [lia|].
  pose proof (Z.mod_pos_bound p (2 * (Z.of_nat len - 1))) as Hq.
  destruct (Z.ltb_spec (p mod (2 * (Z.of_nat len - 1))) (Z.of_nat len)); lia.
Qed.

Lemma borderInterpolate_inside p len :
  (0 <= p < Z.of_nat len)%Z -> Cv2.borderInterpolate p len = Z.to_nat p.
Proof.
  intros Hp. unfold Cv2.borderInterpolate.
  destruct (Nat.leb_spec len 1); [lia|].
  rewrite Z.mod_small by lia.
  destruct (Z.ltb_spec p (Z.of_nat len)); lia.
Qed.

Lemma borderInterpolate_mirror_low k len :
  1 <= k <= len - 1 -> Cv2.borderInterpolate (- Z.of_nat k) len = k.
Proof.
  intros Hk. unfold Cv2.borderInterpolate.
  destruct (Nat.leb_spec len 1); [lia|].
  replace (- Z.of_nat k mod (2 * (Z.of_nat len - 1)))%Z
    with (2 * (Z.of_nat len - 1) - Z.of_nat k)%Z.
  - destruct (Z.ltb_spec (2 * (Z.of_nat len - 1) - Z.of_nat k) (Z.of_nat len)); lia.
  - apply Z.mod_unique with (q := (-1)%Z); lia.
Qed.

Lemma borderInterpolate_mirror_high k len :
  1 <= k <= len - 1 ->
  Cv2.borderInterpolate (Z.of_nat (len - 1 + k)) len = len - 1 - k.
Proof.
  intros Hk. unfold Cv2.borderInterpolate.
  destruct (Nat.leb_spec len 1); [lia|].
  destruct (decide (k = len - 1)) as [->|Hne].
  - replace (Z.of_nat (len - 1 + (len - 1))) with (1 * (2 * (Z.of_nat len - 1)))%Z by lia.
    rewrite Z.mod_mul by lia.
    destruct (Z.ltb_spec 0 (Z.of_nat len)); lia.
  - rewrite Z.mod_small by lia.
    destruct (Z.ltb_spec (Z.of_nat (len - 1 + k)) (Z.of_nat len)); lia.
Qed.

Lemma at2_tabulate {A} (d : A) (f : nat -> nat -> A) h w r c :
  r < h -> c < w ->
  Np.at2 d (map (fun r => map (fun c => f r c) (seq 0 w)) (seq 0 h)) r c = f r c.
Proof.
  intros Hr Hc. unfold Np.at2. by rewrite get2_tabulate.
Qed.

Lemma window_padded_mirrored (image : GrayImage) h w pad r c :
  rect2 h w image -> r < h -> c < w ->
  concat (window (Cv2.copyMakeBorder 0 image pad) pad r c)
  = mirrored_window image pad r c.
Proof.
  intros Himg Hr Hc. unfold window, mirrored_window, Cv2.copyMakeBorder, Cv2.tap.
  rewrite (rect2_shape2 h w) by (done || lia).
  rewrite flat_map_concat_map. f_equal.
  apply map_ext_in. intros oi Hoi. apply map_ext_in. intros oj Hoj.
  unfold Np.arange in Hoi, Hoj.
  apply in_map_iff in Hoi as (a & <- & Ha%in_seq).
  apply in_map_iff in Hoj as (b & <- & Hb%in_seq).
  rewrite (at2_tabulate 0 (fun i j =>
    Np.at2 0 image (Cv2.borderInterpolate (Z.of_nat i - Z.of_nat pad) h)
                   (Cv2.borderInterpolate (Z.of_nat j - Z.of_nat pad) w)))
    by lia.
  do 2 f_equal; f_equal; lia.
Qed.

Lemma length_flat_map_map {A B C} (g : A -> B -> C) (l1 : list A) (l2 : list B) :
  length (flat_map (fun x => map (g x) l2) l1) = length l1 * length l2.
Proof.
  induction l1 as [|x l1 IH]; simpl; [done|].
  by rewrite length_app, length_map, IH.
Qed.

Lemma length_mirrored_window image pad r c :
  length (mirrored_window image pad r c) = (2 * pad + 1) * (2 * pad + 1).
Proof.
  unfold mirrored_window. destruct (Np.shape2 image) as [h w].
  rewrite (length_flat_map_map (fun oi oj =>
    Np.at2 0 image (Cv2.borderInterpolate (Z.of_nat r + oi) h)
                   (Cv2.borderInterpolate (Z.of_nat c + oj) w))).
  unfold Np.arange. by rewrite length_map, length_seq.
Qed.

Lemma mirrored_window_in_image (image : GrayImage) h w pad r c v :
  rect2 h w image -> r < h -> c < w ->
  v ∈ mirrored_window image pad r c -> v ∈ concat image.
Proof.
  intros Himg Hr Hc. unfold mirrored_window.
  rewrite (rect2_shape2 h w) by (done || lia).
  intros Hv. apply list_elem_of_In, in_flat_map in Hv as (oi & _ & Hv).
  apply in_map_iff in Hv as (oj & <- & _).
  destruct (rect2_get2 h w image
              (Cv2.borderInterpolate (Z.of_nat r + oi) h)
              (Cv2.borderInterpolate (Z.of_nat c + oj) w) Himg)
    as [x Hx]; [apply borderInterpolate_lt; lia..|].
  unfold Np.at2. rewrite Hx. simpl.
  apply get2_Some in Hx as (row & Hrow & Hx).
  apply list_elem_of_In, in_concat. exists row.
  split; apply list_elem_of_In; by eapply list_elem_of_lookup_2.
Qed.

Lemma Qnat_add a b : Qnat (a + b) = (Qnat a + Qnat b)%Qc.
Proof.
  apply Qc_is_canon. unfold Qnat. simpl.
  rewrite !Qred_correct, Nat2Z.inj_add, inject_Z_plus. reflexivity.
Qed.

Lemma Qnat_nonzero n : 0 < n -> Qnat n <> 0%Qc.
Proof.
  intros Hn Heq. unfold Qnat in Heq. apply Q2Qc_eq_iff in Heq.
  unfold Qeq in Heq. simpl in Heq. lia.
Qed.

Lemma Qnat_pos n : 0 < n -> (0 < Qnat n)%Qc.
Proof.
  intros Hn. unfold Qclt, Qnat. cbn [this Q2Qc]. rewrite !Qred_correct.
  unfold Qlt. cbn [Qnum Qden inject_Z]. lia.
Qed.

Lemma sum_histogram (f : nat -> nat) (t : Qc) (l : list nat) :
  Np.sum (map (fun v => (Qnat (f v) / t)%Qc) l) = (Qnat (sum_list (map f l)) / t)%Qc.
Proof.
  induction l as [|v l IH]; simpl.
  - by rewrite Qnat_0_div.
  - rewrite IH, Qnat_add. unfold Qcdiv. ring.
Qed.

Lemma sum_indicator x n s :
  sum_list (map (fun v => if Nat.eq_dec x v then 1 else 0) (seq s n))
  = if bool_decide (s <= x < s + n) then 1 else 0.
Proof.
  revert s. induction n as [|n IH]; intros s; simpl.
  - by rewrite bool_decide_eq_false_2 by lia.
  - rewrite IH. destruct (Nat.eq_dec x s) as [->|Hne].
    + rewrite bool_decide_eq_false_2, bool_decide_eq_true_2 by lia. done.
    + destruct (decide (S s <= x < S s + n)).
      * by rewrite !bool_decide_eq_true_2 by lia.
      * by rewrite !bool_decide_eq_false_2 by lia.
Qed.

Lemma sum_count_occ (l : list nat) n :
  Forall (fun v => v < n) l ->
  sum_list (map (count_occ Nat.eq_dec l) (seq 0 n)) = length l.
Proof.
  induction 1 as [|x l Hx Hl IH]; simpl.
  - induction (seq 0 n) as [|? ? IH]; simpl; [done|]. by rewrite IH.
  - rewrite <- IH.
    transitivity (sum_list (map (fun v => if Nat.eq_dec x v then 1 else 0) (seq 0 n))
                  + sum_list (map (count_occ Nat.eq_dec l) (seq 0 n))).
    + clear IH. induction (seq 0 n) as [|v vs IHv]; [done|].
      cbn [map sum_list foldr]. rewrite IHv. cbn [count_occ].
      unfold id. destruct (Nat.eq_dec x v); lia.
    + rewrite sum_indicator, bool_decide_eq_true_2 by lia. done.
Qed.

Lemma quantized_concat image : quantized image -> Forall (fun v => v < 256) (concat image).
Proof.
  intros Hq. apply Forall_concat. exact Hq.
Qed.

Lemma rect2_length_concat {A} h w (a : list (list A)) :
  rect2 h w a -> length (concat a) = h * w.
Proof.
  intros [<- Hrows]. induction Hrows as [|row a Hrow Hrows IH]; simpl; [done|].
  rewrite length_app, IH, Hrow. done.
Qed.

Lemma get_probabilities_table image :
  get_probabilities image = map (histogram_probability image) (seq 0 256).
Proof.
  apply list_eq. intros v.
  destruct (decide (v < 256)) as [Hv|Hv].
  - rewrite get_probabilities_lookup by done.
    by rewrite list_lookup_fmap, lookup_seq_lt.
  - rewrite !lookup_ge_None_2; [done| |].
    + rewrite length_map, length_seq. lia.
    + rewrite length_get_probabilities. lia.
Qed.

Lemma sum_get_probabilities image h w :
  rect2 h w image -> quantized image -> 0 < h -> 0 < w ->
  Np.sum (get_probabilities image) = 1%Qc.
Proof.
  intros Himg Hq Hh Hw. rewrite get_probabilities_table.
  unfold histogram_probability.
  rewrite (sum_histogram (count_occ Nat.eq_dec (concat image))).
  rewrite sum_count_occ by by apply quantized_concat.
  unfold Qcdiv. apply Qcmult_inv_r, Qnat_nonzero.
  rewrite (rect2_length_concat h w) by done. nia.
Qed.

(** C4.  At every pixel the local entropy is minus the sum, over the
    samples [v] of the square neighbourhood read through mirror reflection,
    of [v * log(probabilities[v])]: the weight is the gray level itself.
    The neighbourhood has [2 * pad + 1] samples a side with
    [pad = (kernel_size - 1) / 2], which is [kernel_size] for an odd
    [kernel_size]; reflection maps index [-k] to [k] and [len - 1 + k] to
    [len - 1 - k], so the edge sample is not repeated; [probabilities] is
    the histogram of the whole image over 256 levels divided by the number
    of pixels, and sums to 1. *)
Theorem local_entropy_formula (ln : Qc -> Qc) (image : GrayImage)
    (h w kernel_size r c : nat) :
  rect2 h w image -> quantized image -> r < h -> c < w ->
  let pad := (kernel_size - 1) / 2 in
  Np.get2 (fst (entropy_deviation ln image kernel_size)) r c
  = Some (- Np.sum (map (fun v => Qnat v * ln (histogram_probability image v))
                        (mirrored_window image pad r c)))%Qc
  /\ length (mirrored_window image pad r c) = (2 * pad + 1) * (2 * pad + 1)
  /\ (Nat.Odd kernel_size -> 2 * pad + 1 = kernel_size)
  /\ (forall len k, 1 <= k <= len - 1 ->
        Cv2.borderInterpolate (- Z.of_nat k) len = k
        /\ Cv2.borderInterpolate (Z.of_nat (len - 1 + k)) len = len - 1 - k)
  /\ (forall len p, (0 <= p < Z.of_nat len)%Z ->
        Cv2.borderInterpolate p len = Z.to_nat p)
  /\ get_probabilities image = map (histogram_probability image) (seq 0 256)
  /\ Np.sum (get_probabilities image) = 1%Qc.
Proof.
  intros Himg Hq Hr Hc pad. repeat split.
  - unfold entropy_deviation. rewrite (rect2_shape2 h w) by (done || lia).
    cbn [fst].
    rewrite (get2_tabulate (fun row column =>
      _area_entropy ln
        (window (Cv2.copyMakeBorder 0 image ((kernel_size - 1) / 2))
           ((kernel_size - 1) / 2) row column) (get_probabilities image)))
      by done.
    f_equal. unfold _area_entropy.
    rewrite (window_padded_mirrored image h w) by done. fold pad.
    assert (Hsum : map (fun level =>
                Qnat level * ln (default 0 (get_probabilities image !! level)))%Qc
              (mirrored_window image pad r c)
            = map (fun v => Qnat v * ln (histogram_probability image v))%Qc
              (mirrored_window image pad r c)).
    { apply map_ext_in. intros v Hv%list_elem_of_In.
      apply (mirrored_window_in_image image h w) in Hv; [|done..].
      pose proof (proj1 (list.Forall_forall _ _) (quantized_concat image Hq) v Hv) as Hlt.
      by rewrite get_probabilities_lookup. }
    rewrite Hsum. ring.
  - apply length_mirrored_window.
  - intros [m ->]. unfold pad.
    replace (2 * m + 1 - 1) with (m * 2) by lia. rewrite Nat.div_mul by done. lia.
  - by apply borderInterpolate_mirror_low.
  - by apply borderInterpolate_mirror_high.
  - intros len p Hp. by apply borderInterpolate_inside.
  - apply get_probabilities_table.
  - apply (sum_get_probabilities image h w); [done|done|lia|lia].
Qed.

Lemma local_entropy_formula_witness :
  Np.get2 (fst (entropy_deviation (fun x => x) demo_gray 5)) 0 0
  = Some (- Np.sum (map (fun v => Qnat v * histogram_probability demo_gray v)
                        (mirrored_window demo_gray 2 0 0)))%Qc
  /\ length (mirrored_window demo_gray 2 0 0) = 25.
Proof.
  destruct (local_entropy_formula (fun x => x) demo_gray 2 3 5 0 0)
    as (Hformula & Hlen & _).
  - repeat constructor.
  - repeat constructor.
  - lia.
  - lia.
  - split; [exact Hformula | exact Hlen].
Defined.

(** C9.  Every gray level [v] of every window that [entropy_deviation]
    passes to [_area_entropy], the mirrored border included, occurs in the
    image, so [np.log] is only applied to [probabilities[v] > 0]. *)
Theorem entropy_log_argument_positive (image : GrayImage)
    (h w kernel_size r c v : nat) :
  rect2 h w image -> quantized image -> r < h -> c < w ->
  let pad := (kernel_size - 1) / 2 in
  v ∈ concat (window (Cv2.copyMakeBorder 0 image pad) pad r c) ->
  v ∈ concat image
  /\ exists p, get_probabilities image !! v = Some p /\ (0 < p)%Qc.
Proof.
  intros Himg Hq Hr Hc pad Hv.
  rewrite (window_padded_mirrored image h w) in Hv by done.
  apply (mirrored_window_in_image image h w) in Hv; [|done..].
  split; [done|].
  pose proof (proj1 (list.Forall_forall _ _) (quantized_concat image Hq) v Hv) as Hlt.
  exists (histogram_probability image v). split.
  - by apply get_probabilities_lookup.
  - unfold histogram_probability.
    assert (Hcount : 0 < count_occ Nat.eq_dec (concat image) v).
    { apply count_occ_In. by apply list_elem_of_In. }
    assert (Hlen : 0 < length (concat image)).
    { rewrite (rect2_length_concat h w) by done. nia. }
    unfold Qcdiv. apply Qcmult_pos_pos; [by apply Qnat_pos|].
    apply Qcinv_pos. by apply Qnat_pos.
Qed.

Lemma entropy_log_argument_positive_witness :
  3 ∈ concat demo_gray
  /\ exists p, get_probabilities demo_gray !! 3 = Some p /\ (0 < p)%Qc.
Proof.
  apply (entropy_log_argument_positive demo_gray 2 3 5 0 0 3).
  - repeat constructor.
  - repeat constructor.
  - lia.
  - lia.
  - vm_compute. do 7 right. left.
Defined.

(** ** Decimation and the pyramid steps *)

Lemma every_second_tabulate {A} (f : nat -> A) n : forall s,
  Np.every_second (map f (seq s n))
  = map (fun i => f (s + 2 * i)) (seq 0 ((n + 1) / 2)).
Proof.
  induction n as [n IH] using lt_wf_ind. intros s.
  destruct n as [|[|n]].
  - done.
  - simpl. by rewrite Nat.add_0_r.
  - cbn [seq map Np.every_second]. rewrite IH by lia.
    replace ((S (S n) + 1) / 2) with (S ((n + 1) / 2)).
    + cbn [seq map]. rewrite Nat.add_0_r. f_equal.
      rewrite <- seq_shift, map_map. apply map_ext. intros i. f_equal. lia.
    + replace (S (S n) + 1) with (n + 1 + 1 * 2) by lia.
      rewrite Nat.div_add by done. lia.
Qed.

Lemma decimate_tabulate {A} (f : nat -> nat -> A) h w :
  Np.decimate (map (fun r => map (fun c => f r c) (seq 0 w)) (seq 0 h))
  = map (fun r => map (fun c => f (2 * r) (2 * c)) (seq 0 ((w + 1) / 2)))
        (seq 0 ((h + 1) / 2)).
Proof.
  unfold Np.decimate. rewrite map_map.
  rewrite (every_second_tabulate (fun r => Np.every_second (map (fun c => f r c) (seq 0 w)))).
  apply map_ext. intros r. simpl.
  by rewrite (every_second_tabulate (fun c => f (r + (r + 0)) c)).
Qed.

Lemma generating_kernel_binomial :
  generating_kernel (qfrac 3 8)
  = map (fun wi => map (fun wj => (Qint (wi * wj) / Qint 256)%Qc)
                       [1; 4; 6; 4; 1]%Z) [1; 4; 6; 4; 1]%Z.
Proof. apply (bool_decide_unpack _). vm_compute. exact I. Qed.

Lemma Qint_256_nonzero : Qint 256 <> 0%Qc.
Proof. intros H. apply Q2Qc_eq_iff in H. discriminate. Qed.

Lemma binomial_sum_kernel_sum (t : Z -> Z -> Qc) :
  (Np.sum (flat_map (fun '(di, wi) => map (fun '(dj, wj) =>
             (Qint (wi * wj) * t di dj)%Qc) Cv2.pyr_taps) Cv2.pyr_taps)
   / Qint 256)%Qc
  = Np.sum (flat_map (fun i => map (fun j =>
             (Np.at2 0 (generating_kernel (qfrac 3 8)) i j *
              t (Z.of_nat i - 2)%Z (Z.of_nat j - 2)%Z)%Qc) (seq 0 5)) (seq 0 5)).
Proof.
  rewrite generating_kernel_binomial.
  cbn -[Qcplus Qcmult Qcdiv Qint].
  repeat match goal with
  | |- context [t ?a ?b] =>
      let a' := eval vm_compute in a in
      let b' := eval vm_compute in b in
      progress change (t a b) with (t a' b')
  end.
  pose proof Qint_256_nonzero. field. done.
Qed.

(** ** Structure of the pyramids *)

Lemma detail_levels_indexed (gaussian : list Stack) :
  gaussian <> [] ->
  map (fun level => detail_stack (default [] (gaussian !! (level - 1)))
                                    (default [] (gaussian !! level)))
      (seq 1 (length gaussian - 1)) ++ [List.last gaussian []]
  = detail_levels gaussian.
Proof.
  induction gaussian as [|gauss rest IH]; [done|]. intros _.
  destruct rest as [|coarser rest]; [done|].
  change (detail_levels (gauss :: coarser :: rest))
    with (detail_stack gauss coarser :: detail_levels (coarser :: rest)).
  rewrite <- IH by done.
  replace (length (gauss :: coarser :: rest) - 1)
    with (S (length (coarser :: rest) - 1)) by (simpl; lia).
  change (List.last (gauss :: coarser :: rest) []) with (List.last (coarser :: rest) []).
  cbn [seq map app]. f_equal. f_equal.
  rewrite <- seq_shift, map_map. apply map_ext_in. intros level Hl%in_seq.
  destruct level as [|level]; [lia|]. simpl. by rewrite Nat.sub_0_r.
Qed.

(** ** Shapes through the pyramid steps *)

Lemma rect3_zip_with {A B C} (f : A -> B -> C) h w c a b :
  rect3 h w c a -> rect3 h w c b ->
  rect3 h w c (zip_with (zip_with (zip_with f)) a b).
Proof.
  intros [Hla Hra] [Hlb Hrb]. split.
  - rewrite length_zip_with. lia.
  - apply Forall_lookup. intros r row Hrow.
    apply lookup_zip_with_Some in Hrow as (ra & rb & -> & Ha & Hb).
    apply rect2_zip_with.
    + by apply (Forall_lookup_1 _ _ _ _ Hra Ha).
    + by apply (Forall_lookup_1 _ _ _ _ Hrb Hb).
Qed.

Lemma zip_with_cancel {A B} (f : B -> A -> A) (g : A -> B -> A)
    (R : A -> B -> Prop) :
  (forall x y, R x y -> f y (g x y) = x) ->
  forall a e, Forall2 R a e -> zip_with f e (zip_with g a e) = a.
Proof.
  intros Hfg a e Hae. induction Hae as [|x y a e Hxy Hae IH]; simpl; [done|].
  by rewrite Hfg, IH.
Qed.

Lemma rect2_Forall2 {A B} h w (a : list (list A)) (e : list (list B)) :
  rect2 h w a -> rect2 h w e -> Forall2 (fun x y => length x = length y) a e.
Proof.
  intros [Hla Hra] [Hle Hre].
  apply Forall2_same_length_lookup_2; [lia|]. intros i x y Hx Hy.
  pose proof (Forall_lookup_1 _ _ _ _ Hra Hx).
  pose proof (Forall_lookup_1 _ _ _ _ Hre Hy). simpl in *. lia.
Qed.

Lemma add3_sub3_cancel h w c (a e : Image) :
  rect3 h w c a -> rect3 h w c e -> add_same3 e (sub_same3 a e) = a.
Proof.
  intros [Hla Hra] [Hle Hre]. unfold add_same3, sub_same3.
  apply (zip_with_cancel _ _ (fun x y => rect2 w c x /\ rect2 w c y)).
  - intros ra re [Hx Hy].
    apply (zip_with_cancel _ _ (fun x y => length x = length y));
      [|by apply (rect2_Forall2 w c)].
    intros pa pe Hlen.
    apply (zip_with_cancel _ _ (fun _ _ => True)).
    + intros x y _. ring.
    + by apply Forall2_true.
  - apply Forall2_same_length_lookup_2; [lia|]. intros i x y Hx Hy. split.
    + by apply (Forall_lookup_1 _ _ _ _ Hra Hx).
    + by apply (Forall_lookup_1 _ _ _ _ Hre Hy).
Qed.

Lemma rect3_crop {A} h w c h' w' (e : list (list (list A))) :
  rect3 h' w' c e -> h <= h' -> w <= w' -> rect3 h w c (Np.crop e h w).
Proof.
  intros [Hl Hr] Hh Hw. unfold Np.crop. split.
  - rewrite length_take, length_map. lia.
  - apply Forall_take, Forall_map.
    eapply Forall_impl; [|exact Hr]. intros row [Hrl Hpx]. simpl. split.
    + rewrite length_take. lia.
    + by apply Forall_take.
Qed.

Lemma rect3_fit_to h w c h' w' (expanded layer : Image) :
  rect3 h' w' c expanded -> rect3 h w c layer ->
  0 < h -> 0 < w -> h <= h' -> w <= w' ->
  rect3 h w c (fit_to3 expanded layer).
Proof.
  intros He Hl Hh Hw Hhh Hww. unfold fit_to3.
  rewrite (rect3_shape3 h' w' c expanded), (rect3_shape3 h w c layer)
    by (done || lia).
  case_bool_decide as Heq.
  - by simplify_eq.
  - by apply (rect3_crop h w c h' w').
Qed.

Lemma fit_to_same_shape (expanded layer layer' : Image) :
  Np.shape3 layer = Np.shape3 layer' -> fit_to3 expanded layer = fit_to3 expanded layer'.
Proof. intros Hs. unfold fit_to3. by rewrite Hs. Qed.

Lemma rect3_merge h w (planes : list Plane) :
  rect3 h w (length planes) (Cv2.merge h w planes).
Proof.
  unfold Cv2.merge. split; [by rewrite length_map, length_seq|].
  apply Forall_map, Forall_forall. intros r _. simpl. split.
  - by rewrite length_map, length_seq.
  - apply Forall_map, Forall_forall. intros x _. simpl. by rewrite length_map.
Qed.

Lemma split_planes h w c (img : Image) :
  rect3 h w c img -> 0 < h -> 0 < w ->
  Cv2.split img = map (Np.plane img) (seq 0 c).
Proof.
  intros Hr Hh Hw. unfold Cv2.split. by rewrite (rect3_shape3 h w c).
Qed.

Lemma rect3_pyrDown h w c (img : Image) :
  rect3 h w c img -> 0 < h -> 0 < w ->
  rect3 ((h + 1) / 2) ((w + 1) / 2) c (Cv2.pyrDown_mat img).
Proof.
  intros Hr Hh Hw. unfold Cv2.pyrDown_mat.
  rewrite (split_planes h w c), (rect3_shape3 h w c) by done.
  pose proof (rect3_merge ((h + 1) / 2) ((w + 1) / 2)
                (map Cv2.pyrDown2 (map (Np.plane img) (seq 0 c)))) as Hm.
  by rewrite !length_map, length_seq in Hm.
Qed.

Lemma rect3_pyrUp h w c (img : Image) :
  rect3 h w c img -> 0 < h -> 0 < w ->
  rect3 (2 * h) (2 * w) c (Cv2.pyrUp_mat img).
Proof.
  intros Hr Hh Hw. unfold Cv2.pyrUp_mat.
  rewrite (split_planes h w c), (rect3_shape3 h w c) by done.
  pose proof (rect3_merge (2 * h) (2 * w)
                (map Cv2.pyrUp2 (map (Np.plane img) (seq 0 c)))) as Hm.
  by rewrite !length_map, length_seq in Hm.
Qed.

Lemma half_up_bounds n : 0 < n -> 0 < (n + 1) / 2 /\ n <= 2 * ((n + 1) / 2) <= n + 1.
Proof.
  intros Hn.
  pose proof (Nat.div_mod_eq (n + 1) 2).
  pose proof (Nat.mod_upper_bound (n + 1) 2). lia.
Qed.

(** The reconstruction step undoes the decomposition step. *)
Lemma reconstruct_step h w c (gauss_layer coarse_layer : Image) :
  rect3 h w c gauss_layer -> 0 < h -> 0 < w ->
  rect3 ((h + 1) / 2) ((w + 1) / 2) c coarse_layer ->
  let detail := sub_same3 gauss_layer (fit_to3 (Cv2.pyrUp_mat coarse_layer) gauss_layer) in
  rect3 h w c detail
  /\ add_same3 (fit_to3 (Cv2.pyrUp_mat coarse_layer) detail) detail = gauss_layer.
Proof.
  intros Hg Hh Hw Hc detail.
  destruct (half_up_bounds h Hh) as [Hh' Hhb].
  destruct (half_up_bounds w Hw) as [Hw' Hwb].
  assert (He : rect3 h w c (fit_to3 (Cv2.pyrUp_mat coarse_layer) gauss_layer)).
  { apply (rect3_fit_to h w c (2 * ((h + 1) / 2)) (2 * ((w + 1) / 2)));
      [|done|done|done|lia|lia].
    by apply rect3_pyrUp. }
  assert (Hd : rect3 h w c detail) by by apply rect3_zip_with.
  split; [done|].
  rewrite (fit_to_same_shape _ detail gauss_layer).
  - by apply (add3_sub3_cancel h w c).
  - by rewrite (rect3_shape3 h w c detail), (rect3_shape3 h w c gauss_layer).
Qed.

Lemma detail_levels_nonempty (gauss : Stack) (rest : list Stack) :
  detail_levels (gauss :: rest) <> [].
Proof. by destruct rest. Qed.

Lemma collapse_levels_cons (layer : Image) (rest : list Image) :
  rest <> [] ->
  collapse_levels (layer :: rest)
  = add_same3 (fit_to3 (Cv2.pyrUp_mat (collapse_levels rest)) layer) layer.
Proof. by destruct rest. Qed.

Lemma Forall_rect3_pyrDown h w c (images : Stack) :
  Forall (rect3 h w c) images -> 0 < h -> 0 < w ->
  Forall (rect3 ((h + 1) / 2) ((w + 1) / 2) c) (map Cv2.pyrDown_mat images).
Proof.
  intros Himgs Hh Hw. apply Forall_map.
  eapply Forall_impl; [|exact Himgs]. intros img Hr. by apply rect3_pyrDown.
Qed.

Lemma layer_round_trip (i : nat) (n : nat) :
  forall (images : Stack) (h w c : nat) (img : Image),
  Forall (rect3 h w c) images -> 0 < h -> 0 < w -> images !! i = Some img ->
  collapse_levels
    (map (fun level => default [] (level !! i))
         (detail_levels (images :: down_stacks n images)))
  = img.
Proof.
  induction n as [|n IH]; intros images h w c img Himgs Hh Hw Hi.
  - simpl. by rewrite Hi.
  - cbn [down_stacks].
    change (detail_levels (images :: map Cv2.pyrDown_mat images
                             :: down_stacks n (map Cv2.pyrDown_mat images)))
      with (detail_stack images (map Cv2.pyrDown_mat images)
              :: detail_levels (map Cv2.pyrDown_mat images
                                  :: down_stacks n (map Cv2.pyrDown_mat images))).
    cbn [map]. rewrite collapse_levels_cons; cycle 1.
    { intros Hnil%(f_equal length). rewrite length_map in Hnil.
      by eapply detail_levels_nonempty, nil_length_inv. }
    destruct (half_up_bounds h Hh) as [Hh' _].
    destruct (half_up_bounds w Hw) as [Hw' _].
    rewrite (IH (map Cv2.pyrDown_mat images) ((h + 1) / 2) ((w + 1) / 2) c
               (Cv2.pyrDown_mat img));
      [|by apply Forall_rect3_pyrDown|done|done
       |by rewrite list_lookup_fmap, Hi].
    unfold detail_stack.
    rewrite lookup_zip_with, Hi. cbn [option_bind mbind].
    rewrite list_lookup_fmap, Hi. cbn.
    pose proof (Forall_lookup_1 _ _ _ _ Himgs Hi) as Hr.
    apply (reconstruct_step h w c img (Cv2.pyrDown_mat img)); [done..|].
    by apply rect3_pyrDown.
Qed.

(** ** Shapes through fusion *)

Lemma for_each_invariant {A S} (I : S -> Prop) (body : A -> S -> result S)
    (xs : list A) : forall s,
  I s ->
  (forall x s, x ∈ xs -> I s -> exists s', body x s = Ok s' /\ I s') ->
  exists s', for_each xs s body = Ok s' /\ I s'.
Proof.
  induction xs as [|x xs IH]; intros s Hs Hbody; simpl.
  - by exists s.
  - destruct (Hbody x s) as (s1 & -> & Hs1); [by left|done|]. simpl.
    apply IH; [done|]. intros y s2 Hy. apply Hbody. by right.
Qed.

Lemma for_each_append {A B} (g : A -> result B) (P : A -> B -> Prop)
    (xs : list A) : forall init,
  Forall (fun x => exists d, g x = Ok d /\ P x d) xs ->
  exists ds,
    for_each xs init (fun x s => let* d := g x in Ok (s ++ [d])) = Ok (init ++ ds)
    /\ Forall2 P xs ds.
Proof.
  induction xs as [|x xs IH]; intros init Hxs; simpl.
  - exists []. by rewrite app_nil_r.
  - apply Forall_cons_1 in Hxs as [(d & -> & Hd) Hxs]. simpl.
    destruct (IH (init ++ [d]) Hxs) as (ds & -> & Hds).
    exists (d :: ds). rewrite <- app_assoc. split; [done|]. by constructor.
Qed.

Lemma rect3_zeros3 h w c : rect3 h w c (Np.zeros3 h w c).
Proof.
  split; [apply length_replicate|].
  apply Forall_replicate. split; [apply length_replicate|].
  apply Forall_replicate, length_replicate.
Qed.

Lemma rect3_set_plane h w c (a : Image) channel (p : Plane) :
  rect3 h w c a -> rect2 h w p -> rect3 h w c (Np.set_plane a channel p).
Proof.
  intros [Hla Hra] [Hlp Hrp]. unfold Np.set_plane. split.
  - rewrite length_zip_with. lia.
  - apply Forall_lookup. intros r row Hrow.
    apply lookup_zip_with_Some in Hrow as (ra & rp & -> & Ha & Hp).
    pose proof (Forall_lookup_1 _ _ _ _ Hra Ha) as [Hlen Hpx].
    pose proof (Forall_lookup_1 _ _ _ _ Hrp Hp) as Hlen'. simpl in Hlen'.
    split.
    + rewrite length_zip_with. lia.
    + apply Forall_lookup. intros x px Hx.
      apply lookup_zip_with_Some in Hx as (pa & v & -> & Hpa & _).
      rewrite length_insert. by apply (Forall_lookup_1 _ _ _ _ Hpx Hpa).
Qed.

Lemma get_fused_laplacian_channel_shape (laplacians : Stack) h w c channel :
  laplacians <> [] -> Forall (rect3 h w c) laplacians ->
  0 < h -> 0 < w -> channel < c ->
  exists fused,
    get_fused_laplacian_channel laplacians channel = Ok fused /\ rect2 h w fused.
Proof.
  intros Hne Hrect Hh Hw Hch. unfold get_fused_laplacian_channel.
  rewrite (stack_shape4 h w c) by done.
  rewrite bool_decide_eq_false_2 by lia.
  destruct (argmax0_ok h w
              (map (fun lap => region_energy (Np.plane lap channel)) laplacians))
    as (best & -> & Hbest & _); [by destruct laplacians|].
  simpl. eexists. split; [reflexivity|].
  apply masked_loop_rect2; [apply rect2_zeros2|done|].
  intros layer Hl%elem_of_seq. apply (layer_plane_rect2 h w c); [done|lia].
Qed.

Lemma get_fused_base_channel_shape ln dt (images : Stack) h w c kernel_size channel :
  images <> [] -> Forall (rect3 h w c) images ->
  0 < h -> 0 < w -> channel < c ->
  exists fused,
    get_fused_base_channel ln dt images kernel_size channel = Ok fused
    /\ rect2 h w fused.
Proof.
  intros Hne Hrect Hh Hw Hch. unfold get_fused_base_channel.
  rewrite (stack_shape4 h w c) by done.
  rewrite bool_decide_eq_false_2 by lia.
  set (stats := map _ images).
  destruct (argmax0_ok h w (map fst stats))
    as (best_e & -> & Hbest_e & _); [by destruct images|].
  destruct (argmax0_ok h w (map snd stats))
    as (best_d & -> & Hbest_d & _); [by destruct images|].
  simpl. eexists. split; [reflexivity|].
  apply rect2_map. apply masked_loop2_rect2; [apply rect2_zeros2|done|done|].
  intros layer Hl%elem_of_seq. apply (layer_plane_rect2 h w c); [done|lia].
Qed.

Lemma get_fused_laplacian_shape (laplacians : Stack) h w c :
  laplacians <> [] -> Forall (rect3 h w c) laplacians -> 0 < h -> 0 < w ->
  exists fused, get_fused_laplacian laplacians = Ok fused /\ rect3 h w c fused.
Proof.
  intros Hne Hrect Hh Hw. unfold get_fused_laplacian.
  rewrite (stack_shape4 h w c) by done.
  apply (for_each_invariant (rect3 h w c)); [apply rect3_zeros3|].
  intros channel fused Hch%elem_of_seq Hfused.
  destruct (get_fused_laplacian_channel_shape laplacians h w c channel)
    as (p & -> & Hp); [done|done|done|done|lia|].
  simpl. eexists. split; [reflexivity|]. by apply rect3_set_plane.
Qed.

Lemma get_fused_base_shape ln dt (images : Stack) kernel_size h w c :
  images <> [] -> Forall (rect3 h w c) images -> 0 < h -> 0 < w ->
  exists fused,
    get_fused_base ln dt images kernel_size = Ok fused /\ rect3 h w c fused.
Proof.
  intros Hne Hrect Hh Hw. unfold get_fused_base.
  rewrite (stack_shape4 h w c) by done.
  apply (for_each_invariant (rect3 h w c)); [apply rect3_zeros3|].
  intros channel fused Hch%elem_of_seq Hfused.
  destruct (get_fused_base_channel_shape ln dt images h w c kernel_size channel)
    as (p & -> & Hp); [done|done|done|done|lia|].
  simpl. eexists. split; [reflexivity|]. by apply rect3_set_plane.
Qed.

Lemma level_dims_nonempty n h w : level_dims n h w <> [].
Proof. by destruct n. Qed.

Lemma laplacian_level_map (images : Stack) :
  detail_stack images (map Cv2.pyrDown_mat images)
  = map (fun img => sub_same3 img (fit_to3 (Cv2.pyrUp_mat (Cv2.pyrDown_mat img)) img)) images.
Proof.
  unfold detail_stack. induction images as [|img images IH]; simpl; [done|].
  by rewrite IH.
Qed.

Lemma detail_levels_shapes c n : forall (images : Stack) h w,
  images <> [] -> Forall (rect3 h w c) images -> 0 < h -> 0 < w ->
  Forall2 (level_ok c) (level_dims n h w)
          (detail_levels (images :: down_stacks n images)).
Proof.
  induction n as [|n IH]; intros images h w Hne Himgs Hh Hw.
  - simpl. by repeat constructor.
  - cbn [down_stacks level_dims].
    change (detail_levels (images :: map Cv2.pyrDown_mat images
                             :: down_stacks n (map Cv2.pyrDown_mat images)))
      with (detail_stack images (map Cv2.pyrDown_mat images)
              :: detail_levels (map Cv2.pyrDown_mat images
                                  :: down_stacks n (map Cv2.pyrDown_mat images))).
    destruct (half_up_bounds h Hh) as [Hh' _].
    destruct (half_up_bounds w Hw) as [Hw' _].
    constructor.
    + rewrite laplacian_level_map. repeat split; simpl; [|  |done|done].
      * by destruct images.
      * apply Forall_map. eapply Forall_impl; [|exact Himgs].
        intros img Hr. simpl.
        apply (reconstruct_step h w c img (Cv2.pyrDown_mat img)); [done..|].
        by apply rect3_pyrDown.
    + apply IH; [by destruct images| |done|done].
      by apply Forall_rect3_pyrDown.
Qed.

Lemma last_lookup_default {A} (l : list A) (d x : A) :
  l !! (length l - 1) = Some x -> List.last l d = x.
Proof.
  induction l as [|y l IH]; [done|]. intros Hx.
  destruct l as [|z l]; [by simplify_eq/=|].
  change (List.last (y :: z :: l) d) with (List.last (z :: l) d).
  apply IH. simpl in *. by rewrite Nat.sub_0_r in *.
Qed.

Lemma Forall2_rev {A B} (P : A -> B -> Prop) l k :
  Forall2 P l k -> Forall2 P (rev l) (rev k).
Proof.
  induction 1 as [|x y l k Hxy Hlk IH]; simpl; [constructor|].
  apply Forall2_app; [done|]. by repeat constructor.
Qed.

Lemma collapse_levels_shape c n : forall h w (fusion : list Image),
  0 < h -> 0 < w ->
  Forall2 (fun d f => rect3 d.1 d.2 c f) (level_dims n h w) fusion ->
  rect3 h w c (collapse_levels fusion).
Proof.
  induction n as [|n IH]; intros h w fusion Hh Hw Hf.
  - simpl in Hf. apply Forall2_cons_inv_l in Hf as (f & rest & Hr & Hrest & ->).
    apply Forall2_nil_inv_l in Hrest as ->. done.
  - cbn [level_dims] in Hf.
    apply Forall2_cons_inv_l in Hf as (f & rest & Hr & Hrest & ->).
    destruct (half_up_bounds h Hh) as [Hh' Hhb].
    destruct (half_up_bounds w Hw) as [Hw' Hwb].
    rewrite collapse_levels_cons; cycle 1.
    { intros ->. apply Forall2_nil_inv_r in Hrest.
      by eapply level_dims_nonempty. }
    apply rect3_zip_with; [|done].
    apply (rect3_fit_to h w c (2 * ((h + 1) / 2)) (2 * ((w + 1) / 2)));
      [|done|done|done|lia|lia].
    apply rect3_pyrUp; [|done|done]. by apply IH.
Qed.

Lemma int_log2_ratio_ok (side min_size : Z) :
  (0 < side)%Z -> (0 < min_size)%Z -> exists d, int_log2_ratio side min_size = Ok d.
Proof.
  intros Hs Hm. unfold int_log2_ratio.
  destruct (Z.eqb_spec min_size 0) as [|_]; [lia|].
  destruct (Z.eqb_spec side 0) as [|_]; [lia|].
  destruct (Z.ltb_spec min_size 0) as [|_]; [lia|].
  destruct (min_size <=? side)%Z; eauto.
Qed.

(** ** The program on arrays of three axes

    Where every image has a channel count other than 1 the binding keeps
    the channel axis, the operands of every addition and subtraction have
    one shape, and the program computes the regular-case definitions. *)

Lemma map_id_ext {A} (f : A -> A) (l : list A) :
  (forall x, f x = x) -> map f l = l.
Proof. intros Hf. induction l as [|x l IH]; simpl; [done|]. by rewrite Hf, IH. Qed.

Lemma astype4_float32 (images : Stack) : Np.astype4 float32 images = images.
Proof.
  unfold Np.astype4. apply map_id_ext. intros img. apply map_id_ext.
  intros row. apply map_id_ext. intros px. by apply map_id_ext.
Qed.

Lemma shape_Arr3 h w c (img : Image) :
  rect3 h w c img -> 0 < h -> 0 < w -> Np.shape (Arr3 img) = [h; w; c].
Proof. intros Hr Hh Hw. unfold Np.shape. by rewrite (rect3_shape3 h w c). Qed.

Lemma shape_Arr2 h w (p : Plane) :
  rect2 h w p -> 0 < h -> Np.shape (Arr2 p) = [h; w].
Proof. intros Hr Hh. unfold Np.shape. by rewrite (rect2_shape2 h w). Qed.

Lemma from_mat_multi h w c (m : Image) :
  rect3 h w c m -> 0 < h -> 0 < w -> c <> 1 -> Cv2.from_mat m = Arr3 m.
Proof.
  intros Hr Hh Hw Hc. unfold Cv2.from_mat. rewrite (rect3_shape3 h w c) by done.
  by destruct (Nat.eqb_spec c 1).
Qed.

Lemma from_mat_single h w (m : Image) :
  rect3 h w 1 m -> 0 < h -> 0 < w -> Cv2.from_mat m = Arr2 (Np.plane m 0).
Proof.
  intros Hr Hh Hw. unfold Cv2.from_mat. by rewrite (rect3_shape3 h w 1).
Qed.

Lemma pyrDown_Arr3 h w c (img : Image) :
  rect3 h w c img -> 0 < h -> 0 < w -> c <> 1 ->
  Cv2.pyrDown (Arr3 img) = Arr3 (Cv2.pyrDown_mat img).
Proof.
  intros Hr Hh Hw Hc. unfold Cv2.pyrDown. simpl.
  destruct (half_up_bounds h Hh) as [Hh' _].
  destruct (half_up_bounds w Hw) as [Hw' _].
  apply (from_mat_multi ((h + 1) / 2) ((w + 1) / 2) c); [|done..].
  by apply rect3_pyrDown.
Qed.

Lemma pyrUp_Arr3 h w c (img : Image) :
  rect3 h w c img -> 0 < h -> 0 < w -> c <> 1 ->
  Cv2.pyrUp (Arr3 img) = Arr3 (Cv2.pyrUp_mat img).
Proof.
  intros Hr Hh Hw Hc. unfold Cv2.pyrUp. simpl.
  apply (from_mat_multi (2 * h) (2 * w) c); [|lia|lia|done].
  by apply rect3_pyrUp.
Qed.

Lemma fit_to_Arr3 (expanded layer : Image) :
  fit_to (Arr3 expanded) (Arr3 layer) = Arr3 (fit_to3 expanded layer).
Proof.
  unfold fit_to, fit_to3, Np.shape.
  destruct (Np.shape3 expanded) as [[he we] ce].
  destruct (Np.shape3 layer) as [[hl wl] cl].
  repeat case_bool_decide; simplify_eq; done.
Qed.

Lemma broadcast_dim_same n : Np.broadcast_dim n n = Some n.
Proof. unfold Np.broadcast_dim. by rewrite Nat.eqb_refl. Qed.

Lemma broadcast_index_lt n i : i < n -> Np.broadcast_index n i = i.
Proof.
  intros Hi. unfold Np.broadcast_index. destruct (Nat.eqb_spec n 1); lia.
Qed.

Lemma tabulate_zip_with {A B C} (f : A -> B -> C) (F : nat -> C)
    (a : list A) (b : list B) n :
  length a = n -> length b = n ->
  (forall i x y, a !! i = Some x -> b !! i = Some y -> F i = f x y) ->
  map F (seq 0 n) = zip_with f a b.
Proof.
  intros Ha Hb HF. apply list_eq. intros i.
  rewrite list_lookup_fmap, lookup_zip_with.
  destruct (decide (i < n)) as [Hi|Hi].
  - rewrite lookup_seq_lt by done. simpl.
    destruct (lookup_lt_is_Some_2 a i) as [x Hx]; [lia|].
    destruct (lookup_lt_is_Some_2 b i) as [y Hy]; [lia|].
    rewrite Hx, Hy. simpl. f_equal. by apply HF.
  - rewrite lookup_seq_ge by lia. simpl.
    by rewrite (lookup_ge_None_2 a) by lia.
Qed.

(** On two arrays of one shape, broadcasting is the elementwise operation. *)
Lemma broadcast3_same f h w c (a b : Image) :
  rect3 h w c a -> rect3 h w c b -> 0 < h -> 0 < w ->
  Np.broadcast3 f a b = Ok (zip_with (zip_with (zip_with f)) a b).
Proof.
  intros Ha Hb Hh Hw. unfold Np.broadcast3.
  rewrite (rect3_shape3 h w c a), (rect3_shape3 h w c b) by done.
  rewrite !broadcast_dim_same. f_equal.
  destruct Ha as [Hla Hra], Hb as [Hlb Hrb].
  apply tabulate_zip_with; [done|done|]. intros i ra rb Hia Hib.
  destruct (Forall_lookup_1 _ _ _ _ Hra Hia) as [Hlra Hrra].
  destruct (Forall_lookup_1 _ _ _ _ Hrb Hib) as [Hlrb Hrrb].
  apply tabulate_zip_with; [done|done|]. intros j pa pb Hja Hjb.
  pose proof (Forall_lookup_1 _ _ _ _ Hrra Hja) as Hlpa.
  pose proof (Forall_lookup_1 _ _ _ _ Hrrb Hjb) as Hlpb. simpl in Hlpa, Hlpb.
  apply tabulate_zip_with; [done|done|]. intros k x y Hx Hy.
  pose proof (lookup_lt_Some _ _ _ Hia). pose proof (lookup_lt_Some _ _ _ Hja).
  pose proof (lookup_lt_Some _ _ _ Hx).
  rewrite !broadcast_index_lt by lia.
  unfold Np.at3, Np.get3, Np.get2. by rewrite Hia, Hja, Hx, Hib, Hjb, Hy.
Qed.

Lemma sub_Arr3 h w c (a b : Image) :
  rect3 h w c a -> rect3 h w c b -> 0 < h -> 0 < w ->
  Np.sub (Arr3 a) (Arr3 b) = Ok (Arr3 (sub_same3 a b)).
Proof.
  intros Ha Hb Hh Hw. unfold Np.sub, Np.binary.
  by rewrite (broadcast3_same _ h w c).
Qed.

Lemma add_Arr3 h w c (a b : Image) :
  rect3 h w c a -> rect3 h w c b -> 0 < h -> 0 < w ->
  Np.add (Arr3 a) (Arr3 b) = Ok (Arr3 (add_same3 a b)).
Proof.
  intros Ha Hb Hh Hw. unfold Np.add, Np.binary.
  by rewrite (broadcast3_same _ h w c).
Qed.

(** *** The Gaussian pyramid *)

Lemma gaussian_loop_levels n : forall (pre : list Level) (level : Level),
  gaussian_loop n (pre ++ [level]) = pre ++ level :: down_levels n level.
Proof.
  induction n as [|n IH]; intros pre level; simpl; [done|].
  rewrite last_last. rewrite (IH (pre ++ [level])). by rewrite <- app_assoc.
Qed.

Lemma gaussian_pyramid_levels (images : Stack) (levels : Z) :
  gaussian_pyramid images levels
  = map Arr3 images :: down_levels (Z.to_nat levels) (map Arr3 images).
Proof.
  unfold gaussian_pyramid. rewrite astype4_float32.
  apply (gaussian_loop_levels _ []).
Qed.

Lemma down_levels_regular c n : forall (images : Stack) h w,
  Forall (rect3 h w c) images -> 0 < h -> 0 < w -> c <> 1 ->
  down_levels n (map Arr3 images) = map (map Arr3) (down_stacks n images).
Proof.
  induction n as [|n IH]; intros images h w Himgs Hh Hw Hc; [done|].
  cbn [down_levels down_stacks map].
  assert (Hstep : map Cv2.pyrDown (map Arr3 images)
                  = map Arr3 (map Cv2.pyrDown_mat images)).
  { rewrite !map_map. apply map_ext_in. intros img Hin%list_elem_of_In.
    apply (pyrDown_Arr3 h w c); [|done..].
    by apply (proj1 (list.Forall_forall _ _) Himgs). }
  rewrite Hstep. f_equal.
  destruct (half_up_bounds h Hh) as [Hh' _].
  destruct (half_up_bounds w Hw) as [Hw' _].
  apply (IH _ ((h + 1) / 2) ((w + 1) / 2)); [|done..].
  by apply Forall_rect3_pyrDown.
Qed.

Lemma gaussian_pyramid_regular c (images : Stack) (levels : Z) h w :
  Forall (rect3 h w c) images -> 0 < h -> 0 < w -> c <> 1 ->
  gaussian_pyramid images levels
  = map (map Arr3) (images :: down_stacks (Z.to_nat levels) images).
Proof.
  intros Himgs Hh Hw Hc. rewrite gaussian_pyramid_levels.
  by rewrite (down_levels_regular c _ images h w).
Qed.

(** *** The Laplacian pyramid *)

Lemma laplacian_level_regular h w c (gauss coarser : Stack) : forall acc,
  Forall (rect3 h w c) gauss ->
  Forall (rect3 ((h + 1) / 2) ((w + 1) / 2) c) coarser ->
  0 < h -> 0 < w -> c <> 1 ->
  for_each (zip (map Arr3 gauss) (map Arr3 coarser)) acc
    (fun '(gauss_layer, coarse_layer) level_array =>
       let expanded := fit_to (Cv2.pyrUp coarse_layer) gauss_layer in
       let* detail := Np.sub gauss_layer expanded in
       Ok (level_array ++ [detail]))
  = Ok (acc ++ map Arr3 (detail_stack gauss coarser)).
Proof.
  intros acc Hg Hc Hh Hw Hc1. revert coarser acc Hc.
  destruct (half_up_bounds h Hh) as [Hh' Hhb].
  destruct (half_up_bounds w Hw) as [Hw' Hwb].
  induction Hg as [|gl gauss Hgl Hg IH]; intros coarser acc Hc.
  { simpl. by rewrite app_nil_r. }
  destruct Hc as [|cl coarser Hcl Hc]; [simpl; by rewrite app_nil_r|].
  cbn [map zip zip_with for_each].
  rewrite (pyrUp_Arr3 ((h + 1) / 2) ((w + 1) / 2) c) by done.
  rewrite fit_to_Arr3.
  rewrite (sub_Arr3 h w c); [|done| |done|done]; cycle 1.
  { apply (rect3_fit_to h w c (2 * ((h + 1) / 2)) (2 * ((w + 1) / 2)));
      [|done|done|done|lia|lia].
    by apply rect3_pyrUp. }
  cbn [bind]. rewrite IH by done.
  unfold detail_stack. cbn [zip_with map]. by rewrite <- app_assoc.
Qed.

Lemma level_dims_step n : forall h w j d,
  level_dims n h w !! j = Some d -> j < n ->
  level_dims n h w !! S j = Some ((d.1 + 1) / 2, (d.2 + 1) / 2).
Proof.
  induction n as [|n IH]; intros h w j d Hd Hj; [lia|].
  destruct j as [|j].
  - cbn [level_dims] in *. simplify_eq/=. by destruct n.
  - cbn [level_dims] in *. simpl in Hd. simpl. apply IH; [done|lia].
Qed.

Lemma for_each_map {A B} (g : A -> result B) (g' : A -> B) (xs : list A) :
  forall init,
  (forall x, x ∈ xs -> g x = Ok (g' x)) ->
  for_each xs init (fun x s => let* d := g x in Ok (s ++ [d]))
  = Ok (init ++ map g' xs).
Proof.
  induction xs as [|x xs IH]; intros init Hg; simpl.
  - by rewrite app_nil_r.
  - rewrite Hg by left. simpl. rewrite IH.
    + by rewrite <- app_assoc.
    + intros y Hy. apply Hg. by right.
Qed.

Lemma last_map_default {A B} (f : A -> B) (l : list A) (d : A) :
  List.last (map f l) (f d) = f (List.last l d).
Proof.
  induction l as [|x l IH]; [done|]. destruct l as [|y l]; [done|].
  exact IH.
Qed.

Lemma last_map_Arr3 (levels : list Stack) :
  List.last (map (map Arr3) levels) [] = map Arr3 (List.last levels []).
Proof. apply (last_map_default (map Arr3) levels []). Qed.

Lemma length_down_stacks n : forall images, length (down_stacks n images) = n.
Proof. induction n as [|n IH]; intros images; simpl; [done|]. by rewrite IH. Qed.

Lemma length_level_dims n : forall h w, length (level_dims n h w) = S n.
Proof. induction n as [|n IH]; intros h w; simpl; [done|]. by rewrite IH. Qed.

Lemma gaussian_levels_shapes c n : forall (images : Stack) h w,
  Forall (rect3 h w c) images -> 0 < h -> 0 < w ->
  Forall2 (fun d level => length level = length images
                          /\ Forall (rect3 d.1 d.2 c) level /\ 0 < d.1 /\ 0 < d.2)
          (level_dims n h w) (images :: down_stacks n images).
Proof.
  induction n as [|n IH]; intros images h w Himgs Hh Hw.
  - simpl. by repeat constructor.
  - cbn [down_stacks level_dims].
    destruct (half_up_bounds h Hh) as [Hh' _].
    destruct (half_up_bounds w Hw) as [Hw' _].
    constructor; [done|].
    specialize (IH (map Cv2.pyrDown_mat images) _ _
                  (Forall_rect3_pyrDown h w c images Himgs Hh Hw) Hh' Hw').
    rewrite length_map in IH. exact IH.
Qed.

Lemma laplacian_pyramid_regular c (images : Stack) (levels : Z) h w :
  Forall (rect3 h w c) images -> 0 < h -> 0 < w -> c <> 1 ->
  laplacian_pyramid images levels
  = Ok (map (map Arr3)
          (detail_levels (images :: down_stacks (Z.to_nat levels) images))).
Proof.
  intros Himgs Hh Hw Hc. unfold laplacian_pyramid.
  rewrite (gaussian_pyramid_regular c images levels h w) by done.
  set (G := images :: down_stacks (Z.to_nat levels) images).
  pose proof (gaussian_levels_shapes c (Z.to_nat levels) images h w Himgs Hh Hw)
    as Hshapes. fold G in Hshapes.
  assert (HlenG : length G = S (Z.to_nat levels)).
  { unfold G. simpl. by rewrite length_down_stacks. }
  rewrite length_map.
  rewrite (for_each_map _ (fun level =>
             map Arr3 (detail_stack (default [] (G !! (level - 1)))
                                    (default [] (G !! level))))).
  - cbn [bind]. f_equal. rewrite rev_app_distr. cbn [rev app].
    rewrite <- map_rev, rev_involutive.
    rewrite <- (detail_levels_indexed G) by done.
    rewrite map_app, map_map. cbn [map]. f_equal.
    by rewrite last_map_Arr3.
  - intros level Hl. apply list_elem_of_In in Hl. apply in_rev in Hl.
    apply in_seq in Hl.
    destruct (lookup_lt_is_Some_2 G (level - 1)) as [g Hg]; [lia|].
    destruct (lookup_lt_is_Some_2 G level) as [g' Hg']; [lia|].
    destruct (lookup_lt_is_Some_2 (level_dims (Z.to_nat levels) h w) (level - 1))
      as [d Hd]; [rewrite length_level_dims; lia|].
    pose proof (level_dims_step _ _ _ _ _ Hd ltac:(lia)) as Hd'.
    replace (S (level - 1)) with level in Hd' by lia.
    pose proof (Forall2_lookup_lr _ _ _ _ _ _ Hshapes Hd Hg) as (_ & Hrg & Hdh & Hdw).
    pose proof (Forall2_lookup_lr _ _ _ _ _ _ Hshapes Hd' Hg') as (_ & Hrg' & _).
    rewrite !list_lookup_fmap, Hg, Hg'. cbn [fmap option_fmap option_map default].
    unfold laplacian_level, id.
    exact (laplacian_level_regular d.1 d.2 c g g' [] Hrg Hrg' Hdh Hdw Hc).
Qed.

(** *** Collapse *)

Lemma for_each_app {A S} (body : A -> S -> result S) (xs ys : list A) :
  forall s,
  for_each (xs ++ ys) s body
  = let* s' := for_each xs s body in for_each ys s' body.
Proof.
  induction xs as [|x xs IH]; intros s; simpl; [done|].
  destruct (body x s); simpl; [apply IH|done].
Qed.

Lemma collapse_cons (layer : ndarray) (rest : list ndarray) :
  rest <> [] ->
  collapse (layer :: rest)
  = let* image := collapse rest in Np.add (fit_to (Cv2.pyrUp image) layer) layer.
Proof.
  intros Hne. destruct rest as [|next rest]; [done|].
  unfold collapse.
  change (removelast (layer :: next :: rest))
    with (layer :: removelast (next :: rest)).
  change (List.last (layer :: next :: rest) (Arr2 []))
    with (List.last (next :: rest) (Arr2 [])).
  cbn [rev]. rewrite for_each_app.
  destruct (for_each _ _ _) as [image|e]; simpl; [|done].
  by destruct (Np.add _ _).
Qed.

Lemma collapse_regular c n : forall h w (pyramid : list Image),
  0 < h -> 0 < w -> c <> 1 ->
  Forall2 (fun d f => rect3 d.1 d.2 c f) (level_dims n h w) pyramid ->
  collapse (map Arr3 pyramid) = Ok (Arr3 (collapse_levels pyramid)).
Proof.
  induction n as [|n IH]; intros h w pyramid Hh Hw Hc Hf.
  - simpl in Hf. apply Forall2_cons_inv_l in Hf as (f & rest & Hr & Hrest & ->).
    apply Forall2_nil_inv_l in Hrest as ->. done.
  - cbn [level_dims] in Hf.
    apply Forall2_cons_inv_l in Hf as (f & rest & Hr & Hrest & ->).
    destruct (half_up_bounds h Hh) as [Hh' Hhb].
    destruct (half_up_bounds w Hw) as [Hw' Hwb].
    assert (Hne : rest <> []).
    { intros ->. apply Forall2_nil_inv_r in Hrest.
      by eapply level_dims_nonempty. }
    cbn [map]. rewrite collapse_cons; cycle 1.
    { intros Hnil%(f_equal length). rewrite length_map in Hnil.
      by apply Hne, nil_length_inv. }
    rewrite (IH _ _ rest Hh' Hw' Hc Hrest). cbn [bind].
    pose proof (collapse_levels_shape c n _ _ rest Hh' Hw' Hrest) as Hcoarse.
    rewrite (pyrUp_Arr3 ((h + 1) / 2) ((w + 1) / 2) c) by done.
    rewrite fit_to_Arr3.
    rewrite (add_Arr3 h w c); [|  |done|done|done].
    + by rewrite collapse_levels_cons.
    + apply (rect3_fit_to h w c (2 * ((h + 1) / 2)) (2 * ((w + 1) / 2)));
        [|done|done|done|lia|lia].
      by apply rect3_pyrUp.
Qed.

(** *** Fusion of the levels *)

Lemma fuse_level_regular (fuse : Stack -> result Image) (stack : Stack) :
  fuse_level fuse (map Arr3 stack)
  = let* fused := fuse stack in Ok (Arr3 fused).
Proof.
  assert (Hmat : map Cv2.to_mat (map Arr3 stack) = stack).
  { rewrite map_map. by apply map_id_ext. }
  unfold fuse_level. destruct stack as [|img rest]; [done|].
  change (map Arr3 (img :: rest)) with (Arr3 img :: map Arr3 rest) in *.
  by rewrite Hmat.
Qed.

Lemma Forall2_Arr3 {A} (Q : A -> Image -> Prop) (xs : list A) (ds : list ndarray) :
  Forall2 (fun x f => exists img, f = Arr3 img /\ Q x img) xs ds ->
  exists imgs, ds = map Arr3 imgs /\ Forall2 Q xs imgs.
Proof.
  induction 1 as [|x f xs ds (img & -> & Hq) _ (imgs & -> & IH)].
  - by exists [].
  - exists (img :: imgs). split; [done|]. by constructor.
Qed.

Lemma fuse_pyramids_shapes ln dt c kernel_size (dims : list (nat * nat))
    (pyramids : list Stack) :
  pyramids <> [] -> Forall2 (level_ok c) dims pyramids ->
  exists fusion,
    fuse_pyramids ln dt (map (map Arr3) pyramids) kernel_size
    = Ok (map Arr3 fusion)
    /\ Forall2 (fun d f => rect3 d.1 d.2 c f) dims fusion.
Proof.
  intros Hne Hlevels. unfold fuse_pyramids.
  destruct pyramids as [|top rest] eqn:Hp; [done|]. rewrite <- Hp in *.
  assert (Hmap : exists t r, map (map Arr3) pyramids = t :: r).
  { rewrite Hp. simpl. eauto. }
  destruct Hmap as (t & r & Hmap). rewrite Hmap. rewrite <- Hmap.
  clear Hp Hmap top rest t r.
  pose proof (list.Forall2_length _ _ _ Hlevels) as Hlen.
  assert (Hpos : 0 < length pyramids) by (destruct pyramids; simpl; [done|lia]).
  rewrite length_map.
  set (m := length pyramids - 1).
  destruct (lookup_lt_is_Some_2 pyramids m) as [coarsest Hcoarsest]; [lia|].
  destruct (lookup_lt_is_Some_2 dims m) as [dm Hdm]; [lia|].
  pose proof (Forall2_lookup_lr _ _ _ _ _ _ Hlevels Hdm Hcoarsest)
    as (Hcne & Hcrect & Hch & Hcw).
  rewrite last_map_Arr3.
  rewrite (last_lookup_default pyramids [] coarsest Hcoarsest).
  rewrite fuse_level_regular.
  destruct (get_fused_base_shape ln dt coarsest kernel_size dm.1 dm.2 c)
    as (base & -> & Hbase); [done..|].
  cbn [bind].
  destruct (for_each_append
              (fun layer => fuse_level get_fused_laplacian
                              (default [] (map (map Arr3) pyramids !! layer)))
              (fun layer f => exists img, f = Arr3 img /\
                 forall d, dims !! layer = Some d -> rect3 d.1 d.2 c img)
              (rev (seq 0 m)) [Arr3 base]) as (ds & -> & Hds).
  { apply Forall_rev, list.Forall_forall. intros layer Hl%elem_of_seq.
    destruct (lookup_lt_is_Some_2 pyramids layer) as [lvl Hlvl]; [lia|].
    destruct (lookup_lt_is_Some_2 dims layer) as [d Hd]; [lia|].
    pose proof (Forall2_lookup_lr _ _ _ _ _ _ Hlevels Hd Hlvl)
      as (Hlne & Hlrect & Hlh & Hlw).
    rewrite list_lookup_fmap, Hlvl. simpl. rewrite fuse_level_regular.
    destruct (get_fused_laplacian_shape lvl d.1 d.2 c) as (f & -> & Hf); [done..|].
    exists (Arr3 f). split; [done|]. exists f. split; [done|].
    intros d' Hd'. by simplify_eq. }
  cbn [bind].
  apply Forall2_Arr3 in Hds as (imgs & -> & Hds).
  exists (rev (base :: imgs)). split.
  { f_equal. change (Arr3 base :: map Arr3 imgs) with (map Arr3 (base :: imgs)).
    by rewrite map_rev. }
  cbn [rev].
  apply Forall2_rev in Hds. rewrite rev_involutive in Hds.
  pose proof (list.Forall2_length _ _ _ Hds) as Hlen'. rewrite length_seq in Hlen'.
  apply Forall2_same_length_lookup_2.
  { rewrite length_app. simpl. lia. }
  intros i d f Hd Hf.
  destruct (decide (i < m)) as [Hi|Hi].
  - rewrite lookup_app_l in Hf by lia.
    assert (Hseq : seq 0 m !! i = Some i) by by apply lookup_seq_lt.
    by apply (Forall2_lookup_lr _ _ _ _ _ _ Hds Hseq Hf).
  - pose proof (lookup_lt_Some _ _ _ Hd) as Hilt.
    assert (i = m) as -> by lia.
    rewrite lookup_app_r, <- Hlen', Nat.sub_diag in Hf by lia.
    simpl in Hf. by simplify_eq.
Qed.

(** ** The pyramids of a stack *)

Lemma length_detail_levels (gaussian : list Stack) :
  length (detail_levels gaussian) = length gaussian.
Proof.
  induction gaussian as [|g rest IH]; [done|].
  destruct rest as [|g' rest]; [done|].
  change (detail_levels (g :: g' :: rest))
    with (detail_stack g g' :: detail_levels (g' :: rest)).
  simpl in *. by rewrite IH.
Qed.

Lemma last_detail_levels (gaussian : list Stack) :
  List.last (detail_levels gaussian) [] = List.last gaussian [].
Proof.
  induction gaussian as [|g rest IH]; [done|].
  destruct rest as [|g' rest]; [done|].
  change (detail_levels (g :: g' :: rest))
    with (detail_stack g g' :: detail_levels (g' :: rest)).
  change (List.last (g :: g' :: rest) []) with (List.last (g' :: rest) []).
  rewrite <- IH.
  destruct (detail_levels (g' :: rest)) eqn:Hd; [|done].
  by apply detail_levels_nonempty in Hd.
Qed.

Lemma lookup_detail_levels (gaussian : list Stack) : forall j g g',
  gaussian !! j = Some g -> gaussian !! S j = Some g' ->
  detail_levels gaussian !! j = Some (detail_stack g g').
Proof.
  induction gaussian as [|g0 rest IH]; intros j g g' Hg Hg'; [done|].
  destruct rest as [|g1 rest]; [done|].
  change (detail_levels (g0 :: g1 :: rest))
    with (detail_stack g0 g1 :: detail_levels (g1 :: rest)).
  destruct j as [|j]; [by simplify_eq/=|].
  simpl. apply IH; done.
Qed.

Lemma detail_levels_layers c n : forall (images : Stack) h w,
  Forall (rect3 h w c) images -> 0 < h -> 0 < w ->
  Forall2 (fun d level => length level = length images
                          /\ Forall (rect3 d.1 d.2 c) level)
          (level_dims n h w) (detail_levels (images :: down_stacks n images)).
Proof.
  induction n as [|n IH]; intros images h w Himgs Hh Hw.
  - simpl. by repeat constructor.
  - cbn [down_stacks level_dims].
    change (detail_levels (images :: map Cv2.pyrDown_mat images
                             :: down_stacks n (map Cv2.pyrDown_mat images)))
      with (detail_stack images (map Cv2.pyrDown_mat images)
              :: detail_levels (map Cv2.pyrDown_mat images
                                  :: down_stacks n (map Cv2.pyrDown_mat images))).
    destruct (half_up_bounds h Hh) as [Hh' _].
    destruct (half_up_bounds w Hw) as [Hw' _].
    constructor.
    + rewrite laplacian_level_map, length_map. split; [done|]. simpl.
      apply Forall_map. eapply Forall_impl; [|exact Himgs].
      intros img Hr. simpl.
      apply (reconstruct_step h w c img (Cv2.pyrDown_mat img)); [done..|].
      by apply rect3_pyrDown.
    + specialize (IH (map Cv2.pyrDown_mat images) _ _
                    (Forall_rect3_pyrDown h w c images Himgs Hh Hw) Hh' Hw').
      rewrite length_map in IH. exact IH.
Qed.


Lemma slice_levels_shapes c (i : nat) (dims : list (nat * nat))
    (levels : list Stack) n :
  i < n ->
  Forall2 (fun d level => length level = n /\ Forall (rect3 d.1 d.2 c) level)
          dims levels ->
  Forall2 (fun d f => rect3 d.1 d.2 c f) dims
          (map (fun level => default [] (level !! i)) levels).
Proof.
  intros Hi Hl. induction Hl as [|d level dims levels [Hlen Hr] _ IH]; simpl.
  - constructor.
  - constructor; [|done].
    destruct (lookup_lt_is_Some_2 level i) as [f Hf]; [lia|].
    rewrite Hf. simpl. by apply (Forall_lookup_1 _ _ _ _ Hr Hf).
Qed.

(** A non-positive depth builds no level: the pyramid is the stack. *)
Lemma laplacian_pyramid_flat (images : Stack) (levels : Z) :
  (levels <= 0)%Z -> laplacian_pyramid images levels = Ok [map Arr3 images].
Proof.
  intros Hle. unfold laplacian_pyramid. rewrite gaussian_pyramid_levels.
  by replace (Z.to_nat levels) with 0 by lia.
Qed.




(** ** The downsample step *)

Lemma plane_merge h w (planes : list Plane) k p :
  planes !! k = Some p -> rect2 h w p -> Np.plane (Cv2.merge h w planes) k = p.
Proof.
  intros Hk Hp. apply (rect2_ext h w); [|done|].
  - apply (rect2_plane h w (length planes)), rect3_merge.
  - intros r c Hr Hc. rewrite get2_plane. unfold Cv2.merge.
    rewrite (get2_tabulate (fun r c => map (fun p => Np.at2 0%Qc p r c) planes))
      by done.
    simpl. rewrite list_lookup_fmap, Hk. simpl.
    destruct (rect2_get2 h w p r c Hp Hr Hc) as [v Hv].
    unfold Np.at2. by rewrite Hv.
Qed.

Lemma rect2_pyrDown2 h w (p : Plane) :
  Np.shape2 p = (h, w) -> rect2 ((h + 1) / 2) ((w + 1) / 2) (Cv2.pyrDown2 p).
Proof.
  intros Hs. unfold Cv2.pyrDown2. rewrite Hs. apply rect2_tabulate.
Qed.

Lemma pyrDown2_blur_decimate (p : Plane) :
  Cv2.pyrDown2 p = Np.decimate (convolve p (generating_kernel (qfrac 3 8))).
Proof.
  unfold convolve, Cv2.filter2D, Cv2.pyrDown2.
  destruct (Np.shape2 p) as [h w] eqn:Hs.
  change (Np.shape2 (generating_kernel (qfrac 3 8))) with (5, 5).
  cbv beta iota.
  rewrite (decimate_tabulate (fun y x =>
    Np.sum (flat_map (fun i => map (fun j =>
      (Np.at2 0 (generating_kernel (qfrac 3 8)) i j *
       Cv2.tap 0 p (Z.of_nat y + Z.of_nat i - Z.of_nat (5 / 2))
                   (Z.of_nat x + Z.of_nat j - Z.of_nat (5 / 2)))%Qc)
      (seq 0 5)) (seq 0 5)))).
  apply map_ext. intros y. apply map_ext. intros x.
  rewrite (binomial_sum_kernel_sum (fun di dj =>
    Cv2.tap 0%Qc p (2 * Z.of_nat y + di)%Z (2 * Z.of_nat x + dj)%Z)).
  apply f_equal. apply flat_map_ext. intros i. apply map_ext. intros j.
  change (5 / 2) with 2.
  replace (Z.of_nat (2 * y) + Z.of_nat i - Z.of_nat 2)%Z
    with (2 * Z.of_nat y + (Z.of_nat i - 2))%Z by lia.
  replace (Z.of_nat (2 * x) + Z.of_nat j - Z.of_nat 2)%Z
    with (2 * Z.of_nat x + (Z.of_nat j - 2))%Z by lia.
  reflexivity.
Qed.

(** C5 (amended).  The downsample step of [gaussian_pyramid] is
    [cv2.pyrDown] applied to every layer.  On every channel it equals the
    correlation with the 5x5 kernel [generating_kernel(0.375)], the outer
    product of [1, 4, 6, 4, 1] / 16 with itself, under mirror reflection
    that does not repeat the edge sample, followed by keeping every second
    row and column; the output has [ceil(dim / 2)] rows and columns and the
    channel count of the input, and the Python binding returns the one
    channel of a single-channel result as a 2-D array. *)
Theorem pyrDown_is_binomial_blur_decimate (images : Stack) (levels : Z)
    (img : Image) (h w c k : nat) :
  rect3 h w c img -> 0 < h -> 0 < w -> k < c ->
  gaussian_pyramid images levels
  = map Arr3 images :: down_levels (Z.to_nat levels) (map Arr3 images)
  /\ Np.plane (Cv2.pyrDown_mat img) k
     = Np.decimate (convolve (Np.plane img k) (generating_kernel (qfrac 3 8)))
  /\ rect3 ((h + 1) / 2) ((w + 1) / 2) c (Cv2.pyrDown_mat img)
  /\ Cv2.pyrDown (Arr3 img)
     = (if c =? 1 then Arr2 (Np.plane (Cv2.pyrDown_mat img) 0)
        else Arr3 (Cv2.pyrDown_mat img))
  /\ h <= 2 * ((h + 1) / 2) <= h + 1
  /\ w <= 2 * ((w + 1) / 2) <= w + 1.
Proof.
  intros Hr Hh Hw Hk. split; [apply gaussian_pyramid_levels|].
  destruct (half_up_bounds h Hh) as [Hh' Hhb].
  destruct (half_up_bounds w Hw) as [Hw' Hwb].
  split; [|split; [by apply rect3_pyrDown|split; [|lia]]].
  - unfold Cv2.pyrDown_mat.
    rewrite (split_planes h w c), (rect3_shape3 h w c) by done.
    rewrite <- pyrDown2_blur_decimate.
    apply plane_merge.
    + rewrite !list_lookup_fmap, lookup_seq_lt by done. done.
    + apply rect2_pyrDown2. apply rect2_shape2; [|done].
      by apply (rect2_plane h w c).
  - destruct (Nat.eqb_spec c 1) as [->|Hc].
    + unfold Cv2.pyrDown. simpl.
      apply (from_mat_single ((h + 1) / 2) ((w + 1) / 2)); [|done..].
      by apply rect3_pyrDown.
    + by apply (pyrDown_Arr3 h w c).
Qed.

Lemma pyrDown_is_binomial_blur_decimate_witness :
  Np.plane (Cv2.pyrDown_mat impulse) 0
  = Np.decimate (convolve (Np.plane impulse 0) (generating_kernel (qfrac 3 8)))
  /\ rect3 3 3 1 (Cv2.pyrDown_mat impulse)
  /\ Cv2.pyrDown (Arr3 impulse) = Arr2 (Np.plane (Cv2.pyrDown_mat impulse) 0).
Proof.
  destruct (pyrDown_is_binomial_blur_decimate [impulse] 1 impulse 5 5 1 0)
    as (_ & Hplane & Hrect & Hbinding & _).
  - repeat constructor.
  - lia.
  - lia.
  - lia.
  - split; [exact Hplane | split; [exact Hrect | exact Hbinding]].
Defined.

(** C5 as stated fails: on the impulse image the centre of the first
    Gaussian level is 36 = 256 * (6/16)^2, where the blur with
    [generating_kernel(0.4)] would give 40.96 = 256 * 0.4^2. *)
Lemma gaussian_step_not_default_kernel :
  gaussian_pyramid [impulse] 1
  = [[Arr3 impulse]; [Arr2 (Np.plane (Cv2.pyrDown_mat impulse) 0)]]
  /\ this <$> Np.get2 (Np.plane (Cv2.pyrDown_mat impulse) 0) 1 1 = Some (36 # 1)
  /\ this <$> Np.get2 (Np.decimate (convolve (Np.plane impulse 0) default_kernel)) 1 1
     = Some (1024 # 25)
  /\ Np.plane (Cv2.pyrDown_mat impulse) 0
     <> Np.decimate (convolve (Np.plane impulse 0) default_kernel).
Proof.
  split.
  { rewrite gaussian_pyramid_levels. reflexivity. }
  split; [by vm_compute|]. split; [by vm_compute|].
  intros H. apply (f_equal (fun p => this <$> Np.get2 p 1 1)) in H.
  vm_compute in H. discriminate.
Qed.

(** ** The orchestrator *)

Lemma int_log2_ratio_small (side min_size : Z) :
  (0 < side)%Z -> (0 < min_size)%Z -> (side < 2 * min_size)%Z ->
  exists d, int_log2_ratio side min_size = Ok d /\ (d <= 0)%Z.
Proof.
  intros Hs Hm Hlt. unfold int_log2_ratio.
  destruct (Z.eqb_spec min_size 0) as [|_]; [lia|].
  destruct (Z.eqb_spec side 0) as [|_]; [lia|].
  destruct (Z.ltb_spec min_size 0) as [|_]; [lia|].
  destruct (Z.leb_spec min_size side) as [Hle|Hgt].
  - eexists. split; [done|].
    assert (Hq : (side / min_size = 1)%Z).
    { symmetry. apply Z.div_unique with (r := (side - min_size)%Z); lia. }
    by rewrite Hq.
  - eexists. split; [done|].
    pose proof (Z.log2_nonneg (min_size / side)). lia.
Qed.

Lemma fusion_depth_of_first (images : Stack) (first : Image) h w c min_size :
  images !! 0 = Some first -> rect3 h w c first -> 0 < h -> 0 < w ->
  fusion_depth images min_size = int_log2_ratio (Z.of_nat (Nat.min h w)) min_size.
Proof.
  intros Hfirst Hr Hh Hw. unfold fusion_depth.
  by rewrite Hfirst, (rect3_shape3 h w c).
Qed.

(** With a non-positive depth the orchestrator is the base-band fusion of
    the stack, taken as [float32]. *)
Lemma get_pyramid_fusion_flat ln (images : Stack) (min_size d : Z) :
  fusion_depth images min_size = Ok d -> (d <= 0)%Z ->
  get_pyramid_fusion ln images min_size
  = let* fused := get_fused_base ln float32 images 5 in Ok (Arr3 fused).
Proof.
  intros Hd Hle. unfold get_pyramid_fusion. rewrite Hd. cbn [bind].
  rewrite laplacian_pyramid_flat by done. cbn [bind].
  unfold fuse_pyramids. cbn [List.last length Nat.sub seq rev for_each].
  rewrite fuse_level_regular.
  destruct (get_fused_base ln float32 images 5) as [base|e]; done.
Qed.

Lemma get_pyramid_fusion_shape ln (images : Stack) h w c (min_size : Z) :
  images <> [] -> Forall (rect3 h w c) images -> 0 < h -> 0 < w ->
  (0 < min_size)%Z ->
  c <> 1 \/ (Z.of_nat (Nat.min h w) < 2 * min_size)%Z ->
  exists fused,
    get_pyramid_fusion ln images min_size = Ok (Arr3 fused) /\ rect3 h w c fused.
Proof.
  intros Hne Himgs Hh Hw Hm Hcase.
  destruct images as [|first rest] eqn:Himages; [done|]. rewrite <- Himages in *.
  assert (Hfirst : images !! 0 = Some first) by by rewrite Himages.
  pose proof (Forall_lookup_1 _ _ _ _ Himgs Hfirst) as Hrf.
  pose proof (fusion_depth_of_first images first h w c min_size Hfirst Hrf Hh Hw)
    as Hdepth.
  destruct Hcase as [Hc|Hsmall].
  - unfold get_pyramid_fusion. rewrite Hdepth.
    destruct (int_log2_ratio_ok (Z.of_nat (Nat.min h w)) min_size)
      as [depth ->]; [lia|done|].
    cbn [bind]. rewrite (laplacian_pyramid_regular c images depth h w) by done.
    cbn [bind].
    pose proof (detail_levels_shapes c (Z.to_nat depth) images h w Hne Himgs Hh Hw)
      as Hlevels.
    destruct (fuse_pyramids_shapes ln float32 c 5 _ _
                (detail_levels_nonempty _ _) Hlevels)
      as (fusion & -> & Hfusion).
    cbn [bind].
    rewrite (collapse_regular c (Z.to_nat depth) h w) by done.
    eexists. split; [reflexivity|].
    by apply (collapse_levels_shape c (Z.to_nat depth)).
  - destruct (int_log2_ratio_small (Z.of_nat (Nat.min h w)) min_size)
      as (d & Hd & Hle); [lia|done|done|].
    rewrite (get_pyramid_fusion_flat ln images min_size d) by congruence.
    destruct (get_fused_base_shape ln float32 images 5 h w c)
      as (fused & -> & Hfused); [done..|].
    by exists fused.
Qed.

Lemma asarray_same_shape h w c (images : list Image) :
  Forall (rect3 h w c) images -> 0 < h -> 0 < w -> Np.asarray images = Ok images.
Proof.
  intros Himgs Hh Hw. destruct images as [|first rest]; [done|]. simpl.
  apply Forall_cons_1 in Himgs as [Hfirst Hrest].
  assert (Hall : forallb (fun img => bool_decide (Np.shape3 img = Np.shape3 first))
                         rest = true).
  { apply forallb_forall. intros img Hin%list_elem_of_In.
    apply bool_decide_eq_true_2.
    pose proof (proj1 (list.Forall_forall _ _) Hrest img Hin) as Himg.
    by rewrite !(rect3_shape3 h w c). }
  by rewrite Hall.
Qed.




Lemma asarray_mismatch (first img : Image) (rest : list Image) :
  img ∈ rest -> Np.shape3 img <> Np.shape3 first ->
  Np.asarray (first :: rest) = Raise ValueError.
Proof.
  intros Hin Hne. simpl.
  destruct (forallb _ rest) eqn:Hall; [|done].
  rewrite forallb_forall in Hall.
  specialize (Hall img (proj1 (list_elem_of_In _ _) Hin)).
  by apply bool_decide_eq_true_1 in Hall.
Qed.

(** C7.  An empty stack and a stack with an image whose height, width or
    channel count differs from the first are both rejected with an
    exception and no image is returned.  The mismatch is raised by
    [np.asarray] in [stack_images], before [get_pyramid_fusion] is entered;
    the empty stack is raised by [images[0]], the first expression that
    [get_pyramid_fusion] evaluates. *)
Theorem invalid_stack_is_rejected (ln : Qc -> Qc) :
  (stack_images ln [] = Raise IndexError
   /\ forall min_size,
        fusion_depth [] min_size = Raise IndexError
        /\ get_pyramid_fusion ln [] min_size = Raise IndexError)
  /\ forall (first img : Image) (rest : list Image) (h w c h' w' c' : nat),
       rect3 h w c first -> rect3 h' w' c' img ->
       0 < h -> 0 < w -> 0 < h' -> 0 < w' ->
       img ∈ rest -> (h', w', c') <> (h, w, c) ->
       Np.asarray (first :: rest) = Raise ValueError
       /\ stack_images ln (first :: rest) = Raise ValueError.
Proof.
  split; [by repeat split|].
  intros first img rest h w c h' w' c' Hfirst Himg Hh Hw Hh' Hw' Hin Hne.
  assert (Hasarray : Np.asarray (first :: rest) = Raise ValueError).
  { apply (asarray_mismatch first img rest Hin).
    by rewrite (rect3_shape3 h w c first), (rect3_shape3 h' w' c' img). }
  split; [done|]. unfold stack_images. by rewrite Hasarray.
Qed.

Lemma invalid_stack_is_rejected_witness :
  Np.asarray [demo_a; demo_b; demo_narrow] = Raise ValueError
  /\ stack_images (fun _ => 1%Qc) [demo_a; demo_b; demo_narrow] = Raise ValueError.
Proof.
  destruct (invalid_stack_is_rejected (fun _ => 1%Qc)) as [_ H].
  apply (H demo_a demo_narrow [demo_b; demo_narrow] 2 2 1 1 2 1).
  - repeat constructor.
  - repeat constructor.
  - lia.
  - lia.
  - lia.
  - lia.
  - right. left.
  - intros [=].
Defined.

(** ** The selection criteria *)

Lemma to_uint8_lt (x : Qc) : to_uint8 x < 256.
Proof.
  unfold to_uint8.
  pose proof (Z.mod_pos_bound (Z.quot (Qnum (this x)) (Z.pos (Qden (this x)))) 256).
  lia.
Qed.

Lemma quantized_gray_channel (image : Image) channel :
  quantized (gray_channel image channel).
Proof.
  unfold quantized, gray_channel.
  apply Forall_map, Forall_forall. intros row _.
  apply Forall_map, Forall_forall. intros x _. apply to_uint8_lt.
Qed.

















(** ** The generating kernel and convolution *)

Lemma Qint_2_ones : Qint 2 = (1 + 1)%Qc.
Proof. by apply Qc_is_canon. Qed.

Lemma qfrac_quarter : qfrac 1 4 = (/ (1 + 1 + 1 + 1))%Qc.
Proof. by apply Qc_is_canon. Qed.

Lemma Qc_two_nonzero : (1 + 1)%Qc <> 0%Qc.
Proof. intros H. apply (f_equal this) in H. vm_compute in H. discriminate. Qed.

Lemma Qc_four_nonzero : (1 + 1 + 1 + 1)%Qc <> 0%Qc.
Proof. intros H. apply (f_equal this) in H. vm_compute in H. discriminate. Qed.

Lemma sum_app l1 l2 : Np.sum (l1 ++ l2) = (Np.sum l1 + Np.sum l2)%Qc.
Proof.
  induction l1 as [|x l1 IH]; simpl; [ring|]. rewrite IH. ring.
Qed.

Lemma generating_kernel_sum (a : Qc) (t : Qc) :
  Np.sum (flat_map (fun i => map (fun j =>
            (Np.at2 0 (generating_kernel a) i j * t)%Qc) (seq 0 5)) (seq 0 5))
  = t.
Proof.
  unfold generating_kernel, Np.outer.
  cbn -[Qcplus Qcmult Qcdiv Qcminus Qint qfrac].
  rewrite Qint_2_ones, qfrac_quarter.
  pose proof Qc_two_nonzero. pose proof Qc_four_nonzero. field. done.
Qed.

(** X1.  For every parameter [a], [generating_kernel(a)] is a 5x5 array
    whose weights sum to 1 and which is unchanged by transposition and by
    reversing its rows or its columns. *)
Theorem generating_kernel_normalised_symmetric (a : Qc) :
  rect2 5 5 (generating_kernel a)
  /\ Np.sum (concat (generating_kernel a)) = 1%Qc
  /\ (forall i j, Np.at2 0%Qc (generating_kernel a) i j
                  = Np.at2 0%Qc (generating_kernel a) j i)
  /\ (forall i j, i < 5 -> j < 5 ->
        Np.at2 0%Qc (generating_kernel a) (4 - i) j
        = Np.at2 0%Qc (generating_kernel a) i j
        /\ Np.at2 0%Qc (generating_kernel a) i (4 - j)
           = Np.at2 0%Qc (generating_kernel a) i j).
Proof.
  split; [|split; [|split]].
  - split; [done|]. unfold generating_kernel, Np.outer. by repeat constructor.
  - unfold generating_kernel, Np.outer.
    cbn -[Qcplus Qcmult Qcdiv Qcminus Qint qfrac].
    rewrite Qint_2_ones, qfrac_quarter.
    pose proof Qc_two_nonzero. pose proof Qc_four_nonzero. field. done.
  - intros i j. unfold generating_kernel, Np.outer.
    do 6 (destruct i as [|i]; [do 6 (destruct j as [|j]; [cbn -[Qcplus Qcmult Qcdiv Qcminus Qint qfrac]; ring|]); by destruct j|]).
    do 6 (destruct j as [|j]; [done|]). done.
  - intros i j Hi Hj. unfold generating_kernel, Np.outer.
    do 5 (destruct i as [|i]; [do 5 (destruct j as [|j]; [by split|]); lia|]).
    lia.
Qed.

Lemma tabulate_const {A} (x : A) h w :
  map (fun _ : nat => map (fun _ : nat => x) (seq 0 w)) (seq 0 h)
  = replicate h (replicate w x).
Proof.
  assert (Hrow : forall n s, map (fun _ : nat => x) (seq s n) = replicate n x).
  { induction n as [|n IH]; intros s; simpl; [done|]. by rewrite IH. }
  rewrite Hrow. generalize (replicate w x). intros row.
  generalize 0. induction h as [|h IH]; intros s; simpl; [done|]. by rewrite IH.
Qed.

Lemma rect2_replicate {A} (x : A) h w : rect2 h w (replicate h (replicate w x)).
Proof.
  split; [apply length_replicate|]. apply Forall_replicate, length_replicate.
Qed.

Lemma tap_const {A} (d x : A) h w (y z : Z) :
  0 < h -> 0 < w -> Cv2.tap d (replicate h (replicate w x)) y z = x.
Proof.
  intros Hh Hw. unfold Cv2.tap.
  rewrite (rect2_shape2 h w) by (apply rect2_replicate || done).
  unfold Np.at2, Np.get2.
  rewrite lookup_replicate_2 by by apply borderInterpolate_lt.
  by rewrite lookup_replicate_2 by by apply borderInterpolate_lt.
Qed.

Lemma rect2_filter2D h w (src kernel : Plane) :
  rect2 h w src -> 0 < h -> rect2 h w (Cv2.filter2D src kernel).
Proof.
  intros Hsrc Hh. unfold Cv2.filter2D. rewrite (rect2_shape2 h w) by done.
  destruct (Np.shape2 kernel) as [kh kw]. apply rect2_tabulate.
Qed.

(** X2.  [convolve] returns an array of the shape of its input, and with
    any [generating_kernel(a)] it leaves a constant image unchanged: the
    weights sum to 1 and the mirrored border only reads the image. *)
Theorem convolve_keeps_shape_and_constants (image : Plane) (a x : Qc) (h w : nat) :
  rect2 h w image -> 0 < h -> 0 < w ->
  (forall kernel, rect2 h w (convolve image kernel))
  /\ convolve (replicate h (replicate w x)) (generating_kernel a)
     = replicate h (replicate w x).
Proof.
  intros Himg Hh Hw. split.
  - intros kernel. by apply rect2_filter2D.
  - unfold convolve, Cv2.filter2D.
    rewrite (rect2_shape2 h w) by (apply rect2_replicate || done).
    change (Np.shape2 (generating_kernel a)) with (5, 5). cbv beta iota.
    rewrite <- tabulate_const.
    apply map_ext. intros r. apply map_ext. intros c.
    etransitivity; [|apply (generating_kernel_sum a x)].
    apply f_equal. apply flat_map_ext. intros i. apply map_ext. intros j.
    rewrite tabulate_const. by rewrite tap_const.
Qed.

Lemma convolve_keeps_shape_and_constants_witness :
  convolve (replicate 2 (replicate 3 (Qint 7))) (generating_kernel (qfrac 2 5))
  = replicate 2 (replicate 3 (Qint 7)).
Proof.
  apply (convolve_keeps_shape_and_constants
           (replicate 2 (replicate 3 0%Qc)) (qfrac 2 5) (Qint 7) 2 3).
  - repeat constructor.
  - lia.
  - lia.
Defined.

Lemma Qc_square_nonneg (x : Qc) : (0 <= x * x)%Qc.
Proof.
  destruct (Qclt_le_dec x 0) as [Hneg|Hpos].
  - replace (x * x)%Qc with ((- x) * (- x))%Qc by ring.
    assert (0 <= - x)%Qc.
    { apply Qclt_le_weak. apply Qclt_minus_iff in Hneg.
      by replace (0 + - x)%Qc with (- x)%Qc in Hneg by ring. }
    by apply Qcmult_nonneg_nonneg.
  - by apply Qcmult_nonneg_nonneg.
Qed.

Lemma sum_nonneg (l : list Qc) : Forall (fun x => (0 <= x)%Qc) l -> (0 <= Np.sum l)%Qc.
Proof.
  induction 1 as [|x l Hx Hl IH]; simpl; [apply Qcle_refl|].
  by apply Qcplus_nonneg_nonneg.
Qed.

Lemma default_kernel_nonneg i j : (0 <= Np.at2 0%Qc default_kernel i j)%Qc.
Proof.
  do 5 (destruct i as [|i];
        [do 5 (destruct j as [|j]; [by vm_compute|]); by vm_compute|]).
  by vm_compute.
Qed.

Lemma tap_square_nonneg (p : Plane) y z : (0 <= Cv2.tap 0%Qc (Np.square p) y z)%Qc.
Proof.
  unfold Cv2.tap. destruct (Np.shape2 (Np.square p)) as [h w].
  unfold Np.at2, Np.square. rewrite get2_map.
  destruct (Np.get2 p _ _) as [x|]; simpl; [apply Qc_square_nonneg|apply Qcle_refl].
Qed.

Lemma filter2D_nonneg (src kernel : Plane) (h w r c : nat) (v : Qc) :
  rect2 h w src -> 0 < h ->
  (forall i j, (0 <= Np.at2 0%Qc kernel i j)%Qc) ->
  (forall y z, (0 <= Cv2.tap 0%Qc src y z)%Qc) ->
  Np.get2 (Cv2.filter2D src kernel) r c = Some v -> (0 <= v)%Qc.
Proof.
  intros Hsrc Hh Hk Ht Hv.
  destruct (get2_lt h w _ r c v (rect2_filter2D h w src kernel Hsrc Hh) Hv)
    as [Hr Hc].
  unfold Cv2.filter2D in Hv. rewrite (rect2_shape2 h w) in Hv by done.
  destruct (Np.shape2 kernel) as [kh kw].
  rewrite (get2_tabulate (fun y x =>
    Np.sum (flat_map (fun i => map (fun j =>
      (Np.at2 0 kernel i j *
       Cv2.tap 0 src (Z.of_nat y + Z.of_nat i - Z.of_nat (kh / 2))
                     (Z.of_nat x + Z.of_nat j - Z.of_nat (kw / 2)))%Qc)
      (seq 0 kw)) (seq 0 kh)))) in Hv by done.
  injection Hv as <-. apply sum_nonneg.
  apply Forall_flat_map, Forall_forall. intros i _.
  apply Forall_map, Forall_forall. intros j _. simpl.
  by apply Qcmult_nonneg_nonneg.
Qed.

(** X3.  The region energy of a detail band has the shape of the band and
    is non-negative at every pixel. *)
Theorem region_energy_nonnegative (laplacian : Plane) (h w r c : nat) (v : Qc) :
  rect2 h w laplacian -> 0 < h ->
  Np.get2 (region_energy laplacian) r c = Some v ->
  rect2 h w (region_energy laplacian) /\ (0 <= v)%Qc.
Proof.
  intros Hlap Hh Hv.
  assert (Hsq : rect2 h w (Np.square laplacian)) by by apply rect2_map.
  split.
  - unfold region_energy, convolve. by apply rect2_filter2D.
  - apply (filter2D_nonneg (Np.square laplacian) default_kernel h w r c v);
      [done|done|apply default_kernel_nonneg|apply tap_square_nonneg|exact Hv].
Qed.

Lemma region_energy_nonnegative_witness :
  rect2 2 2 (region_energy (Np.plane demo_a 0))
  /\ (0 <= default 0 (Np.get2 (region_energy (Np.plane demo_a 0)) 1 1))%Qc.
Proof.
  destruct (Np.get2 (region_energy (Np.plane demo_a 0)) 1 1) as [v|] eqn:Hv.
  - apply (region_energy_nonnegative (Np.plane demo_a 0) 2 2 1 1 v).
    + repeat constructor.
    + lia.
    + exact Hv.
  - vm_compute in Hv. discriminate.
Defined.

(** ** Structure of the Gaussian and Laplacian pyramids *)

Lemma length_down_levels n : forall level, length (down_levels n level) = n.
Proof. induction n as [|n IH]; intros level; simpl; [done|]. by rewrite IH. Qed.

Lemma rect3_to_mat h w (p : Plane) :
  rect2 h w p -> rect3 h w 1 (Cv2.to_mat (Arr2 p)).
Proof.
  intros [Hl Hr]. simpl. split; [by rewrite length_map|].
  apply Forall_map. eapply Forall_impl; [|exact Hr].
  intros row Hrow. simpl. split; [by rewrite length_map|].
  apply Forall_map, Forall_forall. by intros x _.
Qed.

Lemma pyrDown_shape c j h w (a : ndarray) :
  has_shape (layer_shape c j (h, w)) a -> 0 < h -> 0 < w ->
  has_shape (layer_shape c (S j) ((h + 1) / 2, (w + 1) / 2)) (Cv2.pyrDown a).
Proof.
  intros Ha Hh Hw. unfold layer_shape in *. cbn [fst snd] in *.
  destruct (half_up_bounds h Hh) as [Hh' _].
  destruct (half_up_bounds w Hw) as [Hw' _].
  assert (Hsingle : forall m, rect3 h w 1 m ->
            has_shape [(h + 1) / 2; (w + 1) / 2]
                      (Cv2.from_mat (Cv2.pyrDown_mat m))).
  { intros m Hm.
    pose proof (rect3_pyrDown h w 1 m Hm Hh Hw) as Hd.
    rewrite (from_mat_single ((h + 1) / 2) ((w + 1) / 2)) by done.
    simpl. by apply (rect2_plane _ _ 1). }
  destruct (Nat.eqb_spec c 1) as [->|Hc]; cbn [andb] in *.
  - change (0 <? S j) with true. cbv iota.
    destruct (0 <? j); destruct a as [p|img]; simpl in Ha; try done.
    + unfold Cv2.pyrDown. apply Hsingle. by apply rect3_to_mat.
    + unfold Cv2.pyrDown. by apply Hsingle.
  - destruct a as [p|img]; simpl in Ha; [done|].
    rewrite (pyrDown_Arr3 h w c) by done. simpl. by apply rect3_pyrDown.
Qed.

Lemma down_levels_shapes c n : forall (level : Level) h w j0 j d lvl,
  Forall (has_shape (layer_shape c j0 (h, w))) level -> 0 < h -> 0 < w ->
  level_dims n h w !! j = Some d ->
  (level :: down_levels n level) !! j = Some lvl ->
  length lvl = length level
  /\ Forall (has_shape (layer_shape c (j0 + j) d)) lvl /\ 0 < d.1 /\ 0 < d.2.
Proof.
  induction n as [|n IH]; intros level h w j0 j d lvl Hlevel Hh Hw Hd Hlvl.
  - destruct j as [|j]; [|done]. simplify_eq/=. by rewrite Nat.add_0_r.
  - destruct j as [|j].
    + cbn [level_dims] in Hd. simplify_eq/=. by rewrite Nat.add_0_r.
    + change (level_dims n ((h + 1) / 2) ((w + 1) / 2) !! j = Some d) in Hd.
      change ((map Cv2.pyrDown level :: down_levels n (map Cv2.pyrDown level))
                !! j = Some lvl) in Hlvl.
      destruct (half_up_bounds h Hh) as [Hh' _].
      destruct (half_up_bounds w Hw) as [Hw' _].
      destruct (IH (map Cv2.pyrDown level) ((h + 1) / 2) ((w + 1) / 2)
                  (S j0) j d lvl) as (Hl & Hs & Hpos);
        [|done|done|done|done|].
      * apply Forall_map. eapply Forall_impl; [|exact Hlevel].
        intros a Ha. simpl. by apply pyrDown_shape.
      * rewrite length_map in Hl. replace (j0 + S j) with (S j0 + j) by lia.
        done.
Qed.

Lemma Forall_has_shape_Arr3 h w c (stack : Stack) :
  Forall (rect3 h w c) stack -> Forall (has_shape [h; w; c]) (map Arr3 stack).
Proof.
  intros Hs. apply Forall_map. eapply Forall_impl; [|exact Hs]. by intros img Hr.
Qed.

(** X4.  [gaussian_pyramid(images, levels)] has [max(levels, 0) + 1] levels;
    the first is the input stack itself and every further one is
    [pyrDown] of the level before, layer by layer.  Every level keeps the
    number of layers, and the height and width are halved, rounding up,
    from one level to the next.  For images of 2 to 512 channels every
    level keeps the channels; for single-channel images the layers of
    every level after the first are 2-D arrays, without a channel axis. *)
Theorem gaussian_pyramid_structure (images : Stack) (levels : Z) (h w c : nat) :
  Forall (rect3 h w c) images -> 0 < h -> 0 < w -> 1 <= c <= 512 ->
  let gaussian := gaussian_pyramid images levels in
  length gaussian = Z.to_nat levels + 1
  /\ gaussian !! 0 = Some (map Arr3 images)
  /\ (forall j level, gaussian !! j = Some level ->
        j < Z.to_nat levels -> gaussian !! S j = Some (map Cv2.pyrDown level))
  /\ (forall j d level,
        level_dims (Z.to_nat levels) h w !! j = Some d ->
        gaussian !! j = Some level ->
        length level = length images
        /\ Forall (has_shape (if (c =? 1) && (0 <? j)
                              then [d.1; d.2] else [d.1; d.2; c])) level
        /\ 0 < d.1 /\ 0 < d.2).
Proof.
  intros Himgs Hh Hw Hc gaussian. unfold gaussian.
  rewrite gaussian_pyramid_levels. split; [|split; [done|split]].
  - simpl. rewrite length_down_levels. lia.
  - generalize (Z.to_nat levels). intros n. generalize (map Arr3 images).
    clear. induction n as [|n IH]; intros first j level Hj Hlt; [lia|].
    destruct j as [|j]; [by simplify_eq/=|].
    cbn [down_levels] in *. simpl in Hj |- *. apply (IH _ j level Hj). lia.
  - intros j d level Hd Hlevel.
    destruct (down_levels_shapes c (Z.to_nat levels) (map Arr3 images) h w 0 j d
                level) as (Hlen & Hshape & Hpos); [|done..|].
    + unfold layer_shape. rewrite andb_false_r.
      by apply Forall_has_shape_Arr3.
    + rewrite length_map in Hlen. done.
Qed.

Lemma gaussian_pyramid_structure_witness :
  length (gaussian_pyramid [demo_a; demo_b] 3) = 4
  /\ gaussian_pyramid [demo_a; demo_b] 3 !! 0 = Some [Arr3 demo_a; Arr3 demo_b]
  /\ (forall level, gaussian_pyramid [demo_a; demo_b] 3 !! 1 = Some level ->
        Forall (has_shape [1; 1]) level).
Proof.
  destruct (gaussian_pyramid_structure [demo_a; demo_b] 3 2 2 1)
    as (Hlen & Hfirst & _ & Hshape).
  - repeat constructor.
  - lia.
  - lia.
  - lia.
  - split; [exact Hlen | split; [exact Hfirst|]].
    intros level Hlevel. by destruct (Hshape 1 (1, 1) level eq_refl Hlevel) as (_ & H & _).
Defined.

(** X5.  For images of 2 to 512 channels [laplacian_pyramid(images, levels)]
    returns as many levels as the Gaussian pyramid; its last level is the
    coarsest Gaussian level unchanged, and every other level [j] is what
    the loop body computes from the Gaussian levels [j] and [j + 1], layer
    by layer the Gaussian layer minus the fitted [pyrUp] of the coarser
    one.  Level [j] has the layers, the channels and the size of Gaussian
    level [j]. *)
Theorem laplacian_pyramid_structure (images : Stack) (levels : Z) (h w c : nat) :
  Forall (rect3 h w c) images -> 0 < h -> 0 < w -> 2 <= c <= 512 ->
  let gaussian := gaussian_pyramid images levels in
  exists pyramid,
    laplacian_pyramid images levels = Ok pyramid
    /\ length pyramid = Z.to_nat levels + 1
    /\ List.last pyramid [] = List.last gaussian []
    /\ (forall j g g', gaussian !! j = Some g -> gaussian !! S j = Some g' ->
          exists level, laplacian_level g g' = Ok level
                        /\ pyramid !! j = Some level)
    /\ (forall j d level,
          level_dims (Z.to_nat levels) h w !! j = Some d ->
          pyramid !! j = Some level ->
          length level = length images
          /\ Forall (has_shape [d.1; d.2; c]) level).
Proof.
  intros Himgs Hh Hw Hc gaussian. unfold gaussian.
  assert (Hc1 : c <> 1) by lia.
  rewrite (gaussian_pyramid_regular c images levels h w) by done.
  rewrite (laplacian_pyramid_regular c images levels h w) by done.
  set (G := images :: down_stacks (Z.to_nat levels) images).
  pose proof (gaussian_levels_shapes c (Z.to_nat levels) images h w Himgs Hh Hw)
    as Hshapes. fold G in Hshapes.
  pose proof (detail_levels_layers c (Z.to_nat levels) images h w Himgs Hh Hw)
    as Hlayers. fold G in Hlayers.
  eexists. split; [reflexivity|]. fold G. split; [|split; [|split]].
  - rewrite length_map, length_detail_levels. unfold G. simpl.
    rewrite length_down_stacks. lia.
  - rewrite !last_map_Arr3. by rewrite last_detail_levels.
  - intros j g g' Hg Hg'.
    rewrite list_lookup_fmap in Hg, Hg'.
    destruct (G !! j) as [gs|] eqn:Hgs; [|done].
    destruct (G !! S j) as [gs'|] eqn:Hgs'; [|done].
    simpl in Hg, Hg'. simplify_eq.
    destruct (lookup_lt_is_Some_2 (level_dims (Z.to_nat levels) h w) j)
      as [d Hd].
    { rewrite (list.Forall2_length _ _ _ Hshapes). by eapply lookup_lt_Some. }
    assert (Hj : j < Z.to_nat levels).
    { apply lookup_lt_Some in Hgs'. unfold G in Hgs'. simpl in Hgs'.
      rewrite length_down_stacks in Hgs'. lia. }
    pose proof (level_dims_step _ _ _ _ _ Hd Hj) as Hd'.
    pose proof (Forall2_lookup_lr _ _ _ _ _ _ Hshapes Hd Hgs)
      as (_ & Hrg & Hdh & Hdw).
    pose proof (Forall2_lookup_lr _ _ _ _ _ _ Hshapes Hd' Hgs') as (_ & Hrg' & _).
    exists (map Arr3 (detail_stack gs gs')). split.
    + exact (laplacian_level_regular d.1 d.2 c gs gs' [] Hrg Hrg' Hdh Hdw Hc1).
    + rewrite list_lookup_fmap.
      by rewrite (lookup_detail_levels G j gs gs').
  - intros j d level Hd Hlevel.
    rewrite list_lookup_fmap in Hlevel.
    destruct (detail_levels G !! j) as [stack|] eqn:Hstack; [|done].
    simpl in Hlevel. simplify_eq.
    pose proof (Forall2_lookup_lr _ _ _ _ _ _ Hlayers Hd Hstack) as [Hlen Hr].
    rewrite length_map. split; [done|]. by apply Forall_has_shape_Arr3.
Qed.

Lemma laplacian_pyramid_structure_witness :
  exists pyramid,
    laplacian_pyramid [demo_bgr_a; demo_bgr_b] 3 = Ok pyramid
    /\ length pyramid = 4
    /\ List.last pyramid [] = List.last (gaussian_pyramid [demo_bgr_a; demo_bgr_b] 3) [].
Proof.
  destruct (laplacian_pyramid_structure [demo_bgr_a; demo_bgr_b] 3 2 2 3)
    as (pyramid & Hp & Hlen & Hlast & _).
  - repeat constructor.
  - lia.
  - lia.
  - lia.
  - exists pyramid. split; [exact Hp | split; [exact Hlen | exact Hlast]].
Defined.

Lemma level_dims_last_lower n : forall h w k,
  k * 2 ^ n <= h -> k * 2 ^ n <= w ->
  exists hn wn, List.last (level_dims n h w) (0, 0) = (hn, wn)
                /\ k <= hn /\ k <= wn.
Proof.
  induction n as [|n IH]; intros h w k Hh Hw.
  - exists h, w. simpl in *. repeat split; lia.
  - cbn [level_dims].
    destruct (IH ((h + 1) / 2) ((w + 1) / 2) k) as (hn & wn & Hlast & Hhn & Hwn).
    + rewrite Nat.pow_succ_r' in Hh.
      apply Nat.div_le_lower_bound; [done|]. lia.
    + rewrite Nat.pow_succ_r' in Hw.
      apply Nat.div_le_lower_bound; [done|]. lia.
    + exists hn, wn. split; [|done].
      destruct (level_dims n ((h + 1) / 2) ((w + 1) / 2)) eqn:Hd; [|done].
      by apply level_dims_nonempty in Hd.
Qed.

Lemma Forall2_last {A B} (P : A -> B -> Prop) (l : list A) (k : list B) da db :
  Forall2 P l k -> l <> [] -> P (List.last l da) (List.last k db).
Proof.
  induction 1 as [|x y l k Hxy Hlk IH]; [done|]. intros _.
  destruct Hlk as [|x' y' l k Hxy' Hlk]; [done|].
  change (P (List.last (x' :: l) da) (List.last (y' :: k) db)).
  by apply IH.
Qed.

(** X6.  With the depth that [get_pyramid_fusion] computes, the coarsest
    level of the pyramid is not smaller than [min_size] on either side,
    provided the smaller side of the input is at least [min_size]; for
    images of 2 to 512 channels the coarsest level of the Laplacian
    pyramid has that size. *)
Theorem coarsest_band_at_least_min_size (images : Stack) (first : Image)
    (h w c : nat) (min_size : Z) :
  images !! 0 = Some first -> Forall (rect3 h w c) images ->
  0 < h -> 0 < w -> 2 <= c <= 512 ->
  (0 < min_size <= Z.of_nat (Nat.min h w))%Z ->
  exists depth hn wn pyramid,
    fusion_depth images min_size = Ok depth
    /\ List.last (level_dims (Z.to_nat depth) h w) (0, 0) = (hn, wn)
    /\ (min_size <= Z.of_nat (Nat.min hn wn))%Z
    /\ laplacian_pyramid images depth = Ok pyramid
    /\ Forall (has_shape [hn; wn; c]) (List.last pyramid []).
Proof.
  intros Hfirst Himgs Hh Hw Hc [Hm Hle].
  pose proof (Forall_lookup_1 _ _ _ _ Himgs Hfirst) as Hrf.
  unfold fusion_depth. rewrite Hfirst, (rect3_shape3 h w c) by done.
  set (side := Z.of_nat (Nat.min h w)) in *.
  unfold int_log2_ratio.
  destruct (Z.eqb_spec min_size 0) as [|_]; [lia|].
  destruct (Z.eqb_spec side 0) as [|_]; [lia|].
  destruct (Z.ltb_spec min_size 0) as [|_]; [lia|].
  destruct (Z.leb_spec min_size side) as [_|]; [|lia].
  set (depth := Z.log2 (side / min_size)).
  assert (Hq : (0 < side / min_size)%Z) by (apply Z.div_str_pos; lia).
  destruct (Z.log2_spec _ Hq) as [Hlo _]. fold depth in Hlo.
  pose proof (Z.log2_nonneg (side / min_size)) as Hd. fold depth in Hd.
  pose proof (Z.mul_div_le side min_size Hm) as Hdiv.
  assert (Hk : Z.to_nat min_size * 2 ^ Z.to_nat depth <= Nat.min h w).
  { apply Nat2Z.inj_le. rewrite Nat2Z.inj_mul, Nat2Z.inj_pow.
    rewrite !Z2Nat.id by lia. fold side. change (Z.of_nat 2) with 2%Z. nia. }
  destruct (level_dims_last_lower (Z.to_nat depth) h w (Z.to_nat min_size))
    as (hn & wn & Hlast & Hhn & Hwn); [lia|lia|].
  exists depth, hn, wn. eexists. split; [done|]. split; [done|].
  split; [lia|].
  split; [apply (laplacian_pyramid_regular c images depth h w); (done || lia)|].
  pose proof (detail_levels_layers c (Z.to_nat depth) images h w Himgs Hh Hw)
    as Hlevels.
  pose proof (Forall2_last _ _ _ (0, 0) [] Hlevels (level_dims_nonempty _ _ _))
    as [_ Hl].
  rewrite Hlast in Hl. rewrite last_map_Arr3.
  by apply Forall_has_shape_Arr3.
Qed.

Lemma coarsest_band_at_least_min_size_witness :
  exists depth hn wn pyramid,
    fusion_depth [Np.zeros3 9 12 2] 2 = Ok depth
    /\ List.last (level_dims (Z.to_nat depth) 9 12) (0, 0) = (hn, wn)
    /\ (2 <= Z.of_nat (Nat.min hn wn))%Z
    /\ laplacian_pyramid [Np.zeros3 9 12 2] depth = Ok pyramid
    /\ Forall (has_shape [hn; wn; 2]) (List.last pyramid []).
Proof.
  apply (coarsest_band_at_least_min_size [Np.zeros3 9 12 2] (Np.zeros3 9 12 2)).
  - reflexivity.
  - repeat constructor.
  - lia.
  - lia.
  - lia.
  - simpl. lia.
Defined.

(** ** Probabilities and local deviation *)

Lemma Qnat_le a b : a <= b -> (Qnat a <= Qnat b)%Qc.
Proof.
  intros Hab. unfold Qcle, Qnat. cbn [this Q2Qc]. rewrite !Qred_correct.
  unfold Qle. cbn [Qnum Qden inject_Z]. lia.
Qed.

Lemma Qcdiv_le_1 (a t : Qc) : (0 < t)%Qc -> (a <= t)%Qc -> (a / t <= 1)%Qc.
Proof.
  intros Ht Hat. unfold Qcdiv.
  replace 1%Qc with (t * / t)%Qc.
  - apply Qcmult_le_compat_r; [done|]. by apply Qclt_le_weak, Qcinv_pos.
  - apply Qcmult_inv_r. intros ->. by apply Qclt_not_eq in Ht.
Qed.

Lemma Qcdiv_nonneg (a t : Qc) : (0 <= a)%Qc -> (0 < t)%Qc -> (0 <= a / t)%Qc.
Proof.
  intros Ha Ht. unfold Qcdiv.
  apply Qcmult_nonneg_nonneg; [done|]. by apply Qclt_le_weak, Qcinv_pos.
Qed.

(** X7.  Every entry of [get_probabilities(image)] lies between 0 and 1,
    and the entry of a gray level is 0 exactly when the level does not
    occur in the image. *)
Theorem probability_zero_iff_absent (image : GrayImage) (h w v : nat) :
  rect2 h w image -> 0 < h -> 0 < w -> v < 256 ->
  exists p, get_probabilities image !! v = Some p
            /\ (0 <= p)%Qc /\ (p <= 1)%Qc
            /\ (p = 0%Qc <-> v ∉ concat image).
Proof.
  intros Himg Hh Hw Hv. exists (histogram_probability image v).
  split; [by apply get_probabilities_lookup|].
  assert (Hlen : 0 < length (concat image)).
  { rewrite (rect2_length_concat h w) by done. nia. }
  pose proof (count_occ_bound Nat.eq_dec v (concat image)) as Hbound.
  unfold histogram_probability. repeat split.
  - apply Qcdiv_nonneg; [|by apply Qnat_pos].
    change 0%Qc with (Qnat 0). apply Qnat_le. lia.
  - apply Qcdiv_le_1; [by apply Qnat_pos|by apply Qnat_le].
  - intros Hzero Hin.
    assert (Hcount : 0 < count_occ Nat.eq_dec (concat image) v).
    { apply count_occ_In. by apply list_elem_of_In. }
    assert (Hpos : (0 < Qnat (count_occ Nat.eq_dec (concat image) v)
                        / Qnat (length (concat image)))%Qc).
    { unfold Qcdiv. apply Qcmult_pos_pos; [by apply Qnat_pos|].
      apply Qcinv_pos. by apply Qnat_pos. }
    rewrite Hzero in Hpos. by apply Qclt_not_eq in Hpos.
  - intros Hnin.
    assert (Hcount : count_occ Nat.eq_dec (concat image) v = 0).
    { apply count_occ_not_In. intros Hin. apply Hnin. by apply list_elem_of_In. }
    rewrite Hcount. apply Qnat_0_div.
Qed.

Lemma probability_zero_iff_absent_witness :
  exists p, get_probabilities demo_gray !! 7 = Some p
            /\ (0 <= p)%Qc /\ (p <= 1)%Qc
            /\ (p = 0%Qc <-> 7 ∉ concat demo_gray).
Proof.
  apply (probability_zero_iff_absent demo_gray 2 3 7).
  - repeat constructor.
  - lia.
  - lia.
  - lia.
Defined.

Lemma sum_replicate_zero n : Np.sum (replicate n 0%Qc) = 0%Qc.
Proof. induction n as [|n IH]; simpl; [done|]. rewrite IH. ring. Qed.

Lemma sum_replicate n (x : Qc) : Np.sum (replicate n x) = (Qnat n * x)%Qc.
Proof.
  induction n as [|n IH]; simpl.
  - replace (Qnat 0) with 0%Qc by by apply Qc_is_canon. ring.
  - rewrite IH. replace (S n) with (1 + n) by lia. rewrite Qnat_add.
    replace (Qnat 1) with 1%Qc by by apply Qc_is_canon. ring.
Qed.

Lemma population_variance_nonneg (samples : list Qc) :
  samples <> [] -> (0 <= population_variance samples)%Qc.
Proof.
  intros Hne. unfold population_variance.
  apply Qcdiv_nonneg.
  - apply sum_nonneg, Forall_map, Forall_forall. intros x _. simpl.
    apply Qc_square_nonneg.
  - apply Qnat_pos. destruct samples; [done|simpl; lia].
Qed.

Lemma map_replicate {A B} (f : A -> B) n x :
  map f (replicate n x) = replicate n (f x).
Proof. induction n as [|n IH]; simpl; [done|]. by rewrite IH. Qed.

Lemma population_variance_constant n (x : Qc) :
  0 < n -> population_variance (replicate n x) = 0%Qc.
Proof.
  intros Hn. unfold population_variance.
  rewrite length_replicate, sum_replicate.
  assert (Hmean : (Qnat n * x / Qnat n)%Qc = x).
  { pose proof (Qnat_nonzero n Hn). field. done. }
  rewrite Hmean. rewrite map_replicate.
  replace ((x - x) * (x - x))%Qc with 0%Qc by ring.
  rewrite sum_replicate_zero. unfold Qcdiv. ring.
Qed.

Lemma constant_list {A} (l : list A) (x : A) :
  (forall y, y ∈ l -> y = x) -> l = replicate (length l) x.
Proof.
  induction l as [|y l IH]; intros Hall; simpl; [done|].
  rewrite <- IH by (intros z Hz; apply Hall; by right).
  f_equal. apply Hall. by left.
Qed.

Lemma singleton_elements {A} (l : list A) (d : A) :
  length l = 1 -> forall v, v ∈ l -> v = hd d l.
Proof.
  destruct l as [|x [|y l]]; intros Hlen v Hv; simplify_eq/=.
  by apply list_elem_of_singleton in Hv.
Qed.

Lemma entropy_deviation_shapes ln (image : GrayImage) h w kernel_size :
  rect2 h w image -> 0 < h ->
  rect2 h w (fst (entropy_deviation ln image kernel_size))
  /\ rect2 h w (snd (entropy_deviation ln image kernel_size)).
Proof.
  intros Himg Hh. unfold entropy_deviation.
  rewrite (rect2_shape2 h w) by done. split; apply rect2_tabulate.
Qed.

(** X8.  At every pixel the local deviation is the population variance of
    the gray levels of the mirrored window, so it is never negative; it is
    0 where the window is constant, in particular everywhere when
    [kernel_size] is at most 2 (the window is then the pixel alone).  Both
    maps of [entropy_deviation] have the shape of the image. *)
Theorem local_deviation_is_window_variance (ln : Qc -> Qc) (image : GrayImage)
    (h w kernel_size r c : nat) :
  rect2 h w image -> r < h -> c < w ->
  let pad := (kernel_size - 1) / 2 in
  let samples := map Qnat (mirrored_window image pad r c) in
  Np.get2 (snd (entropy_deviation ln image kernel_size)) r c
  = Some (population_variance samples)
  /\ (0 <= population_variance samples)%Qc
  /\ (forall x, (forall v, v ∈ mirrored_window image pad r c -> v = x) ->
        population_variance samples = 0%Qc)
  /\ (kernel_size <= 2 -> population_variance samples = 0%Qc)
  /\ rect2 h w (fst (entropy_deviation ln image kernel_size))
  /\ rect2 h w (snd (entropy_deviation ln image kernel_size)).
Proof.
  intros Himg Hr Hc pad samples.
  assert (Hlen : length (mirrored_window image pad r c)
                 = (2 * pad + 1) * (2 * pad + 1))
    by apply length_mirrored_window.
  assert (Hconst : forall x,
    (forall v, v ∈ mirrored_window image pad r c -> v = x) ->
    population_variance samples = 0%Qc).
  { intros x Hall. unfold samples.
    rewrite (constant_list _ x Hall), map_replicate.
    apply population_variance_constant. rewrite Hlen. nia. }
  split; [|split; [|split; [done|split]]].
  - unfold entropy_deviation. rewrite (rect2_shape2 h w) by (done || lia).
    cbn [snd].
    rewrite (get2_tabulate (fun row column =>
      _area_deviation
        (window (Cv2.copyMakeBorder 0 image ((kernel_size - 1) / 2))
           ((kernel_size - 1) / 2) row column))) by done.
    unfold _area_deviation.
    by rewrite (window_padded_mirrored image h w) by done.
  - apply population_variance_nonneg. unfold samples.
    intros Hnil%(f_equal length). rewrite length_map, Hlen in Hnil.
    simpl in Hnil. nia.
  - intros Hk.
    assert (Hpad : pad = 0).
    { unfold pad. apply Nat.div_small. lia. }
    apply (Hconst (hd 0 (mirrored_window image pad r c))).
    apply singleton_elements. rewrite Hlen, Hpad. done.
  - by apply entropy_deviation_shapes; [|lia].
Qed.

Lemma local_deviation_is_window_variance_witness :
  Np.get2 (snd (entropy_deviation (fun x => x) demo_gray 5)) 0 0
  = Some (population_variance (map Qnat (mirrored_window demo_gray 2 0 0)))
  /\ (0 <= population_variance (map Qnat (mirrored_window demo_gray 2 0 0)))%Qc.
Proof.
  destruct (local_deviation_is_window_variance (fun x => x) demo_gray 2 3 5 0 0)
    as (Hformula & Hnonneg & _).
  - repeat constructor.
  - lia.
  - lia.
  - split; [exact Hformula | exact Hnonneg].
Defined.

(** ** Pixels of the fused channels and their assembly *)

Lemma detail_channel_pixel (laplacians : Stack) (h w c channel : nat) :
  laplacians <> [] -> Forall (rect3 h w c) laplacians ->
  0 < h -> 0 < w -> channel < c ->
  exists fused,
    get_fused_laplacian_channel laplacians channel = Ok fused
    /\ rect2 h w fused
    /\ forall r x, r < h -> x < w ->
       exists b lap value,
         laplacians !! b = Some lap
         /\ Np.get3 lap r x channel = Some value
         /\ Np.get2 fused r x = Some value.
Proof.
  intros Hne Hrect Hh Hw Hch.
  unfold get_fused_laplacian_channel.
  rewrite (stack_shape4 h w c) by done.
  rewrite bool_decide_eq_false_2 by lia.
  destruct (argmax0_ok h w
              (map (fun lap => region_energy (Np.plane lap channel)) laplacians))
    as (best & -> & Hbest & Hget); [by destruct laplacians|].
  simpl. eexists. split; [reflexivity|]. split.
  - apply masked_loop_rect2; [apply rect2_zeros2|done|].
    intros layer Hl%elem_of_seq. apply (layer_plane_rect2 h w c); [done|lia].
  - intros r x Hr Hx.
    pose proof (first_max_spec
      (map (fun m => Np.at2 0%Qc m r x)
         (map (fun lap => region_energy (Np.plane lap channel)) laplacians))
      ltac:(by destruct laplacians)) as Hcol.
    set (b := Np.first_max _) in Hcol.
    pose proof (first_argmax_lt _ _ Hcol) as Hb. rewrite !length_map in Hb.
    destruct (lookup_lt_is_Some_2 laplacians b Hb) as [lap Hlap].
    pose proof (Forall_lookup_1 _ _ _ _ Hrect Hlap) as Hlr.
    destruct (rect3_get3 h w c lap r x channel Hlr Hr Hx Hch) as [value Hvalue].
    exists b, lap, value. repeat split; [done..|].
    unfold detail_select_loop.
    rewrite (masked_loop_get2 _ r x
               (fun layer => default 0%Qc
                  (Np.get3 (default [] (laplacians !! layer)) r x channel))
               best b (length laplacians) 0 _ 0%Qc
               (get2_zeros2 h w r x Hr Hx) (Hget r x Hr Hx)).
    + rewrite bool_decide_eq_true_2 by lia. rewrite Hlap. simpl.
      rewrite Hvalue. simpl. f_equal. ring.
    + intros layer Hl. apply (layer_plane_get2 h w c); [done|done|lia|done|done].
Qed.

Lemma base_channel_pixel (ln : Qc -> Qc) (dt : dtype) (images : Stack)
    (h w c kernel_size channel : nat) :
  images <> [] -> Forall (rect3 h w c) images ->
  0 < h -> 0 < w -> channel < c ->
  exists fused,
    get_fused_base_channel ln dt images kernel_size channel = Ok fused
    /\ rect2 h w fused
    /\ forall r x, r < h -> x < w ->
       exists be bd img_e img_d value_e value_d,
         images !! be = Some img_e
         /\ images !! bd = Some img_d
         /\ Np.get3 img_e r x channel = Some value_e
         /\ Np.get3 img_d r x channel = Some value_d
         /\ Np.get2 fused r x
            = Some (Np.astype dt ((value_e + value_d) / Qint 2))%Qc.
Proof.
  intros Hne Hrect Hh Hw Hch.
  unfold get_fused_base_channel.
  rewrite (stack_shape4 h w c) by done.
  rewrite bool_decide_eq_false_2 by lia.
  set (stats := map _ images).
  assert (Hstats : length stats = length images) by apply length_map.
  destruct (argmax0_ok h w (map fst stats))
    as (best_e & -> & Hbest_e & Hget_e); [by destruct images|].
  destruct (argmax0_ok h w (map snd stats))
    as (best_d & -> & Hbest_d & Hget_d); [by destruct images|].
  simpl. eexists. split; [reflexivity|]. split.
  - apply rect2_map. apply masked_loop2_rect2; [apply rect2_zeros2|done|done|].
    intros layer Hl%elem_of_seq. apply (layer_plane_rect2 h w c); [done|lia].
  - intros r x Hr Hx.
    pose proof (first_max_spec (map (fun m => Np.at2 0%Qc m r x) (map fst stats))
      ltac:(by destruct images)) as Hcol_e.
    pose proof (first_max_spec (map (fun m => Np.at2 0%Qc m r x) (map snd stats))
      ltac:(by destruct images)) as Hcol_d.
    specialize (Hget_e r x Hr Hx). specialize (Hget_d r x Hr Hx).
    set (be := Np.first_max _) in Hcol_e, Hget_e.
    set (bd := Np.first_max _) in Hcol_d, Hget_d.
    pose proof (first_argmax_lt _ _ Hcol_e) as Hbe.
    pose proof (first_argmax_lt _ _ Hcol_d) as Hbd.
    rewrite !length_map in Hbe, Hbd. fold stats in Hbe, Hbd.
    rewrite Hstats in Hbe, Hbd.
    destruct (lookup_lt_is_Some_2 images be Hbe) as [img_e Himg_e].
    destruct (lookup_lt_is_Some_2 images bd Hbd) as [img_d Himg_d].
    pose proof (Forall_lookup_1 _ _ _ _ Hrect Himg_e) as Hre.
    pose proof (Forall_lookup_1 _ _ _ _ Hrect Himg_d) as Hrd.
    destruct (rect3_get3 h w c img_e r x channel Hre Hr Hx Hch) as [ve Hve].
    destruct (rect3_get3 h w c img_d r x channel Hrd Hr Hx Hch) as [vd Hvd].
    exists be, bd, img_e, img_d, ve, vd. repeat split; [done..|].
    rewrite get2_map. unfold base_select_loop.
    rewrite (masked_loop2_get2 _ r x
               (fun layer => default 0%Qc
                  (Np.get3 (default [] (images !! layer)) r x channel))
               best_e best_d be bd (length images) 0 _ 0%Qc
               (get2_zeros2 h w r x Hr Hx) Hget_e Hget_d).
    + rewrite !bool_decide_eq_true_2 by lia. rewrite Himg_e, Himg_d. simpl.
      rewrite Hve, Hvd. simpl. do 3 f_equal. ring.
    + intros layer Hl. apply (layer_plane_get2 h w c); [done|done|lia|done|done].
Qed.

Lemma get2_set_plane h w c (a : Image) (p : Plane) k r x px v :
  rect3 h w c a -> rect2 h w p ->
  Np.get2 a r x = Some px -> Np.get2 p r x = Some v ->
  Np.get2 (Np.set_plane a k p) r x = Some (<[k := v]> px).
Proof.
  intros Ha Hp Hpx Hv. unfold Np.set_plane.
  by apply (get2_zip_with (fun px v => <[k := v]> px)).
Qed.

Lemma plane_set_plane h w c (a : Image) (p : Plane) k ch :
  rect3 h w c a -> rect2 h w p -> k < c ->
  Np.plane (Np.set_plane a k p) ch = if decide (ch = k) then p else Np.plane a ch.
Proof.
  intros Ha Hp Hk.
  assert (Hs : rect3 h w c (Np.set_plane a k p)) by by apply rect3_set_plane.
  apply (rect2_ext h w).
  - by apply (rect2_plane h w c).
  - destruct (decide (ch = k)); [done|]. by apply (rect2_plane h w c).
  - intros r x Hr Hx. rewrite get2_plane.
    destruct (rect2_get2 h w a r x (rect3_rect2 _ _ _ _ Ha) Hr Hx) as [px Hpx].
    destruct (rect2_get2 h w p r x Hp Hr Hx) as [v Hv].
    rewrite (get2_set_plane h w c a p k r x px v) by done. simpl.
    assert (Hlen : length px = c).
    { apply get2_Some in Hpx as (row & Hrow & Hpx). destruct Ha as [_ Hrows].
      pose proof (Forall_lookup_1 _ _ _ _ Hrows Hrow) as [_ Hpxs].
      by apply (Forall_lookup_1 _ _ _ _ Hpxs Hpx). }
    destruct (decide (ch = k)) as [->|Hne].
    + rewrite list_lookup_insert_eq by lia. by rewrite Hv.
    + rewrite list_lookup_insert_ne by done. by rewrite get2_plane, Hpx.
Qed.

Lemma assemble_channels (g : nat -> result Plane) (P : nat -> Plane) h w c :
  (forall ch, ch < c -> g ch = Ok (P ch) /\ rect2 h w (P ch)) ->
  forall n s fused,
    s + n = c -> rect3 h w c fused ->
    (forall ch, ch < s -> Np.plane fused ch = P ch) ->
    exists fused',
      for_each (seq s n) fused
        (fun channel fused => let* p := g channel in
                              Ok (Np.set_plane fused channel p)) = Ok fused'
      /\ rect3 h w c fused'
      /\ forall ch, ch < c -> Np.plane fused' ch = P ch.
Proof.
  intros Hg. induction n as [|n IH]; intros s fused Hsn Hr Hdone; simpl.
  - exists fused. split; [done|]. split; [done|].
    intros ch Hch. apply Hdone. lia.
  - destruct (Hg s) as [-> Hp]; [lia|]. simpl.
    apply IH; [lia|by apply rect3_set_plane|].
    intros ch Hch. rewrite (plane_set_plane h w c) by (done || lia).
    destruct (decide (ch = s)) as [->|Hne]; [done|]. apply Hdone. lia.
Qed.

Lemma rect3_ext_planes h w c (a b : Image) :
  rect3 h w c a -> rect3 h w c b ->
  (forall ch, ch < c -> Np.plane a ch = Np.plane b ch) -> a = b.
Proof.
  intros Ha Hb Hplanes.
  apply (rect2_ext h w); [by eapply rect3_rect2..|].
  intros r x Hr Hx.
  destruct (rect2_get2 h w a r x (rect3_rect2 _ _ _ _ Ha) Hr Hx) as [pa Hpa].
  destruct (rect2_get2 h w b r x (rect3_rect2 _ _ _ _ Hb) Hr Hx) as [pb Hpb].
  rewrite Hpa, Hpb. f_equal. apply list_eq. intros ch.
  destruct (decide (ch < c)) as [Hch|Hch].
  - pose proof (get2_plane_get3 h w c a ch r x Ha Hr Hx Hch) as Ea.
    pose proof (get2_plane_get3 h w c b ch r x Hb Hr Hx Hch) as Eb.
    rewrite (Hplanes ch Hch), Eb in Ea. unfold Np.get3 in Ea.
    by rewrite Hpa, Hpb in Ea.
  - apply get2_Some in Hpa as (ra & Hra & Hpa).
    apply get2_Some in Hpb as (rb & Hrb & Hpb).
    destruct Ha as [_ Ha], Hb as [_ Hb].
    pose proof (Forall_lookup_1 _ _ _ _ Ha Hra) as [_ Hpxa].
    pose proof (Forall_lookup_1 _ _ _ _ Hb Hrb) as [_ Hpxb].
    pose proof (Forall_lookup_1 _ _ _ _ Hpxa Hpa) as Hla.
    pose proof (Forall_lookup_1 _ _ _ _ Hpxb Hpb) as Hlb. simpl in *.
    rewrite !lookup_ge_None_2; [done|lia|lia].
Qed.

Lemma fused_laplacian_channelwise (images : Stack) (h w c : nat) :
  images <> [] -> Forall (rect3 h w c) images -> 0 < h -> 0 < w ->
  exists fused,
    get_fused_laplacian images = Ok fused /\ rect3 h w c fused
    /\ forall ch, ch < c ->
         get_fused_laplacian_channel images ch = Ok (Np.plane fused ch).
Proof.
  intros Hne Hrect Hh Hw.
  unfold get_fused_laplacian. rewrite (stack_shape4 h w c) by done.
  set (P := fun ch => match get_fused_laplacian_channel images ch with
                      | Ok p => p | Raise _ => [] end).
  assert (HP : forall ch, ch < c ->
    get_fused_laplacian_channel images ch = Ok (P ch) /\ rect2 h w (P ch)).
  { intros ch Hch. unfold P.
    by destruct (get_fused_laplacian_channel_shape images h w c ch)
      as (p & -> & Hp). }
  destruct (assemble_channels (get_fused_laplacian_channel images) P h w c HP
              c 0 (Np.zeros3 h w c)) as (fused & Hf & Hr & Hplanes);
    [lia|apply rect3_zeros3|intros; lia|].
  exists fused. split; [done|]. split; [done|].
  intros ch Hch. rewrite (Hplanes ch Hch). by apply HP.
Qed.

Lemma fused_base_channelwise (ln : Qc -> Qc) (dt : dtype) (images : Stack)
    (h w c kernel_size : nat) :
  images <> [] -> Forall (rect3 h w c) images -> 0 < h -> 0 < w ->
  exists fused,
    get_fused_base ln dt images kernel_size = Ok fused /\ rect3 h w c fused
    /\ forall ch, ch < c ->
         get_fused_base_channel ln dt images kernel_size ch
         = Ok (Np.plane fused ch).
Proof.
  intros Hne Hrect Hh Hw.
  unfold get_fused_base. rewrite (stack_shape4 h w c) by done.
  set (P := fun ch => match get_fused_base_channel ln dt images kernel_size ch with
                      | Ok p => p | Raise _ => [] end).
  assert (HP : forall ch, ch < c ->
    get_fused_base_channel ln dt images kernel_size ch = Ok (P ch)
    /\ rect2 h w (P ch)).
  { intros ch Hch. unfold P.
    by destruct (get_fused_base_channel_shape ln dt images h w c kernel_size ch)
      as (p & -> & Hp). }
  destruct (assemble_channels (get_fused_base_channel ln dt images kernel_size)
              P h w c HP c 0 (Np.zeros3 h w c))
    as (fused & Hf & Hr & Hplanes);
    [lia|apply rect3_zeros3|intros; lia|].
  exists fused. split; [done|]. split; [done|].
  intros ch Hch. rewrite (Hplanes ch Hch). by apply HP.
Qed.

(** X9.  [get_fused_laplacian] and [get_fused_base] fuse every channel on
    its own and put the results side by side: the fused image has the shape
    of the layers and its channel [ch] is exactly what
    [get_fused_laplacian_channel], respectively [get_fused_base_channel],
    returns for [ch], whatever the element type of the stack. *)
Theorem fused_image_is_channelwise (ln : Qc -> Qc) (dt : dtype) (images : Stack)
    (h w c kernel_size : nat) :
  images <> [] -> Forall (rect3 h w c) images -> 0 < h -> 0 < w ->
  (exists fused,
     get_fused_laplacian images = Ok fused /\ rect3 h w c fused
     /\ forall ch, ch < c ->
          get_fused_laplacian_channel images ch = Ok (Np.plane fused ch))
  /\ (exists fused,
        get_fused_base ln dt images kernel_size = Ok fused /\ rect3 h w c fused
        /\ forall ch, ch < c ->
             get_fused_base_channel ln dt images kernel_size ch
             = Ok (Np.plane fused ch)).
Proof.
  intros Hne Hrect Hh Hw. split.
  - by apply fused_laplacian_channelwise.
  - by apply fused_base_channelwise.
Qed.

Lemma fused_image_is_channelwise_witness :
  exists fused,
    get_fused_laplacian [demo_a; demo_b] = Ok fused /\ rect3 2 2 1 fused
    /\ forall ch, ch < 1 ->
         get_fused_laplacian_channel [demo_a; demo_b] ch = Ok (Np.plane fused ch).
Proof.
  destruct (fused_image_is_channelwise (fun _ => 1%Qc) float32 [demo_a; demo_b]
              2 2 1 5)
    as [H _].
  - done.
  - repeat constructor.
  - lia.
  - lia.
  - exact H.
Defined.

(** ** Ranges and levels of the fusion *)

Lemma Qc_half_between (lo hi a b : Qc) :
  (lo <= a)%Qc -> (a <= hi)%Qc -> (lo <= b)%Qc -> (b <= hi)%Qc ->
  (lo <= (a + b) / Qint 2)%Qc /\ ((a + b) / Qint 2 <= hi)%Qc.
Proof.
  intros Hla Hah Hlb Hbh. rewrite Qint_2_ones.
  assert (Hinv : (0 <= / (1 + 1))%Qc).
  { apply Qclt_le_weak, Qcinv_pos. by vm_compute. }
  assert (Hmid : forall y : Qc, y = ((y + y) / (1 + 1))%Qc).
  { intros y. pose proof Qc_two_nonzero. field. done. }
  split.
  - rewrite (Hmid lo) at 1. unfold Qcdiv.
    apply Qcmult_le_compat_r; [|done]. by apply Qcplus_le_compat.
  - rewrite (Hmid hi). unfold Qcdiv.
    apply Qcmult_le_compat_r; [|done]. by apply Qcplus_le_compat.
Qed.

Lemma quot_Qeq (p q : Q) :
  (p == q)%Q ->
  Z.quot (Qnum p) (Z.pos (Qden p)) = Z.quot (Qnum q) (Z.pos (Qden q)).
Proof.
  unfold Qeq. intros Heq.
  rewrite <- (Z.quot_mul_cancel_r (Qnum p) (Z.pos (Qden p)) (Z.pos (Qden q)))
    by done.
  rewrite <- (Z.quot_mul_cancel_r (Qnum q) (Z.pos (Qden q)) (Z.pos (Qden p)))
    by done.
  rewrite Heq. f_equal. lia.
Qed.

Lemma half_sum_Qeq (a b : nat) :
  (this ((Qnat a + Qnat b) / Qint 2)%Qc == Z.of_nat (a + b) # 2)%Q.
Proof.
  unfold Qcdiv, Qcmult, Qcplus, Qcinv, Qnat, Qint, Q2Qc. cbn [this].
  rewrite !Qred_correct. unfold Qeq, Qplus, Qmult, Qinv, inject_Z.
  cbn [Qnum Qden]. simpl. lia.
Qed.

Lemma to_uint8_half_sum (a b : nat) :
  a < 256 -> b < 256 ->
  to_uint8 ((Qnat a + Qnat b) / Qint 2)%Qc = (a + b) / 2.
Proof.
  intros Ha Hb. unfold to_uint8.
  rewrite (quot_Qeq _ _ (half_sum_Qeq a b)). cbn [Qnum Qden].
  rewrite Z.quot_div_nonneg by lia.
  change 2%Z with (Z.of_nat 2) at 1. rewrite <- Nat2Z.inj_div.
  assert (Hlt : (a + b) / 2 < 256).
  { apply Nat.Div0.div_lt_upper_bound. lia. }
  rewrite Z.mod_small by lia. lia.
Qed.

(** The cast of the half sum of two values of the element type stays
    between them. *)
Lemma astype_half_between dt (lo hi a b : Qc) :
  Np.astype dt a = a -> Np.astype dt b = b ->
  (lo <= a)%Qc -> (a <= hi)%Qc -> (lo <= b)%Qc -> (b <= hi)%Qc ->
  (lo <= Np.astype dt ((a + b) / Qint 2))%Qc
  /\ (Np.astype dt ((a + b) / Qint 2) <= hi)%Qc.
Proof.
  intros Ha Hb Hla Hah Hlb Hbh. destruct dt; simpl in *.
  - pose proof (to_uint8_lt a) as Hna. pose proof (to_uint8_lt b) as Hnb.
    set (na := to_uint8 a) in *. set (nb := to_uint8 b) in *.
    rewrite <- Ha, <- Hb. rewrite to_uint8_half_sum by done.
    rewrite <- Ha in Hla, Hah. rewrite <- Hb in Hlb, Hbh.
    assert (Hmid : Nat.min na nb <= (na + nb) / 2 <= Nat.max na nb).
    { split.
      - apply Nat.div_le_lower_bound; lia.
      - apply Nat.Div0.div_le_upper_bound. lia. }
    split.
    + apply Qcle_trans with (Qnat (Nat.min na nb)).
      * destruct (Nat.min_spec na nb) as [[_ ->]|[_ ->]]; done.
      * apply Qnat_le. lia.
    + apply Qcle_trans with (Qnat (Nat.max na nb)).
      * apply Qnat_le. lia.
      * destruct (Nat.max_spec na nb) as [[_ ->]|[_ ->]]; done.
  - by apply Qc_half_between.
Qed.

(** X10.  At every pixel the fused base-band value lies between the
    smallest and the largest value that the layers hold at that pixel:
    whenever all layers are within [lo, hi] there, so is the result.  The
    values of the stack are values of its element type, which a cast to
    that type keeps; the cast of the result does not leave the range. *)
Theorem base_fusion_within_layer_range (ln : Qc -> Qc) (dt : dtype)
    (images : Stack) (h w c kernel_size channel r x : nat) (lo hi : Qc) :
  images <> [] -> Forall (rect3 h w c) images ->
  0 < h -> 0 < w -> channel < c -> r < h -> x < w ->
  (forall img v, img ∈ images -> Np.get3 img r x channel = Some v ->
                 (lo <= v)%Qc /\ (v <= hi)%Qc /\ Np.astype dt v = v) ->
  exists fused v,
    get_fused_base_channel ln dt images kernel_size channel = Ok fused
    /\ Np.get2 fused r x = Some v /\ (lo <= v)%Qc /\ (v <= hi)%Qc.
Proof.
  intros Hne Hrect Hh Hw Hch Hr Hx Hrange.
  destruct (base_channel_pixel ln dt images h w c kernel_size channel)
    as (fused & Hfused & _ & Hpix); [done..|].
  destruct (Hpix r x Hr Hx)
    as (be & bd & img_e & img_d & ve & vd & He & Hd & Hve & Hvd & Hv).
  destruct (Hrange img_e ve (list_elem_of_lookup_2 _ _ _ He) Hve)
    as (Hle & Heh & Hte).
  destruct (Hrange img_d vd (list_elem_of_lookup_2 _ _ _ Hd) Hvd)
    as (Hld & Hdh & Htd).
  exists fused, (Np.astype dt ((ve + vd) / Qint 2))%Qc.
  split; [done|]. split; [done|]. by apply astype_half_between.
Qed.

Lemma base_fusion_within_layer_range_witness :
  exists fused v,
    get_fused_base_channel (fun _ => 1%Qc) uint8 [demo_a; demo_b] 5 0 = Ok fused
    /\ Np.get2 fused 0 0 = Some v /\ (Qint 1 <= v)%Qc /\ (v <= Qint 5)%Qc.
Proof.
  apply (base_fusion_within_layer_range (fun _ => 1%Qc) uint8 [demo_a; demo_b]
           2 2 1 5 0 0 0 (Qint 1) (Qint 5)).
  - done.
  - repeat constructor.
  - lia.
  - lia.
  - lia.
  - lia.
  - lia.
  - intros img v Himg Hv.
    apply elem_of_cons in Himg as [->|Himg].
    + injection Hv as <-. split; [by vm_compute|]. split; [by vm_compute|].
      apply Qc_is_canon. by vm_compute.
    + apply list_elem_of_singleton in Himg as ->. injection Hv as <-.
      split; [by vm_compute|]. split; [by vm_compute|].
      apply Qc_is_canon. by vm_compute.
Defined.

Lemma fuse_pyramids_spec (ln : Qc -> Qc) (dt : dtype) (kernel_size : nat)
    (stacks : list Stack) (R : nat -> Image -> Prop) :
  stacks <> [] ->
  (forall j, j < length stacks - 1 ->
     exists f, get_fused_laplacian (default [] (stacks !! j)) = Ok f /\ R j f) ->
  (exists b, get_fused_base ln dt (List.last stacks []) kernel_size = Ok b
             /\ R (length stacks - 1) b) ->
  exists fusion,
    fuse_pyramids ln dt (map (map Arr3) stacks) kernel_size = Ok (map Arr3 fusion)
    /\ length fusion = length stacks
    /\ forall j f, fusion !! j = Some f -> R j f.
Proof.
  intros Hne Hdetail (base & Hbase & HRbase). unfold fuse_pyramids.
  assert (Hmap : exists t r, map (map Arr3) stacks = t :: r).
  { destruct stacks; [done|]. simpl. eauto. }
  destruct Hmap as (t & r & Hmap). rewrite Hmap. rewrite <- Hmap.
  clear Hmap t r.
  assert (Hpos : 0 < length stacks) by (destruct stacks; simpl; [done|lia]).
  rewrite length_map. set (m := length stacks - 1) in *.
  rewrite last_map_Arr3, fuse_level_regular, Hbase. cbn [bind].
  destruct (for_each_append
              (fun layer => fuse_level get_fused_laplacian
                              (default [] (map (map Arr3) stacks !! layer)))
              (fun layer f => exists img, f = Arr3 img /\ R layer img)
              (rev (seq 0 m)) [Arr3 base]) as (ds & -> & Hds).
  { apply Forall_rev, list.Forall_forall. intros layer Hl%elem_of_seq.
    destruct (Hdetail layer) as (f & Hf & HR); [lia|].
    rewrite list_lookup_fmap.
    assert (Hdef : default [] (map Arr3 <$> stacks !! layer)
                   = map Arr3 (default [] (stacks !! layer)))
      by by destruct (stacks !! layer).
    rewrite Hdef, fuse_level_regular, Hf. simpl. eauto. }
  cbn [bind].
  apply Forall2_Arr3 in Hds as (imgs & -> & Hds).
  exists (rev (base :: imgs)). split.
  { f_equal. change (Arr3 base :: map Arr3 imgs) with (map Arr3 (base :: imgs)).
    by rewrite map_rev. }
  cbn [rev].
  apply Forall2_rev in Hds. rewrite rev_involutive in Hds.
  pose proof (list.Forall2_length _ _ _ Hds) as Hlen'. rewrite length_seq in Hlen'.
  split.
  { rewrite length_app. simpl. lia. }
  intros j f Hf.
  destruct (decide (j < m)) as [Hj|Hj].
  - rewrite lookup_app_l in Hf by lia.
    assert (Hseq : seq 0 m !! j = Some j) by by apply lookup_seq_lt.
    by apply (Forall2_lookup_lr _ _ _ _ _ _ Hds Hseq Hf).
  - pose proof (lookup_lt_Some _ _ _ Hf) as Hjlt.
    rewrite length_app in Hjlt. simpl in Hjlt.
    assert (j = m) as -> by lia.
    rewrite lookup_app_r, <- Hlen', Nat.sub_diag in Hf by lia.
    simpl in Hf. by simplify_eq.
Qed.

(** X11.  For levels of 3-D layers [fuse_pyramids] returns one fused image
    for every level, in the order of the levels: the last one is the
    base-band fusion of the last (coarsest) level and every other one is
    the detail-band fusion of its level.  When the layers of the coarsest
    level have no channel axis, as [cv2.pyrDown] returns them for
    single-channel images, it raises [IndexError]. *)
Theorem fuse_pyramids_level_by_level (ln : Qc -> Qc) (dt : dtype)
    (c kernel_size : nat) (dims : list (nat * nat)) (stacks : list Stack) :
  stacks <> [] -> Forall2 (level_ok c) dims stacks ->
  (exists fusion,
     fuse_pyramids ln dt (map (map Arr3) stacks) kernel_size
     = Ok (map Arr3 fusion)
     /\ length fusion = length stacks
     /\ (forall j level f,
           stacks !! j = Some level -> fusion !! j = Some f ->
           j < length stacks - 1 -> get_fused_laplacian level = Ok f)
     /\ (forall level f,
           stacks !! (length stacks - 1) = Some level ->
           fusion !! (length stacks - 1) = Some f ->
           get_fused_base ln dt level kernel_size = Ok f))
  /\ (forall (pyramids : list Level) (p : Plane) (rest : Level) (hp wp : nat),
        List.last pyramids [] = Arr2 p :: rest -> rect2 hp wp p ->
        0 < hp -> 0 < wp ->
        fuse_pyramids ln dt pyramids kernel_size = Raise IndexError).
Proof.
  intros Hne Hlevels. split; cycle 1.
  { intros pyramids p rest hp wp Hlast Hp Hhp Hwp. unfold fuse_pyramids.
    destruct pyramids as [|top more] eqn:Hpy; [done|]. rewrite <- Hpy in *.
    rewrite Hlast. unfold fuse_level.
    rewrite (rect2_shape2 hp wp) by done.
    by destruct (Nat.eqb_spec wp 0); [lia|]. }
  pose proof (list.Forall2_length _ _ _ Hlevels) as Hlen.
  assert (Hpos : 0 < length stacks) by (destruct stacks; simpl; [done|lia]).
  destruct (fuse_pyramids_spec ln dt kernel_size stacks
    (fun j f =>
       (j < length stacks - 1
        /\ get_fused_laplacian (default [] (stacks !! j)) = Ok f)
       \/ (j = length stacks - 1
           /\ get_fused_base ln dt (List.last stacks []) kernel_size = Ok f)))
    as (fusion & Hfusion & Hflen & HR); [done| | |].
  - intros j Hj.
    destruct (lookup_lt_is_Some_2 stacks j) as [lvl Hlvl]; [lia|].
    destruct (lookup_lt_is_Some_2 dims j) as [d Hd]; [lia|].
    pose proof (Forall2_lookup_lr _ _ _ _ _ _ Hlevels Hd Hlvl)
      as (Hlne & Hlrect & Hlh & Hlw).
    rewrite Hlvl. simpl.
    destruct (get_fused_laplacian_shape lvl d.1 d.2 c) as (f & Hf & _); [done..|].
    exists f. split; [done|]. left. by split.
  - destruct (lookup_lt_is_Some_2 stacks (length stacks - 1))
      as [lvl Hlvl]; [lia|].
    destruct (lookup_lt_is_Some_2 dims (length stacks - 1)) as [d Hd]; [lia|].
    pose proof (Forall2_lookup_lr _ _ _ _ _ _ Hlevels Hd Hlvl)
      as (Hlne & Hlrect & Hlh & Hlw).
    rewrite (last_lookup_default stacks [] lvl Hlvl).
    destruct (get_fused_base_shape ln dt lvl kernel_size d.1 d.2 c)
      as (f & Hf & _); [done..|].
    exists f. split; [done|]. by right.
  - exists fusion. split; [done|]. split; [done|]. split.
    + intros j level f Hlevel Hf Hj.
      destruct (HR j f Hf) as [[_ Hdetail]|[Hjm _]]; [|lia].
      by rewrite Hlevel in Hdetail.
    + intros level f Hlevel Hf.
      destruct (HR _ f Hf) as [[Hlt _]|[_ Hb]]; [lia|].
      by rewrite (last_lookup_default stacks [] level Hlevel) in Hb.
Qed.

Lemma fuse_pyramids_level_by_level_witness :
  exists detail base,
    fuse_pyramids (fun _ => 1%Qc) float32
      [[Arr3 demo_bgr_a; Arr3 demo_bgr_b]; [Arr3 demo_px_a; Arr3 demo_px_b]] 5
    = Ok [Arr3 detail; Arr3 base]
    /\ get_fused_laplacian [demo_bgr_a; demo_bgr_b] = Ok detail
    /\ get_fused_base (fun _ => 1%Qc) float32 [demo_px_a; demo_px_b] 5 = Ok base.
Proof.
  destruct (fuse_pyramids_level_by_level (fun _ => 1%Qc) float32 3 5
              [(2, 2); (1, 1)]
              [[demo_bgr_a; demo_bgr_b]; [demo_px_a; demo_px_b]])
    as [(fusion & Hf & Hlen & Hdetail & Hbase) _].
  - done.
  - repeat constructor; simpl; try lia; done.
  - destruct fusion as [|detail [|base [|extra fusion]]]; try discriminate Hlen.
    exists detail, base. split; [exact Hf|]. split.
    + apply (Hdetail 0); [reflexivity|reflexivity|simpl; lia].
    + apply Hbase; reflexivity.
Defined.

(** ** Identical layers *)

Lemma copies_lookup (img : Image) (images : Stack) i layer :
  copies_of img images -> images !! i = Some layer -> layer = img.
Proof.
  intros [_ Hall] Hi. by apply (Forall_lookup_1 _ _ _ _ Hall Hi).
Qed.

Lemma copies_first (img : Image) (images : Stack) :
  copies_of img images -> images !! 0 = Some img.
Proof.
  intros [Hne Hall]. destruct images as [|first rest]; [done|].
  apply Forall_cons_1 in Hall as [-> _]. done.
Qed.

Lemma copies_rect3 h w c (img : Image) (images : Stack) :
  copies_of img images -> rect3 h w c img -> Forall (rect3 h w c) images.
Proof.
  intros [_ Hall] Hr. eapply Forall_impl; [|exact Hall]. by intros layer ->.
Qed.

Lemma copies_map (f : Image -> Image) (img : Image) (images : Stack) :
  copies_of img images -> copies_of (f img) (map f images).
Proof.
  intros [Hne Hall]. split; [by destruct images|].
  apply Forall_map. eapply Forall_impl; [|exact Hall]. by intros layer ->.
Qed.

Lemma detail_channel_of_copies (img : Image) (laplacians : Stack) h w c channel :
  copies_of img laplacians -> rect3 h w c img ->
  0 < h -> 0 < w -> channel < c ->
  get_fused_laplacian_channel laplacians channel = Ok (Np.plane img channel).
Proof.
  intros Hcopies Himg Hh Hw Hch.
  destruct (detail_channel_pixel laplacians h w c channel)
    as (fused & -> & Hr & Hpix);
    [by destruct Hcopies|by apply (copies_rect3 h w c img)|done..|].
  f_equal. apply (rect2_ext h w); [done|by apply (rect2_plane h w c)|].
  intros r x Hrr Hx.
  destruct (Hpix r x Hrr Hx) as (b & lap & value & Hlap & Hvalue & ->).
  rewrite (copies_lookup img laplacians b lap Hcopies Hlap) in Hvalue.
  by rewrite (get2_plane_get3 h w c).
Qed.

Lemma Qc_half_double (v : Qc) : ((v + v) / Qint 2)%Qc = v.
Proof. rewrite Qint_2_ones. pose proof Qc_two_nonzero. field. done. Qed.

Lemma base_channel_of_copies ln (img : Image) (images : Stack)
    h w c kernel_size channel :
  copies_of img images -> rect3 h w c img ->
  0 < h -> 0 < w -> channel < c ->
  get_fused_base_channel ln float32 images kernel_size channel
  = Ok (Np.plane img channel).
Proof.
  intros Hcopies Himg Hh Hw Hch.
  destruct (base_channel_pixel ln float32 images h w c kernel_size channel)
    as (fused & -> & Hr & Hpix);
    [by destruct Hcopies|by apply (copies_rect3 h w c img)|done..|].
  f_equal. apply (rect2_ext h w); [done|by apply (rect2_plane h w c)|].
  intros r x Hrr Hx.
  destruct (Hpix r x Hrr Hx)
    as (be & bd & img_e & img_d & ve & vd & He & Hd & Hve & Hvd & ->).
  rewrite (copies_lookup img images be img_e Hcopies He) in Hve.
  rewrite (copies_lookup img images bd img_d Hcopies Hd) in Hvd.
  rewrite Hve in Hvd. injection Hvd as <-.
  simpl. by rewrite Qc_half_double, (get2_plane_get3 h w c).
Qed.

Lemma fused_laplacian_of_copies (img : Image) (laplacians : Stack) h w c :
  copies_of img laplacians -> rect3 h w c img -> 0 < h -> 0 < w ->
  get_fused_laplacian laplacians = Ok img.
Proof.
  intros Hcopies Himg Hh Hw.
  destruct (fused_laplacian_channelwise laplacians h w c)
    as (fused & -> & Hr & Hplanes);
    [by destruct Hcopies|by apply (copies_rect3 h w c img)|done..|].
  f_equal. apply (rect3_ext_planes h w c); [done..|].
  intros ch Hch. specialize (Hplanes ch Hch).
  rewrite (detail_channel_of_copies img laplacians h w c ch) in Hplanes by done.
  by injection Hplanes.
Qed.

Lemma fused_base_of_copies ln (img : Image) (images : Stack) h w c kernel_size :
  copies_of img images -> rect3 h w c img -> 0 < h -> 0 < w ->
  get_fused_base ln float32 images kernel_size = Ok img.
Proof.
  intros Hcopies Himg Hh Hw.
  destruct (fused_base_channelwise ln float32 images h w c kernel_size)
    as (fused & -> & Hr & Hplanes);
    [by destruct Hcopies|by apply (copies_rect3 h w c img)|done..|].
  f_equal. apply (rect3_ext_planes h w c); [done..|].
  intros ch Hch. specialize (Hplanes ch Hch).
  rewrite (base_channel_of_copies ln img images h w c kernel_size ch)
    in Hplanes by done.
  by injection Hplanes.
Qed.

Lemma detail_levels_copies c n : forall (images : Stack) (img : Image) h w,
  copies_of img images -> rect3 h w c img -> 0 < h -> 0 < w ->
  Forall (fun level => exists x hl wl,
            copies_of x level /\ rect3 hl wl c x /\ 0 < hl /\ 0 < wl)
         (detail_levels (images :: down_stacks n images)).
Proof.
  induction n as [|n IH]; intros images img h w Hcopies Himg Hh Hw.
  - simpl. constructor; [|constructor]. by exists img, h, w.
  - cbn [down_stacks].
    change (detail_levels (images :: map Cv2.pyrDown_mat images
                             :: down_stacks n (map Cv2.pyrDown_mat images)))
      with (detail_stack images (map Cv2.pyrDown_mat images)
              :: detail_levels (map Cv2.pyrDown_mat images
                                  :: down_stacks n (map Cv2.pyrDown_mat images))).
    destruct (half_up_bounds h Hh) as [Hh' _].
    destruct (half_up_bounds w Hw) as [Hw' _].
    constructor.
    + rewrite laplacian_level_map.
      exists (sub_same3 img (fit_to3 (Cv2.pyrUp_mat (Cv2.pyrDown_mat img)) img)), h, w.
      split; [by apply (copies_map (fun img =>
                sub_same3 img (fit_to3 (Cv2.pyrUp_mat (Cv2.pyrDown_mat img)) img)))|].
      split; [|done].
      apply (reconstruct_step h w c img (Cv2.pyrDown_mat img)); [done..|].
      by apply rect3_pyrDown.
    + apply (IH _ (Cv2.pyrDown_mat img) ((h + 1) / 2) ((w + 1) / 2));
        [by apply copies_map|by apply rect3_pyrDown|done|done].
Qed.

(** X12.  Fusing identical layers gives the layer back: for a stack whose
    layers are all the same image, a single-layer stack in particular,
    [get_pyramid_fusion] returns that image, whatever the depth, when the
    image has 2 to 512 channels, and for any image too small to be
    decomposed. *)
Theorem fusion_of_identical_layers (ln : Qc -> Qc) (images : Stack)
    (img : Image) (h w c : nat) (min_size : Z) :
  copies_of img images -> rect3 h w c img -> 0 < h -> 0 < w ->
  (0 < min_size)%Z ->
  2 <= c <= 512 \/ (Z.of_nat (Nat.min h w) < 2 * min_size)%Z ->
  get_pyramid_fusion ln images min_size = Ok (Arr3 img).
Proof.
  intros Hcopies Himg Hh Hw Hm Hcase.
  pose proof (copies_first img images Hcopies) as Hfirst.
  pose proof (copies_rect3 h w c img images Hcopies Himg) as Himgs.
  pose proof (fusion_depth_of_first images img h w c min_size Hfirst Himg Hh Hw)
    as Hdepth.
  destruct Hcase as [Hc|Hsmall]; cycle 1.
  { destruct (int_log2_ratio_small (Z.of_nat (Nat.min h w)) min_size)
      as (d & Hd & Hle); [lia|done|done|].
    rewrite (get_pyramid_fusion_flat ln images min_size d) by congruence.
    by rewrite (fused_base_of_copies ln img images h w c 5). }
  assert (Hc1 : c <> 1) by lia.
  unfold get_pyramid_fusion. rewrite Hdepth.
  destruct (int_log2_ratio_ok (Z.of_nat (Nat.min h w)) min_size)
    as [depth ->]; [lia|done|].
  cbn [bind]. rewrite (laplacian_pyramid_regular c images depth h w) by done.
  cbn [bind].
  set (pyramids := detail_levels (images :: down_stacks (Z.to_nat depth) images)).
  pose proof (detail_levels_copies c (Z.to_nat depth) images img h w
                Hcopies Himg Hh Hw) as Hlevels. fold pyramids in Hlevels.
  assert (Hne : pyramids <> []) by apply detail_levels_nonempty.
  destruct (fuse_pyramids_spec ln float32 5 pyramids
    (fun j f => f = default [] (default [] (pyramids !! j) !! 0)))
    as (fusion & -> & Hlen & HR); [done| | |].
  - intros j Hj.
    destruct (lookup_lt_is_Some_2 pyramids j) as [lvl Hlvl]; [lia|].
    destruct (Forall_lookup_1 _ _ _ _ Hlevels Hlvl)
      as (x & hl & wl & Hx & Hxr & Hhl & Hwl).
    rewrite Hlvl. simpl. exists x. split.
    + by apply (fused_laplacian_of_copies x lvl hl wl c).
    + by rewrite (copies_first x lvl Hx).
  - assert (Hpos : 0 < length pyramids)
      by (destruct pyramids; simpl; [done|lia]).
    destruct (lookup_lt_is_Some_2 pyramids (length pyramids - 1))
      as [lvl Hlvl]; [lia|].
    destruct (Forall_lookup_1 _ _ _ _ Hlevels Hlvl)
      as (x & hl & wl & Hx & Hxr & Hhl & Hwl).
    rewrite (last_lookup_default pyramids [] lvl Hlvl), Hlvl. simpl.
    exists x. split.
    + by apply (fused_base_of_copies ln x lvl hl wl c).
    + by rewrite (copies_first x lvl Hx).
  - cbn [bind].
    assert (Hfusion : fusion = map (fun level => default [] (level !! 0)) pyramids).
    { apply list_eq. intros j. rewrite list_lookup_fmap.
      destruct (fusion !! j) as [f|] eqn:Hf.
      - rewrite (HR j f Hf).
        destruct (lookup_lt_is_Some_2 pyramids j) as [lvl ->]; [|done].
        apply lookup_lt_Some in Hf. lia.
      - apply lookup_ge_None_1 in Hf.
        rewrite lookup_ge_None_2 by lia. done. }
    rewrite Hfusion.
    rewrite (collapse_regular c (Z.to_nat depth) h w); [|done|done|done|].
    + do 2 f_equal. unfold pyramids.
      by apply (layer_round_trip 0 _ images h w c img).
    + apply (slice_levels_shapes c 0 _ _ (length images)).
      * by apply lookup_lt_Some in Hfirst.
      * by apply detail_levels_layers.
Qed.

Lemma fusion_of_identical_layers_witness :
  get_pyramid_fusion (fun _ => 1%Qc) [demo_bgr_a; demo_bgr_a; demo_bgr_a] 1
  = Ok (Arr3 demo_bgr_a).
Proof.
  apply (fusion_of_identical_layers (fun _ => 1%Qc)
           [demo_bgr_a; demo_bgr_a; demo_bgr_a] demo_bgr_a 2 2 3 1).
  - split; [done|]. by repeat constructor.
  - repeat constructor.
  - lia.
  - lia.
  - lia.
  - left. lia.
Defined.

(** ** Edge cases of the orchestrator *)

Lemma base_channel_cast ln (images : Stack) kernel_size channel :
  get_fused_base_channel ln uint8 images kernel_size channel
  = let* p := get_fused_base_channel ln float32 images kernel_size channel in
    Ok (map (map (Np.astype uint8)) p).
Proof.
  unfold get_fused_base_channel.
  destruct (Np.shape4 images) as [[[n h] w] c].
  case_bool_decide; [done|].
  destruct (Np.argmax0 h w _) as [best_e|e]; [|done]. cbn [bind].
  destruct (Np.argmax0 h w _) as [best_d|e]; [|done]. cbn [bind].
  f_equal. rewrite map_map. apply map_ext. intros row. by rewrite map_map.
Qed.

(** X13.  When the smaller side of the first image is below twice
    [min_size], the computed depth is not positive, no level is
    decomposed, and [get_pyramid_fusion] is exactly the base-band fusion of
    the input stack taken as [float32], as the pyramid casts it, with a
    window of 5, errors included.  Called on a [uint8] stack itself,
    [get_fused_base_channel] casts that result to [uint8]. *)
Theorem small_images_are_fused_as_base_band (ln : Qc -> Qc) (images : Stack)
    (first : Image) (h w c : nat) (min_size : Z) :
  images !! 0 = Some first -> rect3 h w c first -> 0 < h -> 0 < w ->
  (0 < min_size)%Z -> (Z.of_nat (Nat.min h w) < 2 * min_size)%Z ->
  (exists d, fusion_depth images min_size = Ok d /\ (d <= 0)%Z
             /\ laplacian_pyramid images d = Ok [map Arr3 images])
  /\ get_pyramid_fusion ln images min_size
     = (let* fused := get_fused_base ln float32 images 5 in Ok (Arr3 fused))
  /\ (forall channel,
        get_fused_base_channel ln uint8 images 5 channel
        = let* p := get_fused_base_channel ln float32 images 5 channel in
          Ok (map (map (Np.astype uint8)) p)).
Proof.
  intros Hfirst Hr Hh Hw Hm Hsmall.
  assert (Hdepth : exists d, fusion_depth images min_size = Ok d /\ (d <= 0)%Z).
  { rewrite (fusion_depth_of_first images first h w c) by done.
    apply int_log2_ratio_small; lia. }
  destruct Hdepth as (d & Hd & Hle).
  split; [|split].
  - exists d. split; [done|]. split; [done|]. by apply laplacian_pyramid_flat.
  - by apply (get_pyramid_fusion_flat ln images min_size d).
  - intros channel. apply base_channel_cast.
Qed.

Lemma small_images_are_fused_as_base_band_witness :
  get_pyramid_fusion (fun _ => 1%Qc) [demo_a; demo_b] 32
  = (let* fused := get_fused_base (fun _ => 1%Qc) float32 [demo_a; demo_b] 5 in
     Ok (Arr3 fused)).
Proof.
  destruct (small_images_are_fused_as_base_band (fun _ => 1%Qc)
              [demo_a; demo_b] demo_a 2 2 1 32) as (_ & H & _).
  - reflexivity.
  - repeat constructor.
  - lia.
  - lia.
  - lia.
  - simpl. lia.
  - exact H.
Defined.

(** X14.  The depth computation of [get_pyramid_fusion] fails before any
    pyramid is built: [min_size = 0] raises [ZeroDivisionError], a negative
    [min_size] makes the logarithm [nan] and [int] raise [ValueError], and
    an image with a side of length 0 makes it [-inf] and [int] raise
    [OverflowError]. *)
Theorem depth_errors_abort_fusion (ln : Qc -> Qc) (images : Stack)
    (first : Image) (h w c : nat) (min_size : Z) :
  images !! 0 = Some first -> Np.shape3 first = (h, w, c) ->
  (min_size = 0%Z -> get_pyramid_fusion ln images min_size = Raise ZeroDivisionError)
  /\ (min_size <> 0%Z -> Nat.min h w = 0 ->
      get_pyramid_fusion ln images min_size = Raise OverflowError)
  /\ ((min_size < 0)%Z -> 0 < Nat.min h w ->
      get_pyramid_fusion ln images min_size = Raise ValueError).
Proof.
  intros Hfirst Hshape.
  unfold get_pyramid_fusion, fusion_depth. rewrite Hfirst, Hshape.
  unfold int_log2_ratio. repeat split.
  - intros ->. done.
  - intros Hm Hs. destruct (Z.eqb_spec min_size 0) as [|_]; [done|].
    by rewrite Hs.
  - intros Hm Hs. destruct (Z.eqb_spec min_size 0) as [|_]; [lia|].
    destruct (Z.eqb_spec (Z.of_nat (Nat.min h w)) 0) as [|_]; [lia|].
    destruct (Z.ltb_spec min_size 0) as [_|]; [done|lia].
Qed.

Lemma depth_errors_abort_fusion_witness :
  get_pyramid_fusion (fun _ => 1%Qc) [demo_a; demo_b] 0 = Raise ZeroDivisionError
  /\ get_pyramid_fusion (fun _ => 1%Qc) [[]; demo_b] 32 = Raise OverflowError
  /\ get_pyramid_fusion (fun _ => 1%Qc) [demo_a; demo_b] (-32) = Raise ValueError.
Proof.
  destruct (depth_errors_abort_fusion (fun _ => 1%Qc) [demo_a; demo_b] demo_a
              2 2 1 0 eq_refl eq_refl) as (H0 & _ & _).
  destruct (depth_errors_abort_fusion (fun _ => 1%Qc) [[]; demo_b] []
              0 0 0 32 eq_refl eq_refl) as (_ & Hempty & _).
  destruct (depth_errors_abort_fusion (fun _ => 1%Qc) [demo_a; demo_b] demo_a
              2 2 1 (-32) eq_refl eq_refl) as (_ & _ & Hneg).
  split; [by apply H0|]. split; [by apply Hempty|]. apply Hneg; simpl; lia.
Defined.

Lemma rect3_crop_min {A} h w c h' w' (e : list (list (list A))) :
  rect3 h' w' c e -> rect3 (Nat.min h h') (Nat.min w w') c (Np.crop e h w).
Proof.
  intros [Hl Hr]. unfold Np.crop. split.
  - rewrite length_take, length_map. lia.
  - apply Forall_take, Forall_map.
    eapply Forall_impl; [|exact Hr]. intros row [Hrl Hpx]. simpl. split.
    + rewrite length_take. lia.
    + by apply Forall_take.
Qed.

(** X15.  [collapse] rejects an empty pyramid with [IndexError].  For a
    pyramid of images of 2 to 512 channels whose levels have the sizes of
    a pyramid over an (h, w) image, each level half the one before rounded
    up, it returns an image of shape (h, w, c): the [pyrUp] of the coarser
    level is cropped to the finer level wherever a side is odd.  The crop
    never pads: where the [pyrUp] of the coarser level has fewer rows than
    the finer level, the addition raises [ValueError]. *)
Theorem collapse_returns_finest_shape (c n h w : nat) (pyramid : list Image) :
  0 < h -> 0 < w -> 2 <= c <= 512 ->
  Forall2 (fun d f => rect3 d.1 d.2 c f) (level_dims n h w) pyramid ->
  collapse [] = Raise IndexError
  /\ (exists image,
        collapse (map Arr3 pyramid) = Ok (Arr3 image) /\ rect3 h w c image)
  /\ (forall (layer base : Image) (hb wb : nat),
        rect3 h w c layer -> rect3 hb wb c base -> 0 < hb -> 0 < wb ->
        2 * hb < h ->
        collapse [Arr3 layer; Arr3 base] = Raise ValueError).
Proof.
  intros Hh Hw Hc Hp. split; [done|]. split.
  - rewrite (collapse_regular c n h w) by (done || lia).
    eexists. split; [reflexivity|]. by apply (collapse_levels_shape c n).
  - intros layer base hb wb Hlayer Hbase Hhb Hwb Hlow.
    unfold collapse. cbn [removelast rev app List.last for_each].
    rewrite (pyrUp_Arr3 hb wb c) by (done || lia).
    pose proof (rect3_pyrUp hb wb c base Hbase Hhb Hwb) as Hup.
    rewrite fit_to_Arr3. unfold fit_to3.
    rewrite (rect3_shape3 (2 * hb) (2 * wb) c), (rect3_shape3 h w c)
      by (done || lia).
    rewrite bool_decide_eq_false_2 by (intros [=]; lia).
    pose proof (rect3_crop_min h w c _ _ _ Hup) as Hcrop.
    unfold Np.add, Np.binary, Np.broadcast3.
    rewrite (rect3_shape3 _ _ c _ Hcrop) by lia.
    rewrite (rect3_shape3 h w c) by done.
    replace (Nat.min h (2 * hb)) with (2 * hb) by lia.
    unfold Np.broadcast_dim at 1.
    destruct (Nat.eqb_spec (2 * hb) h) as [|_]; [lia|].
    destruct (Nat.eqb_spec (2 * hb) 1) as [|_]; [lia|].
    destruct (Nat.eqb_spec h 1) as [|_]; [lia|].
    done.
Qed.

Lemma collapse_returns_finest_shape_witness :
  (exists image,
     collapse [Arr3 (Np.zeros3 3 5 2); Arr3 (Np.zeros3 2 3 2);
               Arr3 (Np.zeros3 1 2 2)] = Ok (Arr3 image)
     /\ rect3 3 5 2 image)
  /\ collapse [Arr3 (Np.zeros3 3 5 2); Arr3 (Np.zeros3 1 1 2)] = Raise ValueError.
Proof.
  destruct (collapse_returns_finest_shape 2 2 3 5
              [Np.zeros3 3 5 2; Np.zeros3 2 3 2; Np.zeros3 1 2 2])
    as (_ & H & Hraise).
  - lia.
  - lia.
  - lia.
  - repeat constructor.
  - split; [exact H|].
    apply (Hraise (Np.zeros3 3 5 2) (Np.zeros3 1 1 2) 1 1).
    + repeat constructor.
    + repeat constructor.
    + lia.
    + lia.
    + lia.
Defined.

(** X16.  [np.argmax] picks a layer in range, and the index of the first
    maximum is unique: of two layers that hold the same value, the later
    one is never selected. *)
Theorem argmax_is_the_unique_first_maximum (l : list Qc) :
  l <> [] ->
  Np.first_max l < length l
  /\ first_argmax l (Np.first_max l)
  /\ (forall i, first_argmax l i -> i = Np.first_max l)
  /\ (forall i j x, i < j -> l !! i = Some x -> l !! j = Some x ->
        Np.first_max l <> j).
Proof.
  intros Hne. pose proof (first_max_spec l Hne) as Hmax.
  assert (Huniq : forall i j, first_argmax l i -> first_argmax l j -> ~ i < j).
  { intros i j (x & Hx & Hxmax & _) (y & Hy & _ & Hyfirst) Hij.
    pose proof (Hyfirst i x Hij Hx) as Hlt.
    pose proof (Hxmax j y Hy) as Hle.
    by apply (Qcle_not_lt _ _ Hle). }
  split; [by apply first_argmax_lt|]. split; [done|]. split.
  - intros i Hi.
    destruct (Nat.lt_trichotomy i (Np.first_max l)) as [Hlt|[->|Hgt]]; [|done|].
    + by destruct (Huniq _ _ Hi Hmax).
    + by destruct (Huniq _ _ Hmax Hi).
  - intros i j x Hij Hi Hj Heq. rewrite Heq in Hmax.
    destruct Hmax as (y & Hy & _ & Hfirst).
    rewrite Hj in Hy. injection Hy as <-.
    pose proof (Hfirst i x Hij Hi) as Hlt. by apply Qclt_not_eq in Hlt.
Qed.

Lemma argmax_is_the_unique_first_maximum_witness :
  Np.first_max [Qint 1; Qint 3; Qint 3; Qint 2] < 4
  /\ first_argmax [Qint 1; Qint 3; Qint 3; Qint 2]
       (Np.first_max [Qint 1; Qint 3; Qint 3; Qint 2]).
Proof.
  destruct (argmax_is_the_unique_first_maximum
              [Qint 1; Qint 3; Qint 3; Qint 2]) as (Hlt & Hmax & _).
  - done.
  - split; [exact Hlt | exact Hmax].
Defined.

(** ** The sharpness pre-filter of [stacker.py] *)

Lemma foldl_max_spec (rest : list Qc) : forall m,
  let M := foldl (fun m y => if bool_decide (m < y)%Qc then y else m) m rest in
  (M = m \/ M ∈ rest) /\ (m <= M)%Qc /\ forall x, x ∈ rest -> (x <= M)%Qc.
Proof.
  induction rest as [|y rest IH]; intros m; simpl.
  - split; [by left|]. split; [apply Qcle_refl|]. by intros x Hx%elem_of_nil.
  - case_bool_decide as Hlt.
    + destruct (IH y) as (Hin & Hle & Hall). split; [|split].
      * right. destruct Hin as [->|Hin]; [by left|by right].
      * apply Qclt_le_weak. by eapply Qclt_le_trans.
      * intros x [->|Hx]%elem_of_cons; [done|by apply Hall].
    + apply Qcnot_lt_le in Hlt.
      destruct (IH m) as (Hin & Hle & Hall). split; [|split].
      * destruct Hin as [->|Hin]; [by left|right; by right].
      * done.
      * intros x [->|Hx]%elem_of_cons; [by eapply Qcle_trans|by apply Hall].
Qed.

Lemma py_max_spec (l : list Qc) :
  l <> [] ->
  exists M, Py.max l = Ok M /\ M ∈ l /\ forall x, x ∈ l -> (x <= M)%Qc.
Proof.
  destruct l as [|m rest]; [done|]. intros _.
  destruct (foldl_max_spec rest m) as (Hin & Hle & Hall).
  eexists. split; [reflexivity|]. split.
  - destruct Hin as [->|Hin]; [by left|by right].
  - intros x [->|Hx]%elem_of_cons; [done|by apply Hall].
Qed.

Section StackFilterFacts.

Context {A : Type} (compute_fv : A -> Qc).

Lemma keep_sharp_filter (images : list A) (bound : Qc) :
  keep_sharp images (map compute_fv images) bound
  = filter (fun image => (bound <= compute_fv image)%Qc) images.
Proof.
  unfold keep_sharp. induction images as [|image images IH]; [done|].
  cbn [map zip zip_with]. rewrite !filter_cons. cbn [snd].
  case_decide; simpl; by rewrite IH.
Qed.

Lemma length_filter_le (P : A -> Prop) `{!forall x, Decision (P x)} (l : list A) :
  length (filter P l) <= length l.
Proof.
  induction l as [|x l IH]; [done|]. rewrite filter_cons.
  case_decide; simpl; lia.
Qed.

(** X17.  [stack_filter] raises [ValueError] on an empty list.  Otherwise
    it returns the images whose focus measure reaches [threshold], in their
    original order, when there are at least five of them; when there are
    fewer it ignores [threshold] and returns the images whose focus
    measure reaches 0.66 times the largest one.  Either way the result is
    a sub-list of the input. *)
Theorem stack_filter_selection (images : list A) (threshold : Qc) :
  stack_filter compute_fv [] threshold = Raise ValueError
  /\ (images <> [] ->
      exists kept M,
        stack_filter compute_fv images threshold = Ok kept
        /\ M ∈ map compute_fv images
        /\ (forall image, image ∈ images -> (compute_fv image <= M)%Qc)
        /\ sublist kept images
        /\ let sharp := filter (fun image => (threshold <= compute_fv image)%Qc)
                               images in
           (5 <= length sharp -> kept = sharp)
           /\ (length sharp < 5 ->
               kept = filter (fun image =>
                                (M * qfrac 33 50 <= compute_fv image)%Qc) images)).
Proof.
  split; [done|]. intros Hne.
  destruct (py_max_spec (map compute_fv images)) as (M & HM & Hin & Hmax).
  { by destruct images. }
  unfold stack_filter. rewrite HM. cbn [bind].
  rewrite !keep_sharp_filter.
  destruct (Nat.ltb_spec
              (length (filter (fun image => (threshold <= compute_fv image)%Qc)
                              images)) 5) as [Hfew|Hmany].
  - eexists _, M. split; [reflexivity|]. split; [done|]. split.
    + intros image Himg. apply Hmax. apply list_elem_of_fmap. by exists image.
    + split; [apply sublist_filter|]. split; [lia|done].
  - eexists _, M. split; [reflexivity|]. split; [done|]. split.
    + intros image Himg. apply Hmax. apply list_elem_of_fmap. by exists image.
    + split; [apply sublist_filter|]. split; [done|lia].
Qed.

Lemma Qc_scale_le (M : Qc) : (0 <= M)%Qc -> (M * qfrac 33 50 <= M)%Qc.
Proof.
  intros HM. rewrite <- (Qcmult_1_r M) at 2.
  rewrite (Qcmult_comm M (qfrac 33 50)), (Qcmult_comm M 1).
  apply Qcmult_le_compat_r; [by vm_compute|done].
Qed.

Lemma stack_filter_nonempty_sublist (images : list A) (threshold : Qc) :
  images <> [] ->
  (forall image, image ∈ images -> (0 <= compute_fv image)%Qc) ->
  exists kept,
    stack_filter compute_fv images threshold = Ok kept
    /\ kept <> [] /\ sublist kept images.
Proof.
  intros Hne Hnonneg.
  destruct (py_max_spec (map compute_fv images)) as (M & HM & Hin & Hmax).
  { by destruct images. }
  apply list_elem_of_fmap in Hin as (best & -> & Hbest).
  unfold stack_filter. rewrite HM. cbn [bind]. rewrite !keep_sharp_filter.
  set (sharp := filter (fun image => (threshold <= compute_fv image)%Qc) images).
  destruct (Nat.ltb_spec (length sharp) 5) as [Hfew|Hmany].
  - eexists. split; [reflexivity|]. split; [|apply sublist_filter].
    intros Hnil.
    assert (Hb : best ∈ filter (fun image =>
              (compute_fv best * qfrac 33 50 <= compute_fv image)%Qc) images).
    { apply list_elem_of_filter. split; [|done].
      apply Qc_scale_le. by apply Hnonneg. }
    rewrite Hnil in Hb. by apply not_elem_of_nil in Hb.
  - eexists. split; [reflexivity|]. split; [|apply sublist_filter].
    intros Hnil. rewrite Hnil in Hmany. simpl in Hmany. lia.
Qed.

(** X18.  When every focus measure is non-negative, as a squared deviation
    is, [stack_filter] of a non-empty list returns a non-empty list that
    contains every image of largest focus measure. *)
Theorem stack_filter_keeps_the_sharpest (images : list A) (threshold : Qc) :
  images <> [] ->
  (forall image, image ∈ images -> (0 <= compute_fv image)%Qc) ->
  exists kept,
    stack_filter compute_fv images threshold = Ok kept
    /\ kept <> []
    /\ forall image, image ∈ images ->
         (forall other, other ∈ images ->
            (compute_fv other <= compute_fv image)%Qc) ->
         image ∈ kept.
Proof.
  intros Hne Hnonneg.
  destruct (py_max_spec (map compute_fv images)) as (M & HM & Hin & Hmax).
  { by destruct images. }
  apply list_elem_of_fmap in Hin as (best & -> & Hbest).
  assert (Hall : forall image, image ∈ images ->
            (compute_fv image <= compute_fv best)%Qc).
  { intros image Himg. apply Hmax, list_elem_of_fmap. by exists image. }
  unfold stack_filter. rewrite HM. cbn [bind]. rewrite !keep_sharp_filter.
  set (sharp := filter (fun image => (threshold <= compute_fv image)%Qc) images).
  assert (Hkeep : forall kept,
    (forall image, image ∈ images ->
       (forall other, other ∈ images ->
          (compute_fv other <= compute_fv image)%Qc) -> image ∈ kept) ->
    kept <> []).
  { intros kept Hk ->. by apply (not_elem_of_nil best), Hk. }
  destruct (Nat.ltb_spec (length sharp) 5) as [Hfew|Hmany].
  - eexists. split; [reflexivity|].
    assert (Hk : forall image, image ∈ images ->
       (forall other, other ∈ images ->
          (compute_fv other <= compute_fv image)%Qc) ->
       image ∈ filter (fun image =>
                         (compute_fv best * qfrac 33 50 <= compute_fv image)%Qc)
                      images).
    { intros image Himg Htop. apply list_elem_of_filter. split; [|done].
      eapply Qcle_trans; [apply Qc_scale_le; by apply Hnonneg|]. by apply Htop. }
    split; [by apply Hkeep|done].
  - eexists. split; [reflexivity|].
    assert (Hk : forall image, image ∈ images ->
       (forall other, other ∈ images ->
          (compute_fv other <= compute_fv image)%Qc) -> image ∈ sharp).
    { intros image Himg Htop. apply list_elem_of_filter. split; [|done].
      destruct sharp as [|first rest] eqn:Hs; [simpl in Hmany; lia|].
      assert (Hf : first ∈ sharp) by (rewrite Hs; by left).
      apply list_elem_of_filter in Hf as [Hft Hfi].
      eapply Qcle_trans; [exact Hft|]. by apply Htop. }
    split; [by apply Hkeep|done].
Qed.

End StackFilterFacts.

Lemma stack_filter_selection_witness :
  exists kept M,
    stack_filter (fun n : nat => Qnat n) [3; 1; 4] 1%Qc = Ok kept
    /\ M ∈ map (fun n : nat => Qnat n) [3; 1; 4]
    /\ sublist kept [3; 1; 4].
Proof.
  destruct (stack_filter_selection (fun n : nat => Qnat n) [3; 1; 4] 1%Qc)
    as [_ H].
  destruct (H ltac:(done)) as (kept & M & Hk & HM & _ & Hsub & _).
  by exists kept, M.
Defined.

Lemma stack_filter_keeps_the_sharpest_witness :
  exists kept,
    stack_filter (fun n : nat => Qnat n) [3; 1; 4] 1%Qc = Ok kept /\ kept <> [].
Proof.
  destruct (stack_filter_keeps_the_sharpest (fun n : nat => Qnat n) [3; 1; 4] 1%Qc)
    as (kept & Hk & Hne & _).
  - done.
  - intros image _. change 0%Qc with (Qnat 0). apply Qnat_le. lia.
  - by exists kept.
Defined.

(** ** From the decoded images to the fused image *)

Lemma cvtColor_accepts h w c (image : Image) :
  rect3 h w c image -> 0 < h -> 0 < w ->
  Cv2.cvtColor_BGR2GRAY image
  = if (c =? 3) || (c =? 4) then Ok tt else Raise Cv2Error.
Proof.
  intros Hr Hh Hw. unfold Cv2.cvtColor_BGR2GRAY.
  by rewrite (rect3_shape3 h w c).
Qed.

Lemma for_each_checks {A} (check : A -> result unit) (xs : list A) :
  Forall (fun x => check x = Ok tt) xs ->
  for_each xs tt (fun x _ => check x) = Ok tt.
Proof.
  induction 1 as [|x xs Hx _ IH]; simpl; [done|]. by rewrite Hx.
Qed.

(** X19.  The computation of [stack_dir] on the decoded images: an empty
    list of images raises [ValueError] in the pre-filter; a non-empty list
    of images of one shape (h, w, c) with 3 or 4 channels, with
    non-negative focus measures, yields a fused image of shape (h, w, c);
    with any other number of channels [cv2.cvtColor] raises [cv2.error]
    in the focus measure of the first image. *)
Theorem stack_dir_images_returns_fused_image (focus : Image -> Qc)
    (ln : Qc -> Qc) (images : list Image) (h w c : nat) :
  images <> [] -> Forall (rect3 h w c) images -> 0 < h -> 0 < w ->
  (forall image, image ∈ images -> (0 <= focus image)%Qc) ->
  stack_dir_images focus ln [] = Raise ValueError
  /\ (c = 3 \/ c = 4 ->
      exists fused,
        stack_dir_images focus ln images = Ok (Arr3 fused)
        /\ rect3 h w c fused)
  /\ (c <> 3 -> c <> 4 -> stack_dir_images focus ln images = Raise Cv2Error).
Proof.
  intros Hne Himgs Hh Hw Hfv. split; [done|]. split.
  - intros Hc.
    assert (Hchecks : for_each images tt
                        (fun image _ => Cv2.cvtColor_BGR2GRAY image) = Ok tt).
    { apply for_each_checks. eapply Forall_impl; [|exact Himgs].
      intros image Hr. simpl. rewrite (cvtColor_accepts h w c) by done.
      by destruct Hc as [->| ->]. }
    destruct (stack_filter_nonempty_sublist focus images 1%Qc Hne Hfv)
      as (kept & Hkept & Hkne & Hsub).
    assert (Hkrect : Forall (rect3 h w c) kept).
    { apply list.Forall_forall. intros image Hin.
      apply (proj1 (list.Forall_forall _ _) Himgs).
      by apply (elem_of_sublist kept images). }
    unfold stack_dir_images. rewrite Hchecks, Hkept. cbn [bind].
    unfold stack_images. rewrite (asarray_same_shape h w c) by done.
    cbn [bind]. apply get_pyramid_fusion_shape; [done|done|done|done|lia|].
    left. lia.
  - intros H3 H4. destruct images as [|first rest]; [done|].
    apply Forall_cons_1 in Himgs as [Hfirst _].
    unfold stack_dir_images. cbn [for_each].
    rewrite (cvtColor_accepts h w c) by done.
    destruct (Nat.eqb_spec c 3) as [|_]; [done|].
    by destruct (Nat.eqb_spec c 4) as [|_].
Qed.

Lemma stack_dir_images_returns_fused_image_witness :
  (exists fused,
     stack_dir_images (fun _ => 1%Qc) (fun _ => 1%Qc) [demo_bgr_a; demo_bgr_b]
     = Ok (Arr3 fused)
     /\ rect3 2 2 3 fused)
  /\ stack_dir_images (fun _ => 1%Qc) (fun _ => 1%Qc) [demo_a; demo_b]
     = Raise Cv2Error.
Proof.
  destruct (stack_dir_images_returns_fused_image (fun _ => 1%Qc) (fun _ => 1%Qc)
              [demo_bgr_a; demo_bgr_b] 2 2 3) as (_ & H & _).
  - done.
  - repeat constructor.
  - lia.
  - lia.
  - intros image _. by vm_compute.
  - destruct (stack_dir_images_returns_fused_image (fun _ => 1%Qc)
                (fun _ => 1%Qc) [demo_a; demo_b] 2 2 1) as (_ & _ & Hgray).
    + done.
    + repeat constructor.
    + lia.
    + lia.
    + intros image _. by vm_compute.
    + split; [apply H; by left | apply Hgray; lia].
Defined.

(** ** The gray image of a channel *)

Lemma to_uint8_Qnat (n : nat) : n < 256 -> to_uint8 (Qnat n) = n.
Proof.
  intros Hn. unfold to_uint8, Qnat. cbn [this Q2Qc].
  rewrite inject_Z_Qred. cbn [inject_Z Qnum Qden].
  rewrite Z.quot_1_r, Z.mod_small by lia. lia.
Qed.

(** X20.  In base-band fusion the gray image of every layer is a valid
    [uint8] image of the size of the layer (a value that already is an
    integer gray level is kept by the cast), and so every level [v] of
    every window has [probabilities[v] > 0]: [np.log] is never given 0
    inside [get_fused_base_channel]. *)
Theorem base_fusion_never_takes_log_of_zero (image : Image)
    (h w c channel kernel_size r x v : nat) :
  rect3 h w c image -> r < h -> x < w ->
  let gray := gray_channel image channel in
  let pad := (kernel_size - 1) / 2 in
  v ∈ concat (window (Cv2.copyMakeBorder 0 gray pad) pad r x) ->
  quantized gray /\ rect2 h w gray
  /\ (forall n, n < 256 -> to_uint8 (Qnat n) = n)
  /\ exists p, get_probabilities gray !! v = Some p /\ (0 < p)%Qc.
Proof.
  intros Himg Hr Hx gray pad Hv.
  assert (Hq : quantized gray) by apply quantized_gray_channel.
  assert (Hg : rect2 h w gray).
  { unfold gray, gray_channel. apply rect2_map. by apply (rect2_plane h w c). }
  split; [done|]. split; [done|]. split; [apply to_uint8_Qnat|].
  rewrite (window_padded_mirrored gray h w) in Hv by done.
  apply (mirrored_window_in_image gray h w) in Hv; [|done..].
  pose proof (proj1 (list.Forall_forall _ _) (quantized_concat gray Hq) v Hv) as Hlt.
  exists (histogram_probability gray v). split.
  - by apply get_probabilities_lookup.
  - unfold histogram_probability.
    assert (Hcount : 0 < count_occ Nat.eq_dec (concat gray) v).
    { apply count_occ_In. by apply list_elem_of_In. }
    assert (Hlen : 0 < length (concat gray)).
    { rewrite (rect2_length_concat h w) by done. nia. }
    unfold Qcdiv. apply Qcmult_pos_pos; [by apply Qnat_pos|].
    apply Qcinv_pos. by apply Qnat_pos.
Qed.

Lemma base_fusion_never_takes_log_of_zero_witness :
  exists p, get_probabilities (gray_channel demo_a 0) !! 1 = Some p /\ (0 < p)%Qc.
Proof.
  destruct (base_fusion_never_takes_log_of_zero demo_a 2 2 1 0 5 0 0 1)
    as (_ & _ & _ & H).
  - repeat constructor.
  - lia.
  - lia.
  - vm_compute. left.
  - exact H.
Defined.

(** ** Errors of the channel fusions *)

(** X21.  Both channel fusions raise [ValueError] on an empty stack, where
    [np.argmax] has nothing to choose from, and [IndexError] when the
    channel index is not below the channel count of a non-empty stack. *)
Theorem channel_fusion_errors (ln : Qc -> Qc) (dt : dtype) (images : Stack)
    (h w c kernel_size channel : nat) :
  images <> [] -> Forall (rect3 h w c) images -> 0 < h -> 0 < w ->
  c <= channel ->
  get_fused_base_channel ln dt [] kernel_size channel = Raise ValueError
  /\ get_fused_laplacian_channel [] channel = Raise ValueError
  /\ get_fused_base_channel ln dt images kernel_size channel = Raise IndexError
  /\ get_fused_laplacian_channel images channel = Raise IndexError.
Proof.
  intros Hne Hrect Hh Hw Hch.
  assert (Hlen : 0 < length images) by (destruct images; simpl; [done|lia]).
  split; [done|]. split; [done|]. split.
  - unfold get_fused_base_channel. rewrite (stack_shape4 h w c) by done.
    by rewrite bool_decide_eq_true_2.
  - unfold get_fused_laplacian_channel. rewrite (stack_shape4 h w c) by done.
    by rewrite bool_decide_eq_true_2.
Qed.

Lemma channel_fusion_errors_witness :
  get_fused_base_channel (fun _ => 1%Qc) float32 [demo_a; demo_b] 5 1 = Raise IndexError
  /\ get_fused_laplacian_channel [demo_a; demo_b] 1 = Raise IndexError.
Proof.
  destruct (channel_fusion_errors (fun _ => 1%Qc) float32 [demo_a; demo_b]
              2 2 1 5 1)
    as (_ & _ & Hb & Hl).
  - done.
  - repeat constructor.
  - lia.
  - lia.
  - lia.
  - split; [exact Hb | exact Hl].
Defined.
